(** * The UCT tree of the Fuego search core: arena, filter, subtree copy

    Shallow embedding of
    - [SgStatisticsBase], [SgStatistics], [SgStatisticsExt],
      [SgStatisticsCollection] and [SgHistogram] (smartgame/SgStatistics.h),
    - [SgProbCut] (smartgame/SgProbCut.h),
    - [SgUctTree] (smartgame/SgUctTree.cpp): [ApplyFilter],
      [CheckConsistency], [Clear], [CopySubtree], [CreateAllocators],
      [CreateChildren], [ExtractSubtree], [NuNodes], [SetMaxNodes], [Swap],
      and [SgUctTreeIterator],
    - the parameter commands of [GoUctCommands] (gouct/GoUctCommands.cpp).

    Node addresses are modelled as (allocator index, slot index) pairs: an
    allocator is a vector whose storage never moves while its size stays
    within its capacity, so the address of slot [i] of allocator [a] is
    stable and is determined by the pair [(a, i)]. *)

From Stdlib Require Import ZArith QArith Qfield Lqa Lia DecimalString.
From stdpp Require Import base option list strings relations gmap.

Set Warnings "-register-all,-clear-no-such-hyp".

(** ** Moves *)

Definition SgMove : Type := Z.

(** Modelled from the spec: the constant [SG_NULLMOVE] is declared in
    SgMove.h, which is not part of the sources at hand; the spec only says
    that it is a reserved move value held by the root. *)
Definition SG_NULLMOVE : SgMove := (-1)%Z.

(** ** SgStatisticsBase<VALUE,COUNT> (SgStatistics.h)

    [VALUE] is modelled by exact rationals, [COUNT] by [std::size_t], a
    64-bit unsigned integer whose increment wraps around. *)

Module SgStatisticsBase.

Record t : Type := mk { m_count : Z; m_mean : Q }.

Definition COUNT_MODULUS : Z := (2 ^ 64)%Z.

Definition Clear : t := {| m_count := 0; m_mean := 0 |}.

Definition Initialize (val : Q) (count : Z) : t :=
  {| m_count := count; m_mean := val |}.

(** [Add] increments a copy of the counter and divides by it.
    [SG_ASSERT(count > 0)] guards against the counter wrapping to zero;
    the quotient [val / count] has no value in exact arithmetic there, so
    the model yields [None]. *)
Definition Add (val : Q) (s : t) : option t :=
  let count := ((m_count s + 1) mod COUNT_MODULUS)%Z in
  if decide (0 < count)%Z then
    let val := (val - m_mean s)%Q in
    Some {| m_count := count; m_mean := (m_mean s + val / inject_Z count)%Q |}
  else None.

Definition Count (s : t) : Z := m_count s.

(** [Mean] asserts [m_count > 0]; the stored value is returned as it is. *)
Definition Mean (s : t) : Q := m_mean s.

(** A sequence of calls on one statistics object. *)
Inductive call : Type :=
| CallAdd (val : Q)
| CallInitialize (val : Q) (count : Z)
| CallClear.

Definition step (c : call) (s : t) : option t :=
  match c with
  | CallAdd val => Add val s
  | CallInitialize val count => Some (Initialize val count)
  | CallClear => Some Clear
  end.

Fixpoint run (cs : list call) (s : t) : option t :=
  match cs with
  | [] => Some s
  | c :: cs => s' ← step c s; run cs s'
  end.

Definition in_unit (q : Q) : Prop := (0 <= q /\ q <= 1)%Q.

(** The value argument of a call (if any) lies in [0,1]. *)
Definition call_in_unit (c : call) : Prop :=
  match c with
  | CallAdd val | CallInitialize val _ => in_unit val
  | CallClear => True
  end.

(** No [Add] of the sequence makes the counter wrap to zero, starting
    from the counter value [count]. *)
Fixpoint counts_fit (cs : list call) (count : Z) : bool :=
  match cs with
  | [] => true
  | CallAdd _ :: cs =>
      let count := ((count + 1) mod COUNT_MODULUS)%Z in
      bool_decide (0 < count)%Z && counts_fit cs count
  | CallInitialize _ count :: cs => counts_fit cs count
  | CallClear :: cs => counts_fit cs 0%Z
  end.

End SgStatisticsBase.

(** ** Node addresses *)

(** The address of a node stored in an allocator. *)
Record NodePtr : Type := mkPtr { ptr_alloc : nat; ptr_index : nat }.

Global Instance NodePtr_eq_dec : EqDecision NodePtr.
Proof. solve_decision. Defined.

(** A reference to a node of a tree: the root lives outside the
    allocators. *)
Inductive NodeRef : Type :=
| RootRef
| AllocRef (p : NodePtr).

Global Instance NodeRef_eq_dec : EqDecision NodeRef.
Proof. solve_decision. Defined.

Definition ptr_offset (p : NodePtr) (i : nat) : NodePtr :=
  {| ptr_alloc := ptr_alloc p; ptr_index := ptr_index p + i |}.

(** ** SgUctNode

    Modelled from the spec: the class [SgUctNode] is declared in
    SgUctTree.h, which is not part of the sources at hand. The fields are
    those of the spec's data model (move, pos_count, the move value with
    its count, the RAVE value with its count, first_child, num_children);
    the member functions are the ones SgUctTree.cpp calls. A node built
    from a move has zeroed statistics and no children; its first-child
    pointer is not initialised. [CopyDataFrom] copies the move and the
    statistics and leaves the child links alone (CopySubtree relies on it:
    "Move will be copied later with CopyDataFrom"). *)

Module SgUctNode.

Record t : Type := mk {
  m_moveValue : SgStatisticsBase.t;
  m_raveValue : SgStatisticsBase.t;
  m_posCount : Z;
  m_move : SgMove;
  m_firstChild : option NodePtr;
  m_nuChildren : nat
}.

Definition make (move : SgMove) : t :=
  {| m_moveValue := SgStatisticsBase.Clear;
     m_raveValue := SgStatisticsBase.Clear;
     m_posCount := 0;
     m_move := move;
     m_firstChild := None;
     m_nuChildren := 0 |}.

Definition Move (n : t) : SgMove := m_move n.
Definition PosCount (n : t) : Z := m_posCount n.
Definition MoveCount (n : t) : Z := SgStatisticsBase.Count (m_moveValue n).
Definition RaveCount (n : t) : Z := SgStatisticsBase.Count (m_raveValue n).
Definition NuChildren (n : t) : nat := m_nuChildren n.
Definition HasChildren (n : t) : bool := bool_decide (0 < m_nuChildren n).
Definition FirstChild (n : t) : option NodePtr := m_firstChild n.

Definition CopyDataFrom (node : t) (n : t) : t :=
  {| m_moveValue := m_moveValue node;
     m_raveValue := m_raveValue node;
     m_posCount := m_posCount node;
     m_move := m_move node;
     m_firstChild := m_firstChild n;
     m_nuChildren := m_nuChildren n |}.

Definition SetFirstChild (firstChild : option NodePtr) (n : t) : t :=
  {| m_moveValue := m_moveValue n;
     m_raveValue := m_raveValue n;
     m_posCount := m_posCount n;
     m_move := m_move n;
     m_firstChild := firstChild;
     m_nuChildren := m_nuChildren n |}.

Definition SetNuChildren (nuChildren : nat) (n : t) : t :=
  {| m_moveValue := m_moveValue n;
     m_raveValue := m_raveValue n;
     m_posCount := m_posCount n;
     m_move := m_move n;
     m_firstChild := m_firstChild n;
     m_nuChildren := nuChildren |}.

Definition SetPosCount (value : Z) (n : t) : t :=
  {| m_moveValue := m_moveValue n;
     m_raveValue := m_raveValue n;
     m_posCount := value;
     m_move := m_move n;
     m_firstChild := m_firstChild n;
     m_nuChildren := m_nuChildren n |}.

(** The addresses of the child block: [NuChildren] consecutive slots
    starting at [FirstChild] (what SgUctChildIterator walks). *)
Definition ChildPtrs (n : t) : option (list NodePtr) :=
  if HasChildren n then
    first ← FirstChild n;
    Some (ptr_offset first <$> seq 0 (NuChildren n))
  else Some [].

End SgUctNode.

(** ** SgUctAllocator

    Modelled from the spec: the class [SgUctAllocator] is declared in
    SgUctTree.h, which is not part of the sources at hand. It holds the
    vector [m_nodes] (SgUctTree.cpp accesses it directly) and a capacity
    fixed by [SetMaxNodes]; [HasCapacity(n)] tells whether [n] more nodes
    fit, [Clear] empties the vector and [NuNodes] is its size. *)

Module SgUctAllocator.

Record t : Type := mk { m_nodes : list SgUctNode.t; m_capacity : nat }.

Definition make : t := {| m_nodes := []; m_capacity := 0 |}.

Definition Clear (a : t) : t :=
  {| m_nodes := []; m_capacity := m_capacity a |}.

Definition HasCapacity (n : nat) (a : t) : bool :=
  bool_decide (length (m_nodes a) + n ≤ m_capacity a).

Definition NuNodes (a : t) : nat := length (m_nodes a).

Definition SetMaxNodes (maxNodes : nat) (a : t) : t :=
  {| m_nodes := m_nodes a; m_capacity := maxNodes |}.

(** [m_nodes.push_back(node)]. Beyond the capacity the vector would move
    its storage and every node address into it would dangle: the model
    has no value for that. *)
Definition push_back (node : SgUctNode.t) (a : t) : option t :=
  if HasCapacity 1 a then
    Some {| m_nodes := m_nodes a ++ [node]; m_capacity := m_capacity a |}
  else None.

(** [SgUctAllocator::Swap]: the two vectors exchange their storage, and
    with it their contents and their capacity. *)
Definition Swap (a allocator : t) : t * t := (allocator, a).

End SgUctAllocator.

(** ** The environment of a subtree extraction

    Modelled from the spec: [SgTimer::IsTimeOut] and [SgUserAbort] are
    declared in SgTimer.h and SgSystem.h, which are not part of the
    sources at hand. CopySubtree polls both once at every source node
    that has children; the environment gives the answers to the k-th
    poll of an extraction (deadline passed, abort flag raised). *)
Record Env : Type := mkEnv {
  IsTimeOut : Q → nat → bool;
  SgUserAbort : nat → bool
}.

(** ** SgUctTree (SgUctTree.cpp) *)

Module SgUctTree.

Record t : Type := mk {
  m_maxNodes : nat;
  m_root : SgUctNode.t;
  m_allocators : list SgUctAllocator.t
}.

(** [SgUctTree::SgUctTree()] *)
Definition make : t :=
  {| m_maxNodes := 0; m_root := SgUctNode.make SG_NULLMOVE; m_allocators := [] |}.

Definition MaxNodes (tree : t) : nat := m_maxNodes tree.
Definition NuAllocators (tree : t) : nat := length (m_allocators tree).
Definition Allocator (i : nat) (tree : t) : option SgUctAllocator.t :=
  m_allocators tree !! i.
Definition Root : NodeRef := RootRef.

Definition set_allocator (i : nat) (a : SgUctAllocator.t) (tree : t) : t :=
  {| m_maxNodes := m_maxNodes tree;
     m_root := m_root tree;
     m_allocators := <[i := a]> (m_allocators tree) |}.

(** Reading the node a reference denotes; [None] for an address that is
    not a slot of the tree. *)
Definition node_at (tree : t) (r : NodeRef) : option SgUctNode.t :=
  match r with
  | RootRef => Some (m_root tree)
  | AllocRef p =>
      a ← Allocator (ptr_alloc p) tree;
      SgUctAllocator.m_nodes a !! ptr_index p
  end.

(** Writing through a (non-const) node reference. *)
Definition modify (r : NodeRef) (f : SgUctNode.t → SgUctNode.t) (tree : t)
  : option t :=
  match r with
  | RootRef =>
      Some {| m_maxNodes := m_maxNodes tree;
              m_root := f (m_root tree);
              m_allocators := m_allocators tree |}
  | AllocRef p =>
      a ← Allocator (ptr_alloc p) tree;
      n ← SgUctAllocator.m_nodes a !! ptr_index p;
      Some (set_allocator (ptr_alloc p)
              {| SgUctAllocator.m_nodes :=
                   <[ptr_index p := f n]> (SgUctAllocator.m_nodes a);
                 SgUctAllocator.m_capacity := SgUctAllocator.m_capacity a |}
              tree)
  end.

(** [Allocator(allocatorId).m_nodes.push_back(node)] *)
Definition push_back (allocatorId : nat) (node : SgUctNode.t) (tree : t)
  : option t :=
  a ← Allocator allocatorId tree;
  a' ← SgUctAllocator.push_back node a;
  Some (set_allocator allocatorId a' tree).

(** [SgUctTree::Contains]. The code compares the address of the node with
    the addresses of the first and the last element of each allocator's
    vector ([SgUctAllocator::Contains]). For the address of a slot, and
    for an address in the reserved storage of an allocator behind its
    last element, that comparison is the lookup of the slot, as long as
    every allocator has storage. For a vector without storage the code
    compares with wrapped addresses; the statements that depend on a node
    not being contained assume that every allocator has storage. *)
Definition Contains (tree : t) (r : NodeRef) : bool :=
  bool_decide (is_Some (node_at tree r)).

(** [SgUctTree::Clear] *)
Definition Clear (tree : t) : t :=
  {| m_maxNodes := m_maxNodes tree;
     m_root := SgUctNode.make SG_NULLMOVE;
     m_allocators := SgUctAllocator.Clear <$> m_allocators tree |}.

(** [SgUctTree::CreateAllocators] *)
Definition CreateAllocators (nuThreads : nat) (tree : t) : t :=
  let tree := Clear tree in
  {| m_maxNodes := m_maxNodes tree;
     m_root := m_root tree;
     m_allocators := replicate nuThreads SgUctAllocator.make |}.

(** [SgUctTree::NuNodes]: the root plus the sizes of the allocators. *)
Definition NuNodes (tree : t) : nat :=
  foldl (λ nuNodes a, nuNodes + SgUctAllocator.NuNodes a) 1 (m_allocators tree).

(** [SgUctTree::SetMaxNodes]. Without allocators the function returns
    after [Clear] (and a debug message). *)
Definition SetMaxNodes (maxNodes : nat) (tree : t) : t :=
  let tree := Clear tree in
  let nuAllocators := NuAllocators tree in
  if decide (nuAllocators = 0) then tree
  else
    let maxNodesPerAlloc := maxNodes `div` nuAllocators in
    {| m_maxNodes := maxNodes;
       m_root := m_root tree;
       m_allocators :=
         SgUctAllocator.SetMaxNodes maxNodesPerAlloc <$> m_allocators tree |}.

(** [SgUctTree::CreateChildren]. The loop pushes one node per move; the
    parent is written last, [m_firstChild] before [m_nuChildren]. *)
Fixpoint CreateChildren_loop (allocatorId : nat) (moves : list SgMove)
    (tree : t) : option t :=
  match moves with
  | [] => Some tree
  | move :: moves =>
      let child := SgUctNode.make move in
      tree ← push_back allocatorId child tree;
      CreateChildren_loop allocatorId moves tree
  end.

Definition CreateChildren (allocatorId : nat) (node : NodeRef)
    (moves : list SgMove) (tree : t) : option t :=
  let nuChildren := length moves in
  allocator ← Allocator allocatorId tree;
  let firstChild :=
    {| ptr_alloc := allocatorId;
       ptr_index := length (SgUctAllocator.m_nodes allocator) |} in
  tree ← CreateChildren_loop allocatorId moves tree;
  tree ← modify node (SgUctNode.SetFirstChild (Some firstChild)) tree;
  modify node (SgUctNode.SetNuChildren nuChildren) tree.

(** The states of the tree around the two stores that end
    [CreateChildren], in program order: the tree before the call, after
    the loop, after [nonConstNode.SetFirstChild(firstChild)] and after
    [nonConstNode.SetNuChildren(nuChildren)]. The last state is the result
    of [CreateChildren]. *)
Definition CreateChildren_states (allocatorId : nat) (node : NodeRef)
    (moves : list SgMove) (tree : t) : option (list t) :=
  let nuChildren := length moves in
  allocator ← Allocator allocatorId tree;
  let firstChild :=
    {| ptr_alloc := allocatorId;
       ptr_index := length (SgUctAllocator.m_nodes allocator) |} in
  tree1 ← CreateChildren_loop allocatorId moves tree;
  tree2 ← modify node (SgUctNode.SetFirstChild (Some firstChild)) tree1;
  tree3 ← modify node (SgUctNode.SetNuChildren nuChildren) tree2;
  Some [tree; tree1; tree2; tree3].

(** [SgUctTree::ApplyFilter]. The loop state is the tree and the counter
    [nuChildren]. In the body the node [child] is a local object: the
    vector receives a copy of it at [push_back], and the assignments
    that follow change the local object only, which then goes out of
    scope. *)
Fixpoint ApplyFilter_loop (allocatorId : nat) (rootFilter : list SgMove)
    (its : list NodePtr) (tree : t) (nuChildren : nat) : option (t * nat) :=
  match its with
  | [] => Some (tree, nuChildren)
  | it :: its =>
      cur ← node_at tree (AllocRef it);
      let move := SgUctNode.Move cur in
      if decide (move ∉ rootFilter) then
        let child := SgUctNode.make move in
        tree ← push_back allocatorId child tree;
        let child := SgUctNode.CopyDataFrom cur child in
        let childNuChildren := SgUctNode.NuChildren cur in
        let child := SgUctNode.SetNuChildren childNuChildren child in
        let child :=
          if decide (0 < childNuChildren)
          then SgUctNode.SetFirstChild (SgUctNode.FirstChild cur) child
          else child in
        ApplyFilter_loop allocatorId rootFilter its tree (S nuChildren)
      else ApplyFilter_loop allocatorId rootFilter its tree nuChildren
  end.

Definition ApplyFilter (allocatorId : nat) (node : NodeRef)
    (rootFilter : list SgMove) (tree : t) : option t :=
  n ← node_at tree node;
  if negb (SgUctNode.HasChildren n) then Some tree
  else
    allocator ← Allocator allocatorId tree;
    let firstChild :=
      {| ptr_alloc := allocatorId;
         ptr_index := length (SgUctAllocator.m_nodes allocator) |} in
    its ← SgUctNode.ChildPtrs n;
    '(tree, nuChildren) ← ApplyFilter_loop allocatorId rootFilter its tree 0;
    tree ← modify node (SgUctNode.SetFirstChild (Some firstChild)) tree;
    modify node (SgUctNode.SetNuChildren nuChildren) tree.

(** The states of the tree around the two stores that end
    [ApplyFilter], in program order: the tree before the call, after the
    loop, after [nonConstNode.SetFirstChild(firstChild)] and after
    [nonConstNode.SetNuChildren(nuChildren)]; for a node without children
    the tree as it is. The last state is the result of [ApplyFilter]. *)
Definition ApplyFilter_states (allocatorId : nat) (node : NodeRef)
    (rootFilter : list SgMove) (tree : t) : option (list t) :=
  n ← node_at tree node;
  if negb (SgUctNode.HasChildren n) then Some [tree]
  else
    allocator ← Allocator allocatorId tree;
    let firstChild :=
      {| ptr_alloc := allocatorId;
         ptr_index := length (SgUctAllocator.m_nodes allocator) |} in
    its ← SgUctNode.ChildPtrs n;
    '(tree1, nuChildren) ← ApplyFilter_loop allocatorId rootFilter its tree 0;
    tree2 ← modify node (SgUctNode.SetFirstChild (Some firstChild)) tree1;
    tree3 ← modify node (SgUctNode.SetNuChildren nuChildren) tree2;
    Some [tree; tree1; tree2; tree3].

(** The children of a node, as SgUctChildIterator enumerates them: the
    nodes stored in the child block, in block order. *)
Definition Children (tree : t) (node : NodeRef) : option (list SgUctNode.t) :=
  n ← node_at tree node;
  its ← SgUctNode.ChildPtrs n;
  mapM (λ it, node_at tree (AllocRef it)) its.

(** The moves of the children of a node, in block order. *)
Definition ChildMoves (tree : t) (node : NodeRef) : option (list SgMove) :=
  fmap (M:=list) SgUctNode.Move <$> Children tree node.

(** *** Subtree extraction *)

Definition MSG_CAPACITY : string :=
  "SgUctTree::CopySubtree: Truncated (allocator capacity)".
Definition MSG_MAXTIME : string :=
  "SgUctTree::CopySubtree: Truncated (max time)".
Definition MSG_ABORTED : string :=
  "SgUctTree::CopySubtree: Truncated (aborted)".

(** What CopySubtree threads through its calls: the target tree, the
    in-out parameters [currentAllocatorId] and [warnTruncate], the
    number of polls of the timer and the abort flag made so far, and the
    lines written to [SgDebug()]. *)
Record CopyState : Type := mkCopyState {
  target : t;
  currentAllocatorId : nat;
  warnTruncate : bool;
  polls : nat;
  debug : list string
}.

Definition with_target (target' : t) (st : CopyState) : CopyState :=
  {| target := target';
     currentAllocatorId := currentAllocatorId st;
     warnTruncate := warnTruncate st;
     polls := polls st;
     debug := debug st |}.

(** [++currentAllocatorId], cycling through the target's allocators. *)
Definition next_allocator (st : CopyState) : CopyState :=
  let id := S (currentAllocatorId st) in
  {| target := target st;
     currentAllocatorId := if decide (NuAllocators (target st) ≤ id) then 0 else id;
     warnTruncate := warnTruncate st;
     polls := polls st;
     debug := debug st |}.

(** The loop that creates [nuChildren] null-move nodes in the target
    allocator. *)
Fixpoint CopySubtree_create (allocatorId : nat) (nuChildren : nat) (tree : t)
  : option t :=
  match nuChildren with
  | 0 => Some tree
  | S k =>
      let targetChild := SgUctNode.make SG_NULLMOVE in
      tree ← push_back allocatorId targetChild tree;
      CopySubtree_create allocatorId k tree
  end.

(** The loop over the children of the source node ("Recurse"): the i-th
    child is copied into the i-th node of the block created at [first],
    after [currentAllocatorId] has moved on. [copy] is the recursive
    call. *)
Fixpoint CopySubtree_recurse
    (copy : NodeRef → NodeRef → CopyState → option CopyState)
    (first : NodePtr) (its : list NodePtr) (i : nat) (st : CopyState)
  : option CopyState :=
  match its with
  | [] => Some st
  | child :: its =>
      let st := next_allocator st in
      st ← copy (AllocRef (ptr_offset first i)) (AllocRef child) st;
      CopySubtree_recurse copy first its (S i) st
  end.

(** [SgUctTree::CopySubtree]. The recursion follows the child links of
    the source tree; [fuel] bounds its depth. *)
Fixpoint CopySubtree (fuel : nat) (env : Env) (maxTime : Q) (src : t)
    (targetNode : NodeRef) (node : NodeRef) (st : CopyState)
  : option CopyState :=
  match fuel with
  | 0 => None
  | S fuel =>
      n ← node_at src node;
      tgt ← modify targetNode (SgUctNode.CopyDataFrom n) (target st);
      let st := with_target tgt st in
      if negb (SgUctNode.HasChildren n) then Some st
      else
        let allocatorId := currentAllocatorId st in
        targetAllocator ← Allocator allocatorId (target st);
        let nuChildren := SgUctNode.NuChildren n in
        let noCapacity :=
          negb (SgUctAllocator.HasCapacity nuChildren targetAllocator) in
        let timeOut := IsTimeOut env maxTime (polls st) in
        let aborted := SgUserAbort env (polls st) in
        let warn := warnTruncate st in
        let debug' :=
          debug st
          ++ (if noCapacity && warn then [MSG_CAPACITY] else [])
          ++ (if timeOut && warn then [MSG_MAXTIME] else [])
          ++ (if aborted && warn then [MSG_ABORTED] else []) in
        let truncate := noCapacity || timeOut || aborted in
        if truncate then
          tgt ← modify targetNode (SgUctNode.SetPosCount 0) (target st);
          Some {| target := tgt;
                  currentAllocatorId := allocatorId;
                  warnTruncate := false;
                  polls := S (polls st);
                  debug := debug' |}
        else
          let firstTargetChild :=
            length (SgUctAllocator.m_nodes targetAllocator) in
          let first :=
            {| ptr_alloc := allocatorId; ptr_index := firstTargetChild |} in
          tgt ← modify targetNode (SgUctNode.SetFirstChild (Some first))
                  (target st);
          tgt ← modify targetNode (SgUctNode.SetNuChildren nuChildren) tgt;
          tgt ← CopySubtree_create allocatorId nuChildren tgt;
          its ← SgUctNode.ChildPtrs n;
          CopySubtree_recurse (CopySubtree fuel env maxTime src) first its 0
            {| target := tgt;
               currentAllocatorId := allocatorId;
               warnTruncate := warn;
               polls := S (polls st);
               debug := debug' |}
  end.

(** [SgUctTree::ExtractSubtree]. The function asserts that [node] is a
    node of this tree, that the target is another tree and that both
    trees have the same maximum number of nodes; the copy itself reads
    neither maximum. The assertions are the predicate
    [ExtractSubtree_asserts] below. *)
Definition ExtractSubtree (fuel : nat) (env : Env) (src : t) (target : t)
    (node : NodeRef) (warnTruncate : bool) (maxTime : Q) : option CopyState :=
  let target := Clear target in
  let allocatorId := 0 in
  CopySubtree fuel env maxTime src RootRef node
    {| target := target;
       currentAllocatorId := allocatorId;
       warnTruncate := warnTruncate;
       polls := 0;
       debug := [] |}.

(** [SgUctTree::Swap]. The roots are exchanged, then the allocators with
    the same index, for every index of an allocator of this tree; the
    other tree must have an allocator for each of them. The function
    asserts that both trees have the same maximum number of nodes and the
    same number of allocators; [m_maxNodes] is not exchanged. *)
Fixpoint Swap_loop (indices : list nat) (this tree : t) : option (t * t) :=
  match indices with
  | [] => Some (this, tree)
  | i :: indices =>
      a ← Allocator i this;
      b ← Allocator i tree;
      let '(a', b') := SgUctAllocator.Swap a b in
      Swap_loop indices (set_allocator i a' this) (set_allocator i b' tree)
  end.

Definition Swap (this tree : t) : option (t * t) :=
  let this' :=
    {| m_maxNodes := m_maxNodes this;
       m_root := m_root tree;
       m_allocators := m_allocators this |} in
  let tree' :=
    {| m_maxNodes := m_maxNodes tree;
       m_root := m_root this;
       m_allocators := m_allocators tree |} in
  Swap_loop (seq 0 (NuAllocators this)) this' tree'.

(** *** SgUctChildIterator

    Modelled from the spec: the class is declared in SgUctTree.h, which is
    not part of the sources at hand. It walks the child block of a node
    that has children; the model holds the addresses that are still to
    come, the current one first. *)

Module SgUctChildIterator.

Definition t : Type := list NodePtr.

Definition make (node : SgUctNode.t) : option t := SgUctNode.ChildPtrs node.

(** [operator bool], [operator*] and [operator++] *)
Definition valid (it : t) : bool := bool_decide (it ≠ []).
Definition deref (it : t) : option NodePtr := head it.
Definition next (it : t) : t := tail it.

End SgUctChildIterator.

(** *** SgUctTreeIterator

    The iterator holds the current node ([None] for the null pointer) and
    a stack of child iterators, the top first. *)

Module SgUctTreeIterator.

Record t : Type := mk {
  m_current : option NodeRef;
  m_stack : list SgUctChildIterator.t
}.

(** [SgUctTreeIterator(tree)] *)
Definition make : t := {| m_current := Some Root; m_stack := [] |}.

(** [operator*] and [operator bool] *)
Definition deref (it : t) : option NodeRef := m_current it.
Definition valid (it : t) : bool := bool_decide (is_Some (m_current it)).

(** The [while] loop of [operator++]: the top iterator is asserted to be
    valid and is advanced; if it is still valid its node is the current
    one, otherwise it is popped. *)
Fixpoint unwind (stack : list SgUctChildIterator.t) : option t :=
  match stack with
  | [] => Some {| m_current := None; m_stack := [] |}
  | it :: stack' =>
      if SgUctChildIterator.valid it then
        let it := SgUctChildIterator.next it in
        if SgUctChildIterator.valid it then
          p ← SgUctChildIterator.deref it;
          Some {| m_current := Some (AllocRef p); m_stack := it :: stack' |}
        else unwind stack'
      else None
  end.

(** [operator++] *)
Definition next (tree : SgUctTree.t) (it : t) : option t :=
  cur ← m_current it;
  n ← node_at tree cur;
  if SgUctNode.HasChildren n then
    children ← SgUctChildIterator.make n;
    p ← SgUctChildIterator.deref children;
    Some {| m_current := Some (AllocRef p); m_stack := children :: m_stack it |}
  else unwind (m_stack it).

(** The nodes a loop [for (SgUctTreeIterator it(tree); it; ++it)] visits
    from the state [it] on; [fuel] bounds the number of steps. *)
Fixpoint visit (fuel : nat) (tree : SgUctTree.t) (it : t)
  : option (list NodeRef) :=
  match deref it with
  | None => Some []
  | Some cur =>
      match fuel with
      | 0 => None
      | S fuel => it' ← next tree it; (cur ::.) <$> visit fuel tree it'
      end
  end.

End SgUctTreeIterator.

(** [SgUctTree::ThrowConsistencyError] throws an [SgException] whose
    message holds the address of the node. *)
Inductive SgException : Type := ConsistencyError (node : NodeRef).

(** [SgUctTree::CheckConsistency]: the loop over all nodes; [fuel] bounds
    the number of steps. *)
Fixpoint CheckConsistency_loop (fuel : nat) (tree : t) (it : SgUctTreeIterator.t)
  : option (SgException + ()) :=
  match SgUctTreeIterator.deref it with
  | None => Some (inr ())
  | Some cur =>
      if negb (Contains tree cur) then Some (inl (ConsistencyError cur))
      else
        match fuel with
        | 0 => None
        | S fuel =>
            it' ← SgUctTreeIterator.next tree it;
            CheckConsistency_loop fuel tree it'
        end
  end.

Definition CheckConsistency (fuel : nat) (tree : t) : option (SgException + ()) :=
  CheckConsistency_loop fuel tree SgUctTreeIterator.make.

End SgUctTree.

(** ** The parameter commands (GoUctCommands.cpp)

    Modelled from the spec: [GtpCommand] and [GtpFailure] belong to the
    GtpEngine library, [GoUctPlayer] and [GoUctSearch] to GoUctPlayer.h,
    GoUctSearch.h and SgUctSearch.h; none of them is part of the sources at
    hand. A command carries its arguments as strings. How an argument
    string is read as a number, a truth value or a floating point value is
    left to the parameters [IntOfString], [SizeTypeOfString],
    [BoolOfString] and [FloatOfString] of the section below ([None]: the
    string is not accepted), and [ToLower] is the lower-casing of
    [ArgToLower]. An accessor with a minimum ([IntArg(i, min)],
    [SizeTypeArg(i, min)]) throws when the value read is below the
    minimum. The player and the search are records of their parameters
    and each setter stores its argument. A thrown [GtpFailure] is the
    left summand of the result; the parameters are threaded through. *)

Module GoUctCommands.

Inductive GoUctLiveGfx : Type :=
| GOUCT_LIVEGFX_NONE | GOUCT_LIVEGFX_COUNTS | GOUCT_LIVEGFX_SEQUENCE.

Inductive SgUctMoveSelect : Type :=
| SG_UCTMOVESELECT_VALUE | SG_UCTMOVESELECT_COUNT
| SG_UCTMOVESELECT_BOUND | SG_UCTMOVESELECT_ESTIMATE.

Inductive GoUctGlobalSearchPrior : Type :=
| GOUCT_PRIORKNOWLEDGE_NONE | GOUCT_PRIORKNOWLEDGE_EVEN
| GOUCT_PRIORKNOWLEDGE_DEFAULT.

Inductive GoUctGlobalSearchMode : Type :=
| GOUCT_SEARCHMODE_PLAYOUTPOLICY | GOUCT_SEARCHMODE_UCT
| GOUCT_SEARCHMODE_ONEPLY.

Record GoUctPlayer : Type := mkPlayer {
  AutoParam : bool;
  EarlyPass : bool;
  IgnoreClock : bool;
  EnablePonder : bool;
  ReuseSubtree : bool;
  UseRootFilter : bool;
  MaxGames : N;
  MaxNodes : N;
  MaxTime : Q;
  PriorKnowledge : GoUctGlobalSearchPrior;
  ResignThreshold : Q;
  SearchMode : GoUctGlobalSearchMode
}.

Record GoUctSearch : Type := mkSearch {
  KeepGames : bool;
  LockFree : bool;
  LogGames : bool;
  NoBiasTerm : bool;
  Rave : bool;
  RaveCheckSame : bool;
  BiasTermConstant : Q;
  ExpandThreshold : N;
  FirstPlayUrgency : Q;
  LiveGfx : GoUctLiveGfx;
  LiveGfxInterval : Z;
  MoveSelect : SgUctMoveSelect;
  NumberThreads : N;
  NumberPlayouts : Z;
  RaveWeightFinal : Q;
  RaveWeightInitial : Q
}.

Definition SetAutoParam v p := mkPlayer v (EarlyPass p) (IgnoreClock p) (EnablePonder p) (ReuseSubtree p) (UseRootFilter p) (MaxGames p) (MaxNodes p) (MaxTime p) (PriorKnowledge p) (ResignThreshold p) (SearchMode p).
Definition SetEarlyPass v p := mkPlayer (AutoParam p) v (IgnoreClock p) (EnablePonder p) (ReuseSubtree p) (UseRootFilter p) (MaxGames p) (MaxNodes p) (MaxTime p) (PriorKnowledge p) (ResignThreshold p) (SearchMode p).
Definition SetIgnoreClock v p := mkPlayer (AutoParam p) (EarlyPass p) v (EnablePonder p) (ReuseSubtree p) (UseRootFilter p) (MaxGames p) (MaxNodes p) (MaxTime p) (PriorKnowledge p) (ResignThreshold p) (SearchMode p).
Definition SetEnablePonder v p := mkPlayer (AutoParam p) (EarlyPass p) (IgnoreClock p) v (ReuseSubtree p) (UseRootFilter p) (MaxGames p) (MaxNodes p) (MaxTime p) (PriorKnowledge p) (ResignThreshold p) (SearchMode p).
Definition SetReuseSubtree v p := mkPlayer (AutoParam p) (EarlyPass p) (IgnoreClock p) (EnablePonder p) v (UseRootFilter p) (MaxGames p) (MaxNodes p) (MaxTime p) (PriorKnowledge p) (ResignThreshold p) (SearchMode p).
Definition SetUseRootFilter v p := mkPlayer (AutoParam p) (EarlyPass p) (IgnoreClock p) (EnablePonder p) (ReuseSubtree p) v (MaxGames p) (MaxNodes p) (MaxTime p) (PriorKnowledge p) (ResignThreshold p) (SearchMode p).
Definition SetMaxGames v p := mkPlayer (AutoParam p) (EarlyPass p) (IgnoreClock p) (EnablePonder p) (ReuseSubtree p) (UseRootFilter p) v (MaxNodes p) (MaxTime p) (PriorKnowledge p) (ResignThreshold p) (SearchMode p).
Definition SetMaxNodes v p := mkPlayer (AutoParam p) (EarlyPass p) (IgnoreClock p) (EnablePonder p) (ReuseSubtree p) (UseRootFilter p) (MaxGames p) v (MaxTime p) (PriorKnowledge p) (ResignThreshold p) (SearchMode p).
Definition SetMaxTime v p := mkPlayer (AutoParam p) (EarlyPass p) (IgnoreClock p) (EnablePonder p) (ReuseSubtree p) (UseRootFilter p) (MaxGames p) (MaxNodes p) v (PriorKnowledge p) (ResignThreshold p) (SearchMode p).
Definition SetPriorKnowledge v p := mkPlayer (AutoParam p) (EarlyPass p) (IgnoreClock p) (EnablePonder p) (ReuseSubtree p) (UseRootFilter p) (MaxGames p) (MaxNodes p) (MaxTime p) v (ResignThreshold p) (SearchMode p).
Definition SetResignThreshold v p := mkPlayer (AutoParam p) (EarlyPass p) (IgnoreClock p) (EnablePonder p) (ReuseSubtree p) (UseRootFilter p) (MaxGames p) (MaxNodes p) (MaxTime p) (PriorKnowledge p) v (SearchMode p).
Definition SetSearchMode v p := mkPlayer (AutoParam p) (EarlyPass p) (IgnoreClock p) (EnablePonder p) (ReuseSubtree p) (UseRootFilter p) (MaxGames p) (MaxNodes p) (MaxTime p) (PriorKnowledge p) (ResignThreshold p) v.

Definition SetKeepGames v s := mkSearch v (LockFree s) (LogGames s) (NoBiasTerm s) (Rave s) (RaveCheckSame s) (BiasTermConstant s) (ExpandThreshold s) (FirstPlayUrgency s) (LiveGfx s) (LiveGfxInterval s) (MoveSelect s) (NumberThreads s) (NumberPlayouts s) (RaveWeightFinal s) (RaveWeightInitial s).
Definition SetLockFree v s := mkSearch (KeepGames s) v (LogGames s) (NoBiasTerm s) (Rave s) (RaveCheckSame s) (BiasTermConstant s) (ExpandThreshold s) (FirstPlayUrgency s) (LiveGfx s) (LiveGfxInterval s) (MoveSelect s) (NumberThreads s) (NumberPlayouts s) (RaveWeightFinal s) (RaveWeightInitial s).
Definition SetLogGames v s := mkSearch (KeepGames s) (LockFree s) v (NoBiasTerm s) (Rave s) (RaveCheckSame s) (BiasTermConstant s) (ExpandThreshold s) (FirstPlayUrgency s) (LiveGfx s) (LiveGfxInterval s) (MoveSelect s) (NumberThreads s) (NumberPlayouts s) (RaveWeightFinal s) (RaveWeightInitial s).
Definition SetNoBiasTerm v s := mkSearch (KeepGames s) (LockFree s) (LogGames s) v (Rave s) (RaveCheckSame s) (BiasTermConstant s) (ExpandThreshold s) (FirstPlayUrgency s) (LiveGfx s) (LiveGfxInterval s) (MoveSelect s) (NumberThreads s) (NumberPlayouts s) (RaveWeightFinal s) (RaveWeightInitial s).
Definition SetRave v s := mkSearch (KeepGames s) (LockFree s) (LogGames s) (NoBiasTerm s) v (RaveCheckSame s) (BiasTermConstant s) (ExpandThreshold s) (FirstPlayUrgency s) (LiveGfx s) (LiveGfxInterval s) (MoveSelect s) (NumberThreads s) (NumberPlayouts s) (RaveWeightFinal s) (RaveWeightInitial s).
Definition SetRaveCheckSame v s := mkSearch (KeepGames s) (LockFree s) (LogGames s) (NoBiasTerm s) (Rave s) v (BiasTermConstant s) (ExpandThreshold s) (FirstPlayUrgency s) (LiveGfx s) (LiveGfxInterval s) (MoveSelect s) (NumberThreads s) (NumberPlayouts s) (RaveWeightFinal s) (RaveWeightInitial s).
Definition SetBiasTermConstant v s := mkSearch (KeepGames s) (LockFree s) (LogGames s) (NoBiasTerm s) (Rave s) (RaveCheckSame s) v (ExpandThreshold s) (FirstPlayUrgency s) (LiveGfx s) (LiveGfxInterval s) (MoveSelect s) (NumberThreads s) (NumberPlayouts s) (RaveWeightFinal s) (RaveWeightInitial s).
Definition SetExpandThreshold v s := mkSearch (KeepGames s) (LockFree s) (LogGames s) (NoBiasTerm s) (Rave s) (RaveCheckSame s) (BiasTermConstant s) v (FirstPlayUrgency s) (LiveGfx s) (LiveGfxInterval s) (MoveSelect s) (NumberThreads s) (NumberPlayouts s) (RaveWeightFinal s) (RaveWeightInitial s).
Definition SetFirstPlayUrgency v s := mkSearch (KeepGames s) (LockFree s) (LogGames s) (NoBiasTerm s) (Rave s) (RaveCheckSame s) (BiasTermConstant s) (ExpandThreshold s) v (LiveGfx s) (LiveGfxInterval s) (MoveSelect s) (NumberThreads s) (NumberPlayouts s) (RaveWeightFinal s) (RaveWeightInitial s).
Definition SetLiveGfx v s := mkSearch (KeepGames s) (LockFree s) (LogGames s) (NoBiasTerm s) (Rave s) (RaveCheckSame s) (BiasTermConstant s) (ExpandThreshold s) (FirstPlayUrgency s) v (LiveGfxInterval s) (MoveSelect s) (NumberThreads s) (NumberPlayouts s) (RaveWeightFinal s) (RaveWeightInitial s).
Definition SetLiveGfxInterval v s := mkSearch (KeepGames s) (LockFree s) (LogGames s) (NoBiasTerm s) (Rave s) (RaveCheckSame s) (BiasTermConstant s) (ExpandThreshold s) (FirstPlayUrgency s) (LiveGfx s) v (MoveSelect s) (NumberThreads s) (NumberPlayouts s) (RaveWeightFinal s) (RaveWeightInitial s).
Definition SetMoveSelect v s := mkSearch (KeepGames s) (LockFree s) (LogGames s) (NoBiasTerm s) (Rave s) (RaveCheckSame s) (BiasTermConstant s) (ExpandThreshold s) (FirstPlayUrgency s) (LiveGfx s) (LiveGfxInterval s) v (NumberThreads s) (NumberPlayouts s) (RaveWeightFinal s) (RaveWeightInitial s).
Definition SetNumberThreads v s := mkSearch (KeepGames s) (LockFree s) (LogGames s) (NoBiasTerm s) (Rave s) (RaveCheckSame s) (BiasTermConstant s) (ExpandThreshold s) (FirstPlayUrgency s) (LiveGfx s) (LiveGfxInterval s) (MoveSelect s) v (NumberPlayouts s) (RaveWeightFinal s) (RaveWeightInitial s).
Definition SetNumberPlayouts v s := mkSearch (KeepGames s) (LockFree s) (LogGames s) (NoBiasTerm s) (Rave s) (RaveCheckSame s) (BiasTermConstant s) (ExpandThreshold s) (FirstPlayUrgency s) (LiveGfx s) (LiveGfxInterval s) (MoveSelect s) (NumberThreads s) v (RaveWeightFinal s) (RaveWeightInitial s).
Definition SetRaveWeightFinal v s := mkSearch (KeepGames s) (LockFree s) (LogGames s) (NoBiasTerm s) (Rave s) (RaveCheckSame s) (BiasTermConstant s) (ExpandThreshold s) (FirstPlayUrgency s) (LiveGfx s) (LiveGfxInterval s) (MoveSelect s) (NumberThreads s) (NumberPlayouts s) v (RaveWeightInitial s).
Definition SetRaveWeightInitial v s := mkSearch (KeepGames s) (LockFree s) (LogGames s) (NoBiasTerm s) (Rave s) (RaveCheckSame s) (BiasTermConstant s) (ExpandThreshold s) (FirstPlayUrgency s) (LiveGfx s) (LiveGfxInterval s) (MoveSelect s) (NumberThreads s) (NumberPlayouts s) (RaveWeightFinal s) v.

Record GtpCommand : Type := mkCommand { args : list string }.

(** The double quote that the failure messages put around an argument. *)
Definition DQUOTE : string := String (Ascii.ascii_of_nat 34) EmptyString.

Inductive GtpFailure : Type := Failure (message : string).

(** A value written to the response of a command. *)
Inductive Item : Type :=
| Text (s : string)
| OfBool (b : bool)
| OfSize (n : N)
| OfInt (z : Z)
| OfFloat (q : Q).

Definition Response : Type := list Item.

(** The outcome of evaluating an argument: a value or a thrown failure. *)
Definition Except (A : Type) : Type := GtpFailure + A.

Section Accessors.

Variable IntOfString : string → option Z.
Variable SizeTypeOfString : string → option N.
Variable BoolOfString : string → option bool.
Variable FloatOfString : string → option Q.
Variable ToLower : string → string.

Definition NuArg (cmd : GtpCommand) : nat := length (args cmd).

Definition Arg (number : nat) (cmd : GtpCommand) : Except string :=
  match args cmd !! number with
  | Some arg => inr arg
  | None => inl (Failure "missing argument")
  end.

Definition ArgToLower (number : nat) (cmd : GtpCommand) : Except string :=
  match Arg number cmd with
  | inr arg => inr (ToLower arg)
  | inl e => inl e
  end.

Definition read {A} (what : string) (of_string : string → option A)
    (number : nat) (cmd : GtpCommand) : Except A :=
  match Arg number cmd with
  | inr arg =>
      match of_string arg with
      | Some v => inr v
      | None => inl (Failure ("argument must be " +:+ what))
      end
  | inl e => inl e
  end.

Definition BoolArg := read "a bool" BoolOfString.
Definition FloatArg := read "a float" FloatOfString.

Definition IntArg (number : nat) (min : Z) (cmd : GtpCommand) : Except Z :=
  match read "a number" IntOfString number cmd with
  | inr result =>
      if decide (result < min)%Z
      then inl (Failure "argument must be greater or equal the minimum")
      else inr result
  | inl e => inl e
  end.

Definition SizeTypeArg (number : nat) (min : N) (cmd : GtpCommand) : Except N :=
  match read "a number" SizeTypeOfString number cmd with
  | inr result =>
      if decide (result < min)%N
      then inl (Failure "argument must be greater or equal the minimum")
      else inr result
  | inl e => inl e
  end.

Definition LiveGfxArg (cmd : GtpCommand) (number : nat) : Except GoUctLiveGfx :=
  match ArgToLower number cmd with
  | inr arg =>
      if decide (arg = "none") then inr GOUCT_LIVEGFX_NONE
      else if decide (arg = "counts") then inr GOUCT_LIVEGFX_COUNTS
      else if decide (arg = "sequence") then inr GOUCT_LIVEGFX_SEQUENCE
      else inl (Failure ("unknown live-gfx argument " +:+ DQUOTE +:+ arg
                         +:+ DQUOTE))
  | inl e => inl e
  end.

Definition MoveSelectArg (cmd : GtpCommand) (number : nat) : Except SgUctMoveSelect :=
  match ArgToLower number cmd with
  | inr arg =>
      if decide (arg = "value") then inr SG_UCTMOVESELECT_VALUE
      else if decide (arg = "count") then inr SG_UCTMOVESELECT_COUNT
      else if decide (arg = "bound") then inr SG_UCTMOVESELECT_BOUND
      else if decide (arg = "estimate") then inr SG_UCTMOVESELECT_ESTIMATE
      else inl (Failure ("unknown move select argument " +:+ DQUOTE +:+ arg
                         +:+ DQUOTE))
  | inl e => inl e
  end.

Definition PriorKnowledgeArg (cmd : GtpCommand) (number : nat)
  : Except GoUctGlobalSearchPrior :=
  match ArgToLower number cmd with
  | inr arg =>
      if decide (arg = "none") then inr GOUCT_PRIORKNOWLEDGE_NONE
      else if decide (arg = "even") then inr GOUCT_PRIORKNOWLEDGE_EVEN
      else if decide (arg = "default") then inr GOUCT_PRIORKNOWLEDGE_DEFAULT
      else inl (Failure ("unknown prior knowledge argument " +:+ DQUOTE +:+ arg
                         +:+ DQUOTE))
  | inl e => inl e
  end.

Definition SearchModeArg (cmd : GtpCommand) (number : nat)
  : Except GoUctGlobalSearchMode :=
  match ArgToLower number cmd with
  | inr arg =>
      if decide (arg = "playout_policy") then inr GOUCT_SEARCHMODE_PLAYOUTPOLICY
      else if decide (arg = "uct") then inr GOUCT_SEARCHMODE_UCT
      else if decide (arg = "one_ply") then inr GOUCT_SEARCHMODE_ONEPLY
      else inl (Failure ("unknown search mode argument " +:+ DQUOTE +:+ arg
                         +:+ DQUOTE))
  | inl e => inl e
  end.

Definition LiveGfxToString (mode : GoUctLiveGfx) : string :=
  match mode with
  | GOUCT_LIVEGFX_NONE => "none"
  | GOUCT_LIVEGFX_COUNTS => "counts"
  | GOUCT_LIVEGFX_SEQUENCE => "sequence"
  end.

Definition MoveSelectToString (moveSelect : SgUctMoveSelect) : string :=
  match moveSelect with
  | SG_UCTMOVESELECT_VALUE => "value"
  | SG_UCTMOVESELECT_COUNT => "count"
  | SG_UCTMOVESELECT_BOUND => "bound"
  | SG_UCTMOVESELECT_ESTIMATE => "estimate"
  end.

Definition PriorKnowledgeToString (prior : GoUctGlobalSearchPrior) : string :=
  match prior with
  | GOUCT_PRIORKNOWLEDGE_NONE => "none"
  | GOUCT_PRIORKNOWLEDGE_EVEN => "even"
  | GOUCT_PRIORKNOWLEDGE_DEFAULT => "default"
  end.

Definition SearchModeToString (mode : GoUctGlobalSearchMode) : string :=
  match mode with
  | GOUCT_SEARCHMODE_PLAYOUTPOLICY => "playout_policy"
  | GOUCT_SEARCHMODE_UCT => "uct"
  | GOUCT_SEARCHMODE_ONEPLY => "one_ply"
  end.

(** [obj.SetX(arg)]: the argument is evaluated first; if that throws,
    the setter is not called. *)
Definition set {A S} (arg : Except A) (setter : A → S → S) (obj : S)
  : Except Response * S :=
  match arg with
  | inr v => (inr [], setter v obj)
  | inl e => (inl e, obj)
  end.

(** [GoUctCommands::CmdParamPlayer] *)
Definition CmdParamPlayer (cmd : GtpCommand) (p : GoUctPlayer)
  : Except Response * GoUctPlayer :=
  if decide (2 < NuArg cmd) then (inl (Failure "too many arguments"), p)
  else if decide (NuArg cmd = 0) then
    (inr [Text "[bool] auto_param "; OfBool (AutoParam p);
          Text "[bool] early_pass "; OfBool (EarlyPass p);
          Text "[bool] ignore_clock "; OfBool (IgnoreClock p);
          Text "[bool] ponder "; OfBool (EnablePonder p);
          Text "[bool] reuse_subtree "; OfBool (ReuseSubtree p);
          Text "[bool] use_root_filter "; OfBool (UseRootFilter p);
          Text "[string] max_games "; OfSize (MaxGames p);
          Text "[string] max_nodes "; OfSize (MaxNodes p);
          Text "[string] max_time "; OfFloat (MaxTime p);
          Text "[list/none/even/default] prior_knowledge ";
          Text (PriorKnowledgeToString (PriorKnowledge p));
          Text "[string] resign_threshold "; OfFloat (ResignThreshold p);
          Text "[list/playout_policy/uct/one_ply] search_mode ";
          Text (SearchModeToString (SearchMode p))], p)
  else if decide (1 ≤ NuArg cmd ∧ NuArg cmd ≤ 2) then
    match Arg 0 cmd with
    | inl e => (inl e, p)
    | inr name =>
        if decide (name = "auto_param") then set (BoolArg 1 cmd) SetAutoParam p
        else if decide (name = "early_pass") then set (BoolArg 1 cmd) SetEarlyPass p
        else if decide (name = "ignore_clock") then set (BoolArg 1 cmd) SetIgnoreClock p
        else if decide (name = "ponder") then set (BoolArg 1 cmd) SetEnablePonder p
        else if decide (name = "reuse_subtree") then set (BoolArg 1 cmd) SetReuseSubtree p
        else if decide (name = "use_root_filter") then set (BoolArg 1 cmd) SetUseRootFilter p
        else if decide (name = "max_games") then set (SizeTypeArg 1 1 cmd) SetMaxGames p
        else if decide (name = "max_nodes") then set (SizeTypeArg 1 1 cmd) SetMaxNodes p
        else if decide (name = "max_time") then set (FloatArg 1 cmd) SetMaxTime p
        else if decide (name = "prior_knowledge") then set (PriorKnowledgeArg cmd 1) SetPriorKnowledge p
        else if decide (name = "resign_threshold") then set (FloatArg 1 cmd) SetResignThreshold p
        else if decide (name = "search_mode") then set (SearchModeArg cmd 1) SetSearchMode p
        else (inl (Failure ("unknown parameter: " +:+ name)), p)
    end
  else (inl (Failure "need 0 or 2 arguments"), p).

(** [GoUctCommands::CmdParamSearch] *)
Definition CmdParamSearch (cmd : GtpCommand) (s : GoUctSearch)
  : Except Response * GoUctSearch :=
  if decide (2 < NuArg cmd) then (inl (Failure "too many arguments"), s)
  else if decide (NuArg cmd = 0) then
    (inr [Text "[bool] keep_games "; OfBool (KeepGames s);
          Text "[bool] lock_free "; OfBool (LockFree s);
          Text "[bool] log_games "; OfBool (LogGames s);
          Text "[bool] no_bias_term "; OfBool (NoBiasTerm s);
          Text "[bool] rave "; OfBool (Rave s);
          Text "[bool] rave_check_same "; OfBool (RaveCheckSame s);
          Text "[string] bias_term_constant "; OfFloat (BiasTermConstant s);
          Text "[string] expand_threshold "; OfSize (ExpandThreshold s);
          Text "[string] first_play_urgency "; OfFloat (FirstPlayUrgency s);
          Text "[list/none/counts/sequence] live_gfx ";
          Text (LiveGfxToString (LiveGfx s));
          Text "[string] live_gfx_interval "; OfInt (LiveGfxInterval s);
          Text "[list/value/count/bound/estimate] move_select ";
          Text (MoveSelectToString (MoveSelect s));
          Text "[string] number_threads "; OfSize (NumberThreads s);
          Text "[string] number_playouts "; OfInt (NumberPlayouts s);
          Text "[string] rave_weight_final "; OfFloat (RaveWeightFinal s);
          Text "[string] rave_weight_initial "; OfFloat (RaveWeightInitial s)], s)
  else if decide (NuArg cmd = 2) then
    match Arg 0 cmd with
    | inl e => (inl e, s)
    | inr name =>
        if decide (name = "keep_games") then set (BoolArg 1 cmd) SetKeepGames s
        else if decide (name = "lock_free") then set (BoolArg 1 cmd) SetLockFree s
        else if decide (name = "log_games") then set (BoolArg 1 cmd) SetLogGames s
        else if decide (name = "no_bias_term") then set (BoolArg 1 cmd) SetNoBiasTerm s
        else if decide (name = "rave") then set (BoolArg 1 cmd) SetRave s
        else if decide (name = "rave_check_same") then set (BoolArg 1 cmd) SetRaveCheckSame s
        else if decide (name = "bias_term_constant") then set (FloatArg 1 cmd) SetBiasTermConstant s
        else if decide (name = "expand_threshold") then set (SizeTypeArg 1 1 cmd) SetExpandThreshold s
        else if decide (name = "first_play_urgency") then set (FloatArg 1 cmd) SetFirstPlayUrgency s
        else if decide (name = "live_gfx") then set (LiveGfxArg cmd 1) SetLiveGfx s
        else if decide (name = "live_gfx_interval") then set (IntArg 1 1 cmd) SetLiveGfxInterval s
        else if decide (name = "move_select") then set (MoveSelectArg cmd 1) SetMoveSelect s
        else if decide (name = "number_threads") then set (SizeTypeArg 1 1 cmd) SetNumberThreads s
        else if decide (name = "number_playouts") then set (IntArg 1 1 cmd) SetNumberPlayouts s
        else if decide (name = "rave_weight_final") then set (FloatArg 1 cmd) SetRaveWeightFinal s
        else if decide (name = "rave_weight_initial") then set (FloatArg 1 cmd) SetRaveWeightInitial s
        else (inl (Failure ("unknown parameter: " +:+ name)), s)
    end
  else (inl (Failure "need 0 or 2 arguments"), s).

End Accessors.

(** The keys the two commands recognise. *)
Definition player_keys : list string :=
  ["auto_param"; "early_pass"; "ignore_clock"; "ponder"; "reuse_subtree";
   "use_root_filter"; "max_games"; "max_nodes"; "max_time";
   "prior_knowledge"; "resign_threshold"; "search_mode"].

Definition search_keys : list string :=
  ["keep_games"; "lock_free"; "log_games"; "no_bias_term"; "rave";
   "rave_check_same"; "bias_term_constant"; "expand_threshold";
   "first_play_urgency"; "live_gfx"; "live_gfx_interval"; "move_select";
   "number_threads"; "number_playouts"; "rave_weight_final";
   "rave_weight_initial"].

End GoUctCommands.

(** ** SgStatistics<VALUE,COUNT> (SgStatistics.h)

    The class derives from [SgStatisticsBase] and adds the variance. As for
    the base class, [VALUE] is instantiated with exact rationals and
    [COUNT] with [std::size_t]. [Deviation] takes a square root and is not
    part of the model. *)

Module SgStatistics.

Record t : Type := mk { base : SgStatisticsBase.t; m_variance : Q }.

Definition Clear : t :=
  {| base := SgStatisticsBase.Clear; m_variance := 0 |}.

(** [SgStatistics(VALUE val, COUNT count)] *)
Definition make (val : Q) (count : Z) : t :=
  {| base := SgStatisticsBase.Initialize val count; m_variance := 0 |}.

Definition Count (s : t) : Z := SgStatisticsBase.Count (base s).
Definition Mean (s : t) : Q := SgStatisticsBase.Mean (base s).
Definition Variance (s : t) : Q := m_variance s.

(** [Add] passes [val] to the base class by value, so the variance is
    updated with the value as it was given. *)
Definition Add (val : Q) (s : t) : option t :=
  let countOld := Count s in
  if decide (0 < countOld)%Z then
    let meanOld := Mean s in
    b ← SgStatisticsBase.Add val (base s);
    let mean := SgStatisticsBase.Mean b in
    let count := SgStatisticsBase.Count b in
    Some {| base := b;
            m_variance :=
              ((inject_Z countOld * (m_variance s + meanOld * meanOld)
                + val * val) / inject_Z count - mean * mean)%Q |}
  else
    b ← SgStatisticsBase.Add val (base s);
    Some {| base := b; m_variance := 0 |}.

(** A sequence of [Add] calls on one object. *)
Fixpoint AddAll (vals : list Q) (s : t) : option t :=
  match vals with
  | [] => Some s
  | val :: vals => s' ← Add val s; AddAll vals s'
  end.

End SgStatistics.

(** ** SgStatisticsExt<VALUE,COUNT> (SgStatistics.h)

    Adds the extreme values. [VALUE_MAX] is
    [std::numeric_limits<VALUE>::max()]. *)

Module SgStatisticsExt.

Record t : Type := mk { stat : SgStatistics.t; m_max : Q; m_min : Q }.

Definition Clear (VALUE_MAX : Q) : t :=
  {| stat := SgStatistics.Clear;
     m_max := (- VALUE_MAX)%Q;
     m_min := VALUE_MAX |}.

Definition Add (val : Q) (s : t) : option t :=
  st ← SgStatistics.Add val (stat s);
  let m_max' := if Qlt_le_dec (m_max s) val then val else m_max s in
  let m_min' := if Qlt_le_dec val (m_min s) then val else m_min s in
  Some {| stat := st; m_max := m_max'; m_min := m_min' |}.

Definition Max (s : t) : Q := m_max s.
Definition Min (s : t) : Q := m_min s.

Fixpoint AddAll (vals : list Q) (s : t) : option t :=
  match vals with
  | [] => Some s
  | val :: vals => s' ← Add val s; AddAll vals s'
  end.

End SgStatisticsExt.

(** ** SgStatisticsCollection<VALUE,COUNT> (SgStatistics.h)

    A [std::map] from names to [SgStatistics] objects. [Get] throws an
    [SgException] for a name that is not in the map. The member functions
    [Add] and [Write] are not modelled: as they are written they hand a
    statistics object to [SgStatistics::Add(VALUE)] and stream the result
    of a [void] function, so they have no instance. *)

Module SgStatisticsCollection.

Definition t : Type := gmap string SgStatistics.t.

Inductive SgException : Type := Exception (what : string).

Definition Clear (c : t) : t := (λ _, SgStatistics.Clear) <$> c.

Definition Contains (name : string) (c : t) : bool :=
  bool_decide (is_Some (c !! name)).

Definition Create (name : string) (c : t) : t :=
  <[name := SgStatistics.Clear]> c.

Definition Get (name : string) (c : t) : SgException + SgStatistics.t :=
  match c !! name with
  | Some s => inr s
  | None => inl (Exception ("Unknown statistics name " +:+ name +:+ "."))
  end.

End SgStatisticsCollection.

(** ** SgHistogram<VALUE,COUNT> (SgStatistics.h)

    [VALUE] is instantiated with exact rationals, [COUNT] with
    [std::size_t]; the number of bins is an [int]. The bin size and the
    quotient that selects a bin are exact here; with a floating-point
    [VALUE] both are rounded, and a value at the border of two bins can
    be counted in the lower one. *)

Module SgHistogram.

Definition INT_MIN : Z := (- 2 ^ 31)%Z.
Definition INT_MAX : Z := (2 ^ 31 - 1)%Z.

(** [static_cast<int>(x)]: the value truncated towards zero; the
    conversion has no value when the result is not an [int]. *)
Definition to_int (x : Q) : option Z :=
  let i := (Qnum x ÷ Zpos (Qden x))%Z in
  if decide (INT_MIN ≤ i ≤ INT_MAX)%Z then Some i else None.

Record t : Type := mk {
  m_bins : Z;
  m_count : Z;
  m_binSize : Q;
  m_min : Q;
  m_max : Q;
  m_array : list Z
}.

Definition Clear (h : t) : t :=
  {| m_bins := m_bins h;
     m_count := 0;
     m_binSize := m_binSize h;
     m_min := m_min h;
     m_max := m_max h;
     m_array := (λ _, 0%Z) <$> m_array h |}.

(** [Init]: [m_array.resize(bins)] throws for a negative number of bins.
    The quotient that defines the bin size is the one of the rationals;
    with no bins it is 0 here (see [Add]). *)
Definition Init (min max : Q) (bins : Z) (h : t) : option t :=
  if decide (bins < 0)%Z then None
  else
    Some (Clear {| m_bins := bins;
                   m_count := m_count h;
                   m_binSize := ((max - min) / inject_Z bins)%Q;
                   m_min := min;
                   m_max := max;
                   m_array := resize (Z.to_nat bins) 0%Z (m_array h) |}).

(** An object before its constructor has called [Init]. *)
Definition empty : t :=
  {| m_bins := 0; m_count := 0; m_binSize := 0; m_min := 0; m_max := 0;
     m_array := [] |}.

(** [SgHistogram(min, max, bins)] and [SgHistogram()] *)
Definition make (min max : Q) (bins : Z) : option t := Init min max bins empty.
Definition make_default : option t := Init 0 1 1 empty.

(** [Add]. With a bin size of zero (no bins, or [max = min]) the quotient
    is infinite or undefined and its conversion to [int] has no value.
    The index is clamped to the first and the last bin; the counters wrap
    around as [COUNT] does. *)
Definition Add (value : Q) (h : t) : option t :=
  let count := ((m_count h + 1) mod SgStatisticsBase.COUNT_MODULUS)%Z in
  if Qeq_dec (m_binSize h) 0 then None
  else
    i ← to_int ((value - m_min h) / m_binSize h)%Q;
    let i := if decide (i < 0)%Z then 0%Z else i in
    let i := if decide (m_bins h ≤ i)%Z then (m_bins h - 1)%Z else i in
    if decide (0 ≤ i)%Z then
      c ← m_array h !! Z.to_nat i;
      Some {| m_bins := m_bins h;
              m_count := count;
              m_binSize := m_binSize h;
              m_min := m_min h;
              m_max := m_max h;
              m_array :=
                <[Z.to_nat i := ((c + 1) mod SgStatisticsBase.COUNT_MODULUS)%Z]>
                  (m_array h) |}
    else None.

Definition Bins (h : t) : Z := m_bins h.
Definition Count (h : t) : Z := m_count h.

(** [Count(i)] asserts that [i] is the index of a bin. *)
Definition CountAt (i : Z) (h : t) : option Z :=
  if decide (0 ≤ i < m_bins h)%Z then m_array h !! Z.to_nat i else None.

Fixpoint AddAll (values : list Q) (h : t) : option t :=
  match values with
  | [] => Some h
  | value :: values => h' ← Add value h; AddAll values h'
  end.

End SgHistogram.

(** ** SgProbCut (SgProbCut.h)

    Modelled from the spec: [SgArray<T,SIZE>] is declared in SgArray.h,
    which is not part of the sources at hand; it is a fixed-size array
    whose index operator is defined for the indices 0 .. SIZE-1. The
    floating point fields of a cutoff are exact rationals. A
    default-constructed cutoff has [shallow] and [deep] set to -1; its
    other fields are not initialised (0 in the model; no cutoff that has
    not been added is ever handed out for an index that is in range). *)

Module SgProbCut.

Definition MAX_PROBCUT : Z := 20.

Record Cutoff : Type := mkCutoff {
  a : Q; b : Q; sigma : Q; shallow : Z; deep : Z
}.

Definition Cutoff_default : Cutoff := mkCutoff 0 0 0 (-1) (-1).

Record t : Type := mk {
  m_threshold : Q;
  m_enabled : bool;
  m_cutoffs : list (list Cutoff);
  m_cutoff_sizes : list Z
}.

(** [SgArray::operator[]] for reading and for writing. *)
Definition at_ {A} (arr : list A) (i : Z) : option A :=
  if decide (0 ≤ i)%Z then arr !! Z.to_nat i else None.

Definition set_at {A} (arr : list A) (i : Z) (x : A) : option (list A) :=
  if decide (0 ≤ i < Z.of_nat (length arr))%Z
  then Some (<[Z.to_nat i := x]> arr) else None.

(** [SgProbCut::SgProbCut()] *)
Definition make : t :=
  {| m_threshold := 1;
     m_enabled := false;
     m_cutoffs :=
       replicate (Z.to_nat (MAX_PROBCUT + 1))
         (replicate (Z.to_nat (MAX_PROBCUT + 1)) Cutoff_default);
     m_cutoff_sizes := replicate (Z.to_nat (MAX_PROBCUT + 1)) 0%Z |}.

Definition AddCutoff (c : Cutoff) (p : t) : option t :=
  i ← at_ (m_cutoff_sizes p) (deep c);
  row ← at_ (m_cutoffs p) (deep c);
  row' ← set_at row i c;
  cutoffs' ← set_at (m_cutoffs p) (deep c) row';
  sizes' ← set_at (m_cutoff_sizes p) (deep c) (i + 1)%Z;
  Some {| m_threshold := m_threshold p;
          m_enabled := m_enabled p;
          m_cutoffs := cutoffs';
          m_cutoff_sizes := sizes' |}.

(** [GetCutoff(deep, index, cutoff)]: the result and the value of the
    reference parameter [cutoff] after the call. *)
Definition GetCutoff (deep index : Z) (cutoff : Cutoff) (p : t)
  : option (bool * Cutoff) :=
  if decide (MAX_PROBCUT < deep)%Z then Some (false, cutoff)
  else
    size ← at_ (m_cutoff_sizes p) deep;
    if decide (size ≤ index)%Z then Some (false, cutoff)
    else
      row ← at_ (m_cutoffs p) deep;
      c ← at_ row index;
      Some (true, c).

Definition SetThreshold (t' : Q) (p : t) : t :=
  {| m_threshold := t';
     m_enabled := m_enabled p;
     m_cutoffs := m_cutoffs p;
     m_cutoff_sizes := m_cutoff_sizes p |}.

Definition GetThreshold (p : t) : Q := m_threshold p.

Definition SetEnabled (flag : bool) (p : t) : t :=
  {| m_threshold := m_threshold p;
     m_enabled := flag;
     m_cutoffs := m_cutoffs p;
     m_cutoff_sizes := m_cutoff_sizes p |}.

Definition IsEnabled (p : t) : bool := m_enabled p.

Fixpoint AddAll (cs : list Cutoff) (p : t) : option t :=
  match cs with
  | [] => Some p
  | c :: cs => p' ← AddCutoff c p; AddAll cs p'
  end.

End SgProbCut.

(** ** Vocabulary of the statements *)

Import SgUctTree.

(** The child block of a node lies inside one allocator of the tree. *)
Definition block_ok (tree : SgUctTree.t) (n : SgUctNode.t) : Prop :=
  if SgUctNode.HasChildren n then
    match SgUctNode.FirstChild n with
    | Some first =>
        match Allocator (ptr_alloc first) tree with
        | Some a =>
            ptr_index first + SgUctNode.NuChildren n
              ≤ length (SgUctAllocator.m_nodes a)
        | None => False
        end
    | None => False
    end
  else True.

Global Instance block_ok_dec tree n : Decision (block_ok tree n).
Proof.
  unfold block_ok. destruct (SgUctNode.HasChildren n); [|apply _].
  destruct (SgUctNode.FirstChild n) as [first|]; [|apply _].
  destruct (Allocator (ptr_alloc first) tree); apply _.
Defined.

(** The structural invariants of a tree: every node's child block is a
    range of existing nodes, and no allocator exceeds its capacity. *)
Definition Valid (tree : SgUctTree.t) : Prop :=
  block_ok tree (m_root tree) ∧
  Forall (λ a, length (SgUctAllocator.m_nodes a) ≤ SgUctAllocator.m_capacity a
               ∧ Forall (block_ok tree) (SgUctAllocator.m_nodes a))
         (m_allocators tree).

Global Instance Valid_dec tree : Decision (Valid tree).
Proof. unfold Valid. apply _. Defined.

(** [Child tree r x]: [x] is one of the children of the node at [r]. *)
Definition Child (tree : SgUctTree.t) (r x : NodeRef) : Prop :=
  ∃ n its it,
    node_at tree r = Some n ∧ SgUctNode.ChildPtrs n = Some its ∧
    it ∈ its ∧ x = AllocRef it.

(** The nodes below a node, and the nodes reachable from it. *)
Definition Descendant (tree : SgUctTree.t) : NodeRef → NodeRef → Prop :=
  tc (Child tree).
Definition Reachable (tree : SgUctTree.t) : NodeRef → NodeRef → Prop :=
  rtc (Child tree).

(** The subtree below a reference, unfolded along the child links; every
    node is recorded with the reference it was read at. [fuel] bounds the
    depth. *)
Inductive RTree : Type :=
| RNode (r : NodeRef) (n : SgUctNode.t) (children : list RTree).

Fixpoint unfold (fuel : nat) (tree : SgUctTree.t) (r : NodeRef) : option RTree :=
  match fuel with
  | 0 => None
  | S fuel =>
      n ← node_at tree r;
      its ← SgUctNode.ChildPtrs n;
      children ← mapM (λ it, unfold fuel tree (AllocRef it)) its;
      Some (RNode r n children)
  end.

(** The references of an unfolded subtree, in preorder. *)
Fixpoint refs (T : RTree) : list NodeRef :=
  match T with
  | RNode r _ children => r :: mjoin (refs <$> children)
  end.

(** What CopyDataFrom transfers: the move and the statistics. *)
Record NodeData : Type := mkData {
  data_move : SgMove;
  data_posCount : Z;
  data_moveValue : SgStatisticsBase.t;
  data_raveValue : SgStatisticsBase.t
}.

Definition data (n : SgUctNode.t) : NodeData :=
  {| data_move := SgUctNode.m_move n;
     data_posCount := SgUctNode.m_posCount n;
     data_moveValue := SgUctNode.m_moveValue n;
     data_raveValue := SgUctNode.m_raveValue n |}.

(** A subtree up to the addresses of its nodes: the data of every node and
    the shape of the child structure. *)
Inductive Shape : Type :=
| SNode (d : NodeData) (children : list Shape).

Fixpoint shape (T : RTree) : Shape :=
  match T with
  | RNode _ n children => SNode (data n) (shape <$> children)
  end.

(** CopySubtree clears its in-out flag [warnTruncate] exactly where it
    truncates. An extraction that is started with the flag set therefore
    ends with the flag still set if and only if the copy was truncated at
    no node. *)
Definition Untruncated (fuel : nat) (env : Env) (src target : SgUctTree.t)
    (node : NodeRef) (maxTime : Q) : Prop :=
  warnTruncate <$> ExtractSubtree fuel env src target node true maxTime
  = Some true.

(** The sizes and the capacities of the allocators of a tree. *)
Definition sizes (tree : SgUctTree.t) : list nat :=
  (λ a, length (SgUctAllocator.m_nodes a)) <$> m_allocators tree.
Definition capacities (tree : SgUctTree.t) : list nat :=
  SgUctAllocator.m_capacity <$> m_allocators tree.

(** [Pushed allocatorId ns tree tree']: [tree'] is [tree] with the nodes
    [ns] appended to the allocator [allocatorId], within its capacity. *)
Definition Pushed (allocatorId : nat) (ns : list SgUctNode.t)
    (tree tree' : SgUctTree.t) : Prop :=
  ∃ s c,
    sizes tree !! allocatorId = Some s ∧
    capacities tree !! allocatorId = Some c ∧
    (ns ≠ [] → s + length ns ≤ c) ∧
    sizes tree' = <[allocatorId := s + length ns]> (sizes tree) ∧
    capacities tree' = capacities tree ∧
    m_maxNodes tree' = m_maxNodes tree ∧
    ∀ r, node_at tree' r =
         match r with
         | RootRef => node_at tree r
         | AllocRef p =>
             if decide (ptr_alloc p = allocatorId ∧ s ≤ ptr_index p)
             then ns !! (ptr_index p - s)
             else node_at tree r
         end.

(** What a reader relies on at a node [n] of a tree: if the node has
    children, its first child is the address of a node of the tree. *)
Definition first_child_safe (tree : SgUctTree.t) (n : SgUctNode.t) : Prop :=
  SgUctNode.HasChildren n = true →
  ∃ first, SgUctNode.FirstChild n = Some first
           ∧ is_Some (node_at tree (AllocRef first)).

(** A reader of the node at [node] while the tree passes through the
    states [states]: it observes [m_nuChildren > 0] in some state, reads
    [m_firstChild] in that state or a later one, and dereferences it then
    or later. The reader is safe if what it dereferences is the address of
    a node of the tree in the state in which it is dereferenced. *)
Definition reader_safe (node : NodeRef) (states : list SgUctTree.t) : Prop :=
  ∀ i j k tree_i tree_j tree_k n_i n_j,
    i ≤ j → j ≤ k →
    states !! i = Some tree_i → states !! j = Some tree_j →
    states !! k = Some tree_k →
    node_at tree_i node = Some n_i → node_at tree_j node = Some n_j →
    SgUctNode.HasChildren n_i = true →
    ∃ first, SgUctNode.FirstChild n_j = Some first
             ∧ is_Some (node_at tree_k (AllocRef first)).

(** The two stores that publish a child block at a node [n]: the states
    are the tree before the call and after the loop, in both of which the
    node is as it was, the tree after [m_firstChild] has been set to
    [first], and the tree after [m_nuChildren] has been set to [k]. *)
Definition published_in_order (node : NodeRef) (n : SgUctNode.t)
    (first : NodePtr) (k : nat) (states : list SgUctTree.t) : Prop :=
  ∃ tree tree1 tree2 tree3,
    states = [tree; tree1; tree2; tree3] ∧
    node_at tree node = Some n ∧ node_at tree1 node = Some n ∧
    node_at tree2 node = Some (SgUctNode.SetFirstChild (Some first) n) ∧
    node_at tree3 node
    = Some (SgUctNode.SetNuChildren k (SgUctNode.SetFirstChild (Some first) n)).

(** The precondition ApplyFilter and CreateChildren assert: the allocator
    exists and has room for [k] more nodes. *)
Definition HasRoom (allocatorId : nat) (k : nat) (tree : SgUctTree.t) : Prop :=
  ∃ a, Allocator allocatorId tree = Some a
       ∧ SgUctAllocator.HasCapacity k a = true.

Definition example_tree : SgUctTree.t :=
  SetMaxNodes 10 (CreateAllocators 2 make).

Definition surviving (rootFilter : list SgMove) (cs : list SgUctNode.t)
  : list SgUctNode.t :=
  filter (λ c, SgUctNode.Move c ∉ rootFilter) cs.

Definition filter_example_child : SgUctNode.t :=
  {| SgUctNode.m_moveValue := SgStatisticsBase.Initialize (3 # 5) 5;
     SgUctNode.m_raveValue := SgStatisticsBase.Initialize (1 # 2) 2;
     SgUctNode.m_posCount := 5;
     SgUctNode.m_move := 2%Z;
     SgUctNode.m_firstChild := Some (mkPtr 1 0);
     SgUctNode.m_nuChildren := 1 |}.

Definition filter_example : SgUctTree.t :=
  {| m_maxNodes := 10;
     m_root :=
       SgUctNode.SetNuChildren 2
         (SgUctNode.SetFirstChild (Some (mkPtr 0 0)) (SgUctNode.make SG_NULLMOVE));
     m_allocators :=
       [ {| SgUctAllocator.m_nodes := [SgUctNode.make 1%Z; filter_example_child];
            SgUctAllocator.m_capacity := 5 |};
         {| SgUctAllocator.m_nodes := [SgUctNode.make 7%Z];
            SgUctAllocator.m_capacity := 5 |} ] |}.

Definition filter_example_once : SgUctTree.t :=
  default filter_example (ApplyFilter 1 RootRef [1%Z] filter_example).

(** A setting the player command must reject: a budget below 1, an
    unknown key, or an unknown value of an enumeration. *)
Definition player_rejects (SizeTypeOfString : string → option N)
    (ToLower : string → string) (name arg : string) : Prop :=
  (name ∈ ["max_games"; "max_nodes"]
   ∧ ∀ v, SizeTypeOfString arg = Some v → (v < 1)%N)
  ∨ name ∉ GoUctCommands.player_keys
  ∨ (name = "prior_knowledge" ∧ ToLower arg ∉ ["none"; "even"; "default"])
  ∨ (name = "search_mode" ∧ ToLower arg ∉ ["playout_policy"; "uct"; "one_ply"]).

(** A setting the search command must reject. *)
Definition search_rejects (IntOfString : string → option Z)
    (SizeTypeOfString : string → option N)
    (ToLower : string → string) (name arg : string) : Prop :=
  (name ∈ ["expand_threshold"; "number_threads"]
   ∧ ∀ v, SizeTypeOfString arg = Some v → (v < 1)%N)
  ∨ (name ∈ ["number_playouts"; "live_gfx_interval"]
     ∧ ∀ v, IntOfString arg = Some v → (v < 1)%Z)
  ∨ name ∉ GoUctCommands.search_keys
  ∨ (name = "live_gfx" ∧ ToLower arg ∉ ["none"; "counts"; "sequence"])
  ∨ (name = "move_select"
     ∧ ToLower arg ∉ ["value"; "count"; "bound"; "estimate"]).

(** Decimal readers for the arguments of a command, used in examples. *)
Definition decimal_int (s : string) : option Z :=
  Z.of_int <$> NilZero.int_of_string s.
Definition decimal_size (s : string) : option N :=
  N.of_uint <$> NilZero.uint_of_string s.
Definition decimal_float (s : string) : option Q :=
  inject_Z <$> decimal_int s.
Definition zero_one (s : string) : option bool :=
  if decide (s = "0") then Some false
  else if decide (s = "1") then Some true else None.

Definition example_player : GoUctCommands.GoUctPlayer :=
  GoUctCommands.mkPlayer false true false false true true 100000 5000000 10
    GoUctCommands.GOUCT_PRIORKNOWLEDGE_DEFAULT (1 # 10)
    GoUctCommands.GOUCT_SEARCHMODE_UCT.

Definition example_search : GoUctCommands.GoUctSearch :=
  GoUctCommands.mkSearch false true false false true false (7 # 10) 1 1
    GoUctCommands.GOUCT_LIVEGFX_NONE 5000
    GoUctCommands.SG_UCTMOVESELECT_COUNT 1 1 5000 1.

(** [Rewritten r f tree tree']: [tree'] is [tree] with [f] applied to the
    node at [r]. *)
Definition Rewritten (r : NodeRef) (f : SgUctNode.t → SgUctNode.t)
    (tree tree' : SgUctTree.t) : Prop :=
  sizes tree' = sizes tree ∧ capacities tree' = capacities tree ∧
  m_maxNodes tree' = m_maxNodes tree ∧
  ∀ r', node_at tree' r' =
        if decide (r' = r) then f <$> node_at tree r' else node_at tree r'.

(** [Grown X tree tree']: [tree'] has the allocators of [tree], each with
    at least the nodes it had; the nodes of [tree] outside [X] are
    unchanged. *)
Definition Grown (X : NodeRef → Prop) (tree tree' : SgUctTree.t) : Prop :=
  Forall2 le (sizes tree) (sizes tree') ∧
  capacities tree' = capacities tree ∧
  m_maxNodes tree' = m_maxNodes tree ∧
  (∀ r x, ¬ X r → node_at tree r = Some x → node_at tree' r = Some x) ∧
  (∀ r, is_Some (node_at tree r) → is_Some (node_at tree' r)).

(** The test [truncate] of CopySubtree at a source node [n] with the
    target allocator [a], and the warnings written there. *)
Definition truncates (env : Env) (maxTime : Q) (n : SgUctNode.t)
    (a : SgUctAllocator.t) (st : CopyState) : bool :=
  negb (SgUctAllocator.HasCapacity (SgUctNode.NuChildren n) a)
  || IsTimeOut env maxTime (polls st)
  || SgUserAbort env (polls st).

Definition warnings (env : Env) (maxTime : Q) (n : SgUctNode.t)
    (a : SgUctAllocator.t) (st : CopyState) : list string :=
  (if negb (SgUctAllocator.HasCapacity (SgUctNode.NuChildren n) a)
      && warnTruncate st then [MSG_CAPACITY] else [])
  ++ (if IsTimeOut env maxTime (polls st) && warnTruncate st
      then [MSG_MAXTIME] else [])
  ++ (if SgUserAbort env (polls st) && warnTruncate st
      then [MSG_ABORTED] else []).

(** [Warned st st']: what a call of CopySubtree that takes the state [st]
    to [st'] may have done to the flag [warnTruncate] and to the debug
    stream: nothing, or, with the flag set before and cleared after, the
    warnings of one truncation (one to three lines, in the order of the
    tests). *)
Definition Warned (st st' : CopyState) : Prop :=
  (debug st' = debug st ∧ warnTruncate st' = warnTruncate st)
  ∨ (warnTruncate st = true ∧ warnTruncate st' = false ∧
     ∃ msgs, msgs ≠ [] ∧
             msgs `sublist_of` [MSG_CAPACITY; MSG_MAXTIME; MSG_ABORTED] ∧
             debug st' = debug st ++ msgs).

(** Two states of a copy that differ at most in the flag [warnTruncate]
    and in the debug stream. *)
Definition same_copy (st1 st2 : CopyState) : Prop :=
  target st1 = target st2 ∧
  currentAllocatorId st1 = currentAllocatorId st2 ∧
  polls st1 = polls st2.

(** The number of truncation reasons that hold at a test of
    CopySubtree. *)
Definition nuReasons (env : Env) (maxTime : Q) (n : SgUctNode.t)
    (a : SgUctAllocator.t) (st : CopyState) : nat :=
  Nat.b2n (negb (SgUctAllocator.HasCapacity (SgUctNode.NuChildren n) a))
  + Nat.b2n (IsTimeOut env maxTime (polls st))
  + Nat.b2n (SgUserAbort env (polls st)).

(** [WarnedOnce env maxTime src st st']: what calls of CopySubtree that
    take the state [st] to [st'] have done to the flag [warnTruncate] and
    to the debug stream: nothing, or, with the flag set before and
    cleared after, they have written the warnings of one test, made at a
    source node with children in a state [st0] in which the flag was set
    and the copy truncated. *)
Definition WarnedOnce (env : Env) (maxTime : Q) (src : SgUctTree.t)
    (st st' : CopyState) : Prop :=
  (debug st' = debug st ∧ warnTruncate st' = warnTruncate st)
  ∨ (warnTruncate st = true ∧ warnTruncate st' = false ∧
     ∃ node n a st0,
       node_at src node = Some n ∧ SgUctNode.HasChildren n = true ∧
       Allocator (currentAllocatorId st0) (target st0) = Some a ∧
       warnTruncate st0 = true ∧ truncates env maxTime n a st0 = true ∧
       debug st' = debug st ++ warnings env maxTime n a st0).

(** The preconditions [ExtractSubtree] asserts: the node is in the source
    tree and the target has the same maximum number of nodes. *)
Definition ExtractSubtree_asserts (src target : SgUctTree.t)
    (node : NodeRef) : Prop :=
  Contains src node = true ∧ MaxNodes target = MaxNodes src.

Definition quiet_env : Env := mkEnv (λ _ _, false) (λ _, false).
Definition abort_env : Env := mkEnv (λ _ _, false) (λ _, true).

(** An environment in which the deadline has passed and the abort flag is
    raised. *)
Definition timeout_abort_env : Env := mkEnv (λ _ _, true) (λ _, true).

(** The tree [filter_example] with a visited root. *)
Definition extract_example : SgUctTree.t :=
  default filter_example
    (modify RootRef (SgUctNode.SetPosCount 9) filter_example).

(** A tree that consists of a visited root. *)
Definition leaf_example : SgUctTree.t :=
  default example_tree (modify RootRef (SgUctNode.SetPosCount 5) example_tree).

Definition roomy_target : SgUctTree.t :=
  SetMaxNodes 10 (CreateAllocators 2 make).

Definition extract_example_unfolded : RTree :=
  default (RNode RootRef (SgUctNode.make SG_NULLMOVE) [])
    (unfold 3 extract_example RootRef).

(** An environment in which the deadline never passes and the abort flag
    is never raised. *)
Definition Quiet (env : Env) (maxTime : Q) : Prop :=
  ∀ k, IsTimeOut env maxTime k = false ∧ SgUserAbort env k = false.

(** The sum of a list of rationals, and the list of their squares. *)
Definition Qsum (l : list Q) : Q := foldr Qplus 0%Q l.
Definition Qsquares (l : list Q) : list Q := (λ x, x * x)%Q <$> l.

(** The number of values of a list, as a rational. *)
Definition Qlength (l : list Q) : Q := inject_Z (Z.of_nat (length l)).

(** What a statistics object holds after values with the sum [S1] and the
    sum of squares [S2] have been added, [c] of them. *)
Definition Moments (s : SgStatistics.t) (c : Z) (S1 S2 : Q) : Prop :=
  SgStatistics.Count s = c ∧ (0 ≤ c)%Z ∧
  (c = 0%Z → SgStatistics.Mean s == 0)%Q ∧
  (SgStatistics.Mean s * inject_Z c == S1)%Q ∧
  ((SgStatistics.Variance s + SgStatistics.Mean s * SgStatistics.Mean s)
   * inject_Z c == S2)%Q.

(** The extremes an extended statistics object holds after the values
    [vals] have been added to a cleared object. *)
Definition Extremes (VALUE_MAX : Q) (s : SgStatisticsExt.t) (vals : list Q)
  : Prop :=
  (vals = [] ∧ SgStatisticsExt.m_max s = (- VALUE_MAX)%Q
   ∧ SgStatisticsExt.m_min s = VALUE_MAX)
  ∨ (Exists (λ v, SgStatisticsExt.m_max s == v)%Q vals ∧
     Exists (λ v, SgStatisticsExt.m_min s == v)%Q vals ∧
     Forall (λ v, SgStatisticsExt.m_min s <= v
                  ∧ v <= SgStatisticsExt.m_max s)%Q vals).

(** The cutoffs of a list that are for the depth [d], in the order of the
    list. *)
Definition at_depth (d : Z) (cs : list SgProbCut.Cutoff)
  : list SgProbCut.Cutoff :=
  filter (λ c, SgProbCut.deep c = d) cs.

(** The left border of bin [i] of a histogram. *)
Definition border (h : SgHistogram.t) (i : Z) : Q :=
  (SgHistogram.m_min h + inject_Z i * SgHistogram.m_binSize h)%Q.

(** The sum of the counters of a histogram. *)
Definition bin_total (h : SgHistogram.t) : Z :=
  foldr Z.add 0%Z (SgHistogram.m_array h).

(** The quotient that [Add] converts to [int] is in the range of [int]. *)
Definition castable (h : SgHistogram.t) (value : Q) : Prop :=
  is_Some (SgHistogram.to_int
             ((value - SgHistogram.m_min h) / SgHistogram.m_binSize h)%Q).

(** The index [Add] computes from the truncated quotient [i0]. *)
Definition clamp (bins i0 : Z) : Z :=
  let i := if decide (i0 < 0)%Z then 0%Z else i0 in
  if decide (bins ≤ i)%Z then (bins - 1)%Z else i.

(** A histogram over [0,10] with five bins, new and after three values. *)
Definition histogram_example0 : SgHistogram.t :=
  default SgHistogram.empty (SgHistogram.make 0 10 5).
Definition histogram_example : SgHistogram.t :=
  default SgHistogram.empty
    (SgHistogram.AddAll [1; 3; -7]%Q histogram_example0).

(** What [SgProbCut] holds after the cutoffs [cs] have been added. *)
Definition Holds (p : SgProbCut.t) (cs : list SgProbCut.Cutoff) : Prop :=
  length (SgProbCut.m_cutoff_sizes p) = 21 ∧
  length (SgProbCut.m_cutoffs p) = 21 ∧
  ∀ d, d < 21 →
    SgProbCut.m_cutoff_sizes p !! d
    = Some (Z.of_nat (length (at_depth (Z.of_nat d) cs))) ∧
    ∃ row, SgProbCut.m_cutoffs p !! d = Some row ∧ length row = 21 ∧
           ∀ k c, at_depth (Z.of_nat d) cs !! k = Some c → row !! k = Some c.

(** A histogram with [bins] bins that has counted [n] values. *)
Definition Counted (h : SgHistogram.t) (bins : Z) (n : Z) : Prop :=
  SgHistogram.m_bins h = bins ∧ (0 < bins)%Z ∧
  length (SgHistogram.m_array h) = Z.to_nat bins ∧
  SgHistogram.m_count h = n ∧ bin_total h = n ∧
  Forall (λ c, 0 ≤ c)%Z (SgHistogram.m_array h).

(** A tree whose root has a child block that lies in the reserved
    storage of an empty allocator. *)
Definition dangling_example : SgUctTree.t :=
  default example_tree
    (modify RootRef
       (SgUctNode.SetNuChildren 2 ∘ SgUctNode.SetFirstChild (Some (mkPtr 0 0)))
       example_tree).

(** The data of a node at which a copy was truncated: the position count
    is 0. *)
Definition cut (d : NodeData) : NodeData :=
  {| data_move := data_move d;
     data_posCount := 0;
     data_moveValue := data_moveValue d;
     data_raveValue := data_raveValue d |}.

(** [Pruned S S']: the shape [S'] is the shape [S] with the children cut
    off at some nodes that have children; a node at which they are cut
    off has the position count 0. *)
Inductive Pruned : Shape → Shape → Prop :=
| Pruned_copy d cs cs' :
    Forall2 Pruned cs cs' → Pruned (SNode d cs) (SNode d cs')
| Pruned_cut d cs :
    cs ≠ [] → Pruned (SNode d cs) (SNode (cut d) []).

(** Lower-casing of the letters A to Z, used in examples. *)
Definition lower_ascii (c : Ascii.ascii) : Ascii.ascii :=
  let n := Ascii.nat_of_ascii c in
  if decide (65 ≤ n ≤ 90) then Ascii.ascii_of_nat (n + 32) else c.

Fixpoint lower_case (s : string) : string :=
  match s with
  | EmptyString => EmptyString
  | String c s => String (lower_ascii c) (lower_case s)
  end.

(** The strings the commands print for the values of the enumerations. *)
Definition enum_strings : list string :=
  ["none"; "counts"; "sequence"; "value"; "count"; "bound"; "estimate";
   "even"; "default"; "playout_policy"; "uct"; "one_ply"].

(** The lines of a response that lists parameters: a label and a value. *)
Fixpoint lines (r : GoUctCommands.Response)
  : list (GoUctCommands.Item * GoUctCommands.Item) :=
  match r with
  | label :: value :: r => (label, value) :: lines r
  | _ => []
  end.

(** The lines a query of the search and of the player parameters prints. *)
Definition search_lines (s : GoUctCommands.GoUctSearch)
  : list (GoUctCommands.Item * GoUctCommands.Item) :=
  match GoUctCommands.CmdParamSearch (λ _, None) (λ _, None) (λ _, None)
          (λ _, None) id (GoUctCommands.mkCommand []) s with
  | (inr r, _) => lines r
  | (inl _, _) => []
  end.

Definition player_lines (p : GoUctCommands.GoUctPlayer)
  : list (GoUctCommands.Item * GoUctCommands.Item) :=
  match GoUctCommands.CmdParamPlayer (λ _, None) (λ _, None)
          (λ _, None) id (GoUctCommands.mkCommand []) p with
  | (inr r, _) => lines r
  | (inl _, _) => []
  end.

(** The item shows a value read from the argument string. *)
Definition reads (IntOfString : string → option Z)
    (SizeTypeOfString : string → option N)
    (BoolOfString : string → option bool)
    (FloatOfString : string → option Q) (ToLower : string → string)
    (arg : string) (item : GoUctCommands.Item) : Prop :=
  match item with
  | GoUctCommands.OfBool b => BoolOfString arg = Some b
  | GoUctCommands.OfSize n => SizeTypeOfString arg = Some n
  | GoUctCommands.OfInt z => IntOfString arg = Some z
  | GoUctCommands.OfFloat q => FloatOfString arg = Some q
  | GoUctCommands.Text t => ToLower arg = t
  end.

(** * Properties *)

(** ** The running mean stays in the unit interval *)

Section Statistics.

Import SgStatisticsBase.

Local Open Scope Q_scope.

Lemma inv_count_in_unit (count : Z) :
  (0 < count)%Z → 0 < / inject_Z count /\ / inject_Z count <= 1.
Proof.
  intros Hc. destruct count as [|p|p]; try lia. split.
  - apply Qinv_lt_0_compat. reflexivity.
  - unfold Qle, Qinv, inject_Z; simpl. lia.
Qed.

Lemma convex_step (m v k : Q) :
  in_unit m → in_unit v → 0 < k /\ k <= 1 → in_unit (m + (v - m) * k).
Proof. unfold in_unit. intros. nra. Qed.

Lemma Add_in_unit val s s' :
  in_unit val → in_unit (m_mean s) → Add val s = Some s' →
  in_unit (m_mean s').
Proof.
  unfold Add. intros Hv Hm H. case_decide as Hc; [|discriminate].
  injection H as <-. simpl. unfold Qdiv.
  apply convex_step; auto using inv_count_in_unit.
Qed.

Lemma Add_fits val s :
  (0 < (m_count s + 1) mod COUNT_MODULUS)%Z → is_Some (Add val s).
Proof. unfold Add. intros H. rewrite decide_True by done. eauto. Qed.

Lemma step_in_unit c s s' :
  call_in_unit c → in_unit (m_mean s) → step c s = Some s' →
  in_unit (m_mean s').
Proof.
  destruct c as [val|val count|]; simpl; intros Hc Hm H.
  - eauto using Add_in_unit.
  - injection H as <-. exact Hc.
  - injection H as <-. simpl. unfold in_unit. lra.
Qed.

Lemma step_count c s s' :
  step c s = Some s' →
  m_count s' = match c with
               | CallAdd _ => ((m_count s + 1) mod COUNT_MODULUS)%Z
               | CallInitialize _ count => count
               | CallClear => 0%Z
               end.
Proof.
  destruct c; simpl; [|by intros [= <-]..].
  unfold Add. case_decide; [|done]. by intros [= <-].
Qed.

End Statistics.

(** C7. For a statistics object whose stored mean lies in [0,1], every
    sequence of [Add], [Initialize] and [Clear] calls whose value arguments
    lie in [0,1] (and in which no [Add] makes the counter wrap to zero, as
    [Add] asserts) runs to completion and leaves a stored mean in [0,1],
    in exact arithmetic. The move value and the RAVE value of a node are
    such objects. *)
Theorem mean_stays_in_unit (cs : list SgStatisticsBase.call)
    (s : SgStatisticsBase.t) :
  Forall SgStatisticsBase.call_in_unit cs →
  SgStatisticsBase.in_unit (SgStatisticsBase.m_mean s) →
  SgStatisticsBase.counts_fit cs (SgStatisticsBase.m_count s) = true →
  ∃ s', SgStatisticsBase.run cs s = Some s'
        ∧ SgStatisticsBase.in_unit (SgStatisticsBase.m_mean s').
Proof.
  revert s. induction cs as [|c cs IH]; intros s Hcs Hs Hfit; simpl.
  - eauto.
  - apply Forall_cons in Hcs as [Hc Hcs].
    assert (is_Some (SgStatisticsBase.step c s)) as [s1 Hs1].
    { destruct c; simpl in *; eauto.
      apply andb_prop in Hfit as [Hfit _].
      apply Add_fits. by apply bool_decide_eq_true in Hfit. }
    rewrite Hs1. simpl. apply IH; [done|eauto using step_in_unit|].
    rewrite (step_count _ _ _ Hs1).
    destruct c; simpl in Hfit; [|done..].
    by apply andb_prop in Hfit as [_ Hfit].
Qed.

Lemma mean_stays_in_unit_witness :
  ∃ s', SgStatisticsBase.run
          [SgStatisticsBase.CallAdd 1; SgStatisticsBase.CallAdd 0;
           SgStatisticsBase.CallInitialize (1 # 2) 3;
           SgStatisticsBase.CallAdd (3 # 4)]
          SgStatisticsBase.Clear = Some s'
        ∧ SgStatisticsBase.in_unit (SgStatisticsBase.m_mean s').
Proof.
  apply mean_stays_in_unit.
  - repeat constructor; simpl; unfold Qle; simpl; lia.
  - split; unfold Qle; simpl; lia.
  - reflexivity.
Defined.

(** ** Reading and writing nodes *)

Section TreeFacts.
Implicit Types (tree : SgUctTree.t) (r : NodeRef) (n : SgUctNode.t)
  (p : NodePtr) (a : SgUctAllocator.t).

Lemma sizes_lookup tree i :
  sizes tree !! i = (λ a, length (SgUctAllocator.m_nodes a)) <$> Allocator i tree.
Proof. unfold sizes, Allocator. by rewrite list_lookup_fmap. Qed.

Lemma capacities_lookup tree i :
  capacities tree !! i = SgUctAllocator.m_capacity <$> Allocator i tree.
Proof. unfold capacities, Allocator. by rewrite list_lookup_fmap. Qed.

Lemma length_sizes tree : length (sizes tree) = NuAllocators tree.
Proof. unfold sizes, NuAllocators. by rewrite length_fmap. Qed.

Lemma node_at_is_Some tree p :
  is_Some (node_at tree (AllocRef p)) ↔
  ∃ s, sizes tree !! ptr_alloc p = Some s ∧ ptr_index p < s.
Proof.
  rewrite sizes_lookup. simpl. destruct (Allocator (ptr_alloc p) tree) as [a|]; simpl.
  - rewrite lookup_lt_is_Some. split; [eauto|]. by intros (s & [= <-] & ?).
  - split; [by intros [? ?]|]. by intros (s & ? & ?).
Qed.

Lemma node_at_None tree p s :
  sizes tree !! ptr_alloc p = Some s → s ≤ ptr_index p →
  node_at tree (AllocRef p) = None.
Proof.
  intros Hs Hle. apply eq_None_not_Some. rewrite node_at_is_Some.
  intros (s' & Hs' & Hlt). simplify_eq. lia.
Qed.

Lemma NuNodes_sizes tree : NuNodes tree = 1 + sum_list (sizes tree).
Proof.
  unfold NuNodes, sizes, SgUctAllocator.NuNodes.
  assert (∀ (l : list SgUctAllocator.t) k,
    foldl (λ nuNodes a, nuNodes + length (SgUctAllocator.m_nodes a)) k l
    = k + sum_list ((λ a, length (SgUctAllocator.m_nodes a)) <$> l)) as H.
  { induction l as [|a l IH]; intros k; simpl; [lia|]. rewrite IH. symmetry. apply Nat.add_assoc. }
  apply H.
Qed.

(** *** modify *)

Lemma modify_is_Some r f tree :
  is_Some (node_at tree r) → is_Some (modify r f tree).
Proof.
  destruct r as [|p]; simpl; [eauto|].
  destruct (Allocator (ptr_alloc p) tree) as [a|]; simpl; [|by intros [? ?]].
  intros [n ->]. simpl. eauto.
Qed.

Lemma modify_Some_inv r f tree tree' :
  modify r f tree = Some tree' → is_Some (node_at tree r).
Proof.
  destruct r as [|p]; simpl; [eauto|].
  destruct (Allocator (ptr_alloc p) tree) as [a|]; simpl; [|done].
  destruct (SgUctAllocator.m_nodes a !! ptr_index p); simpl; eauto; done.
Qed.

Lemma node_at_modify r f tree tree' r' :
  modify r f tree = Some tree' →
  node_at tree' r' = if decide (r' = r) then f <$> node_at tree r' else node_at tree r'.
Proof.
  destruct r as [|p]; simpl.
  - intros [= <-]. by destruct r'.
  - destruct (Allocator (ptr_alloc p) tree) as [a|] eqn:Ha; simpl; [|done].
    destruct (SgUctAllocator.m_nodes a !! ptr_index p) as [n|] eqn:Hn; simpl; [|done].
    intros [= <-]. destruct r' as [|p']; [done|].
    case_decide as Hp.
    { injection Hp as ->. simpl. unfold Allocator, set_allocator in *; simpl.
      rewrite list_lookup_insert_eq by (by eapply lookup_lt_Some). simpl.
      rewrite Ha. simpl.
      rewrite list_lookup_insert_eq by (by eapply lookup_lt_Some).
      by rewrite Hn. }
    simpl. unfold Allocator, set_allocator in *; simpl.
    destruct (decide (ptr_alloc p = ptr_alloc p')) as [Heq|Hne];
      [|by rewrite list_lookup_insert_ne].
    rewrite <- Heq. rewrite list_lookup_insert_eq by (by eapply lookup_lt_Some).
    rewrite Ha. simpl.
    rewrite list_lookup_insert_ne; [done|].
    intros Heq'. apply Hp. destruct p, p'; simpl in *; congruence.
Qed.

Lemma node_at_modify_eq r f tree tree' :
  modify r f tree = Some tree' → node_at tree' r = f <$> node_at tree r.
Proof. intros H. rewrite (node_at_modify _ _ _ _ r H). by rewrite decide_True. Qed.

Lemma modify_sizes r f tree tree' :
  modify r f tree = Some tree' → sizes tree' = sizes tree.
Proof.
  destruct r as [|p]; simpl.
  - by intros [= <-].
  - destruct (Allocator (ptr_alloc p) tree) as [a|] eqn:Ha; simpl; [|done].
    destruct (SgUctAllocator.m_nodes a !! ptr_index p) as [n|] eqn:Hn; simpl; [|done].
    intros [= <-]. unfold sizes, set_allocator; simpl.
    rewrite list_fmap_insert. simpl. rewrite length_insert.
    apply list_insert_id. rewrite list_lookup_fmap. unfold Allocator in Ha. by rewrite Ha.
Qed.

Lemma modify_capacities r f tree tree' :
  modify r f tree = Some tree' → capacities tree' = capacities tree.
Proof.
  destruct r as [|p]; simpl.
  - by intros [= <-].
  - destruct (Allocator (ptr_alloc p) tree) as [a|] eqn:Ha; simpl; [|done].
    destruct (SgUctAllocator.m_nodes a !! ptr_index p) as [n|] eqn:Hn; simpl; [|done].
    intros [= <-]. unfold capacities, set_allocator; simpl.
    rewrite list_fmap_insert. simpl.
    apply list_insert_id. rewrite list_lookup_fmap. unfold Allocator in Ha. by rewrite Ha.
Qed.

Lemma modify_maxNodes r f tree tree' :
  modify r f tree = Some tree' → m_maxNodes tree' = m_maxNodes tree.
Proof.
  destruct r as [|p]; simpl.
  - by intros [= <-].
  - destruct (Allocator (ptr_alloc p) tree) as [a|] eqn:Ha; simpl; [|done].
    destruct (SgUctAllocator.m_nodes a !! ptr_index p) as [n|] eqn:Hn; simpl; [|done].
    by intros [= <-].
Qed.

(** *** push_back *)

Lemma push_back_Some allocatorId node tree s c :
  sizes tree !! allocatorId = Some s → capacities tree !! allocatorId = Some c →
  s < c → is_Some (push_back allocatorId node tree).
Proof.
  rewrite sizes_lookup, capacities_lookup. unfold push_back.
  destruct (Allocator allocatorId tree) as [a|]; simpl; [|done].
  intros [= <-] [= <-] Hlt. unfold SgUctAllocator.push_back, SgUctAllocator.HasCapacity.
  rewrite bool_decide_eq_true_2 by lia. simpl. eauto.
Qed.

Lemma push_back_inv allocatorId node tree tree' :
  push_back allocatorId node tree = Some tree' →
  ∃ s c, sizes tree !! allocatorId = Some s ∧ capacities tree !! allocatorId = Some c ∧
         s < c ∧
         sizes tree' = <[allocatorId := S s]> (sizes tree) ∧
         capacities tree' = capacities tree ∧
         m_maxNodes tree' = m_maxNodes tree ∧
         m_root tree' = m_root tree ∧
         ∀ r, node_at tree' r =
              if decide (r = AllocRef (mkPtr allocatorId s)) then Some node
              else node_at tree r.
Proof.
  unfold push_back. rewrite sizes_lookup, capacities_lookup.
  destruct (Allocator allocatorId tree) as [a|] eqn:Ha; simpl; [|done].
  unfold SgUctAllocator.push_back, SgUctAllocator.HasCapacity.
  case_bool_decide as Hcap; simpl; [|done]. intros [= <-].
  eexists _, _. split_and!; try done.
  - lia.
  - unfold sizes, set_allocator; simpl. rewrite list_fmap_insert. simpl.
    rewrite length_app. simpl. f_equal. lia.
  - unfold capacities, set_allocator; simpl. rewrite list_fmap_insert. simpl.
    apply list_insert_id. rewrite list_lookup_fmap. unfold Allocator in Ha. by rewrite Ha.
  - intros [|p]; [done|].
    case_decide as Hp.
    + injection Hp as ->. simpl. unfold Allocator, set_allocator in *; simpl.
      rewrite list_lookup_insert_eq by (by eapply lookup_lt_Some). simpl.
      by rewrite lookup_app_r, Nat.sub_diag.
    + simpl. unfold Allocator, set_allocator in *; simpl.
      destruct (decide (allocatorId = ptr_alloc p)) as [Heq|Hne];
        [|by rewrite list_lookup_insert_ne].
      rewrite <- Heq. rewrite list_lookup_insert_eq by (by eapply lookup_lt_Some).
      rewrite Ha. simpl.
      destruct (decide (ptr_index p < length (SgUctAllocator.m_nodes a))).
      * by rewrite lookup_app_l.
      * rewrite !lookup_ge_None_2; [done|lia|].
        rewrite length_app; simpl.
        assert (ptr_index p ≠ length (SgUctAllocator.m_nodes a)); [|lia].
        intros ?. apply Hp. destruct p; simpl in *; congruence.
Qed.

Lemma HasRoom_sizes allocatorId k tree :
  HasRoom allocatorId k tree ↔
  ∃ s c, sizes tree !! allocatorId = Some s ∧
         capacities tree !! allocatorId = Some c ∧ s + k ≤ c.
Proof.
  unfold HasRoom. rewrite sizes_lookup, capacities_lookup.
  unfold SgUctAllocator.HasCapacity. split.
  - intros (a & -> & H). apply bool_decide_eq_true in H. simpl. eauto 10.
  - destruct (Allocator allocatorId tree) as [a|]; simpl.
    + intros (s & c & [= <-] & [= <-] & H). exists a. split; [done|].
      by apply bool_decide_eq_true.
    + by intros (s & c & ? & _).
Qed.

Lemma Pushed_nil allocatorId tree :
  is_Some (Allocator allocatorId tree) → Pushed allocatorId [] tree tree.
Proof.
  intros [a Ha]. exists (length (SgUctAllocator.m_nodes a)), (SgUctAllocator.m_capacity a).
  rewrite sizes_lookup, capacities_lookup, Ha. simpl.
  split_and!; try done.
  - rewrite Nat.add_0_r. symmetry. apply list_insert_id.
    by rewrite sizes_lookup, Ha.
  - intros [|p]; [done|]. case_decide as Hp; [|done].
    destruct Hp as [<- Hp]. rewrite lookup_nil. simpl. rewrite Ha. simpl.
    by apply lookup_ge_None_2.
Qed.

Lemma push_back_Pushed allocatorId node tree tree' :
  push_back allocatorId node tree = Some tree' →
  Pushed allocatorId [node] tree tree'.
Proof.
  intros H. apply push_back_inv in H
    as (s & c & Hs & Hc & Hlt & Hs' & Hc' & Hm & _ & Hn).
  exists s, c. split_and!; try done.
  - simpl. lia.
  - simpl. by rewrite Nat.add_1_r.
  - intros [|p]; rewrite Hn; [done|].
    destruct (decide (AllocRef p = AllocRef (mkPtr allocatorId s))) as [Heq|Hne].
    + injection Heq as ->. simpl. rewrite decide_True by done.
      by rewrite Nat.sub_diag.
    + destruct (decide (ptr_alloc p = allocatorId ∧ s ≤ ptr_index p))
        as [[<- Hle]|]; [|done].
      assert (s < ptr_index p).
      { destruct (decide (s = ptr_index p)) as [->|]; [|lia].
        exfalso. apply Hne. by destruct p. }
      rewrite (node_at_None tree p s) by (done || lia).
      symmetry. apply lookup_ge_None_2. simpl. lia.
Qed.

Lemma Pushed_trans allocatorId ns1 ns2 tree tree1 tree2 :
  Pushed allocatorId ns1 tree tree1 → Pushed allocatorId ns2 tree1 tree2 →
  Pushed allocatorId (ns1 ++ ns2) tree tree2.
Proof.
  intros (s & c & Hs & Hc & Hcap & Hs' & Hc' & Hm & Hn)
         (s1 & c1 & Hs1 & Hc1 & Hcap1 & Hs1' & Hc1' & Hm1 & Hn1).
  assert (allocatorId < length (sizes tree)) by (by eapply lookup_lt_Some).
  rewrite Hs', list_lookup_insert_eq in Hs1 by done. injection Hs1 as <-.
  rewrite Hc', Hc in Hc1. injection Hc1 as <-.
  exists s, c. split_and!; try done.
  - rewrite length_app. intros Hne.
    destruct ns2 as [|n2 ns2]; [|naive_solver lia].
    rewrite app_nil_r in Hne. simpl. naive_solver lia.
  - rewrite Hs1', Hs', list_insert_insert_eq, length_app. f_equal. lia.
  - congruence.
  - congruence.
  - intros [|p]; [by rewrite Hn1, Hn|]. rewrite Hn1, Hn.
    repeat case_decide; try naive_solver lia.
    + destruct (decide (ptr_index p - s < length ns1)); [lia|].
      rewrite lookup_app_r by lia. f_equal. lia.
    + rewrite lookup_app_l by naive_solver lia. done.
Qed.

Lemma Pushed_old allocatorId ns tree tree' r n :
  Pushed allocatorId ns tree tree' → node_at tree r = Some n →
  node_at tree' r = Some n.
Proof.
  intros (s & c & Hs & Hc & Hcap & Hs' & Hc' & Hm & Hn) Hr. rewrite Hn.
  destruct r as [|p]; [done|]. case_decide as Hp; [|done].
  destruct Hp as [<- Hp]. by rewrite (node_at_None tree p s) in Hr.
Qed.

Lemma Pushed_new allocatorId ns tree tree' s i :
  Pushed allocatorId ns tree tree' → sizes tree !! allocatorId = Some s →
  node_at tree' (AllocRef (mkPtr allocatorId (s + i))) = ns !! i.
Proof.
  intros (s' & c & Hs & Hc & Hcap & Hs' & Hc' & Hm & Hn) Hs0.
  rewrite Hn. simplify_eq/=. rewrite decide_True by (split; [done|lia]).
  f_equal. lia.
Qed.

Lemma Pushed_NuNodes allocatorId ns tree tree' :
  Pushed allocatorId ns tree tree' → NuNodes tree' = NuNodes tree + length ns.
Proof.
  intros (s & c & Hs & Hc & Hcap & Hs' & Hc' & Hm & Hn).
  rewrite !NuNodes_sizes, Hs'.
  assert (∀ (l : list nat) i x k, l !! i = Some x →
            sum_list (<[i := x + k]> l) = sum_list l + k) as Hsum.
  { induction l as [|y l IH]; intros [|i] x k Hl; simplify_eq/=; [lia|].
    rewrite (IH _ _ _ Hl). lia. }
  rewrite (Hsum _ _ _ _ Hs). lia.
Qed.

Lemma Pushed_NuAllocators allocatorId ns tree tree' :
  Pushed allocatorId ns tree tree' → NuAllocators tree' = NuAllocators tree.
Proof.
  intros (s & c & Hs & Hc & Hcap & Hs' & Hc' & Hm & Hn).
  by rewrite <- !length_sizes, Hs', length_insert.
Qed.

(** *** The loops that append nodes *)

Lemma push_back_sizes allocatorId node tree s c :
  sizes tree !! allocatorId = Some s → capacities tree !! allocatorId = Some c →
  s < c →
  ∃ tree', push_back allocatorId node tree = Some tree' ∧
           Pushed allocatorId [node] tree tree' ∧
           sizes tree' !! allocatorId = Some (S s) ∧
           capacities tree' !! allocatorId = Some c.
Proof.
  intros Hs Hc Hlt.
  destruct (push_back_Some allocatorId node tree s c) as [tree' H]; try done.
  exists tree'. split; [done|]. split; [by apply push_back_Pushed|].
  apply push_back_inv in H as (s' & c' & Hs' & Hc' & _ & -> & -> & _).
  simplify_eq. split; [|done].
  apply list_lookup_insert_eq. by eapply lookup_lt_Some.
Qed.

Lemma CreateChildren_loop_Pushed allocatorId moves tree s c :
  sizes tree !! allocatorId = Some s → capacities tree !! allocatorId = Some c →
  s + length moves ≤ c →
  ∃ tree', CreateChildren_loop allocatorId moves tree = Some tree' ∧
           Pushed allocatorId (SgUctNode.make <$> moves) tree tree'.
Proof.
  revert tree s. induction moves as [|move moves IH]; intros tree s Hs Hc Hle; simpl.
  - exists tree. split; [done|]. apply Pushed_nil.
    rewrite sizes_lookup in Hs. by destruct (Allocator allocatorId tree).
  - simpl in Hle.
    destruct (push_back_sizes allocatorId (SgUctNode.make move) tree s c)
      as (tree1 & -> & Hp & Hs1 & Hc1); [done|done|lia|]. simpl.
    destruct (IH tree1 (S s)) as (tree' & -> & Hp'); [done|done|lia|].
    exists tree'. split; [done|].
    by apply (Pushed_trans _ [_] _ _ tree1).
Qed.

Lemma CopySubtree_create_Pushed allocatorId nuChildren tree s c :
  sizes tree !! allocatorId = Some s → capacities tree !! allocatorId = Some c →
  s + nuChildren ≤ c →
  ∃ tree', CopySubtree_create allocatorId nuChildren tree = Some tree' ∧
           Pushed allocatorId (replicate nuChildren (SgUctNode.make SG_NULLMOVE))
             tree tree'.
Proof.
  revert tree s. induction nuChildren as [|k IH]; intros tree s Hs Hc Hle; simpl.
  - exists tree. split; [done|]. apply Pushed_nil.
    rewrite sizes_lookup in Hs. by destruct (Allocator allocatorId tree).
  - destruct (push_back_sizes allocatorId (SgUctNode.make SG_NULLMOVE) tree s c)
      as (tree1 & -> & Hp & Hs1 & Hc1); [done|done|lia|]. simpl.
    destruct (IH tree1 (S s)) as (tree' & -> & Hp'); [done|done|lia|].
    exists tree'. split; [done|].
    by apply (Pushed_trans _ [_] _ _ tree1).
Qed.

(** The children ApplyFilter keeps. *)
Lemma ApplyFilter_loop_Pushed allocatorId rootFilter its tree nuChildren cs s c :
  mapM (λ it, node_at tree (AllocRef it)) its = Some cs →
  sizes tree !! allocatorId = Some s → capacities tree !! allocatorId = Some c →
  s + length (filter (λ n, SgUctNode.Move n ∉ rootFilter) cs) ≤ c →
  ∃ tree',
    ApplyFilter_loop allocatorId rootFilter its tree nuChildren
    = Some (tree', nuChildren
                   + length (filter (λ n, SgUctNode.Move n ∉ rootFilter) cs)) ∧
    Pushed allocatorId
      ((λ n, SgUctNode.make (SgUctNode.Move n))
         <$> filter (λ n, SgUctNode.Move n ∉ rootFilter) cs)
      tree tree'.
Proof.
  revert tree nuChildren cs s.
  induction its as [|it its IH]; intros tree nuChildren cs s Hcs Hs Hc Hle.
  - apply mapM_Some in Hcs. apply Forall2_nil_inv_l in Hcs as ->. simpl.
    exists tree. rewrite Nat.add_0_r. split; [done|]. apply Pushed_nil.
    rewrite sizes_lookup in Hs. by destruct (Allocator allocatorId tree).
  - apply mapM_Some in Hcs. apply Forall2_cons_inv_l in Hcs
      as (cur & cs' & Hcur & Hcs' & ->).
    cbn [ApplyFilter_loop]. rewrite Hcur. simpl.
    rewrite filter_cons in Hle |- *.
    destruct (decide (SgUctNode.Move cur ∉ rootFilter)) as [Hin|Hin].
    + simpl in Hle.
      destruct (push_back_sizes allocatorId
                  (SgUctNode.make (SgUctNode.Move cur)) tree s c)
        as (tree1 & -> & Hp & Hs1 & Hc1); [done|done|lia|]. simpl.
      destruct (IH tree1 (S nuChildren) cs' (S s)) as (tree' & -> & Hp');
        [|done|done|lia|].
      { apply mapM_Some. eapply Forall2_impl; [done|].
        intros x y Hx. by eapply Pushed_old. }
      exists tree'. split; [simpl; do 2 f_equal; lia|].
      by apply (Pushed_trans _ [_] _ _ tree1).
    + destruct (IH tree nuChildren cs' s) as (tree' & -> & Hp');
        [by apply mapM_Some|done|done|done|].
      by exists tree'.
Qed.
End TreeFacts.

Section Publish.
Implicit Types (tree : SgUctTree.t) (r : NodeRef) (n : SgUctNode.t)
  (p : NodePtr) (a : SgUctAllocator.t).

(** Writing [m_firstChild], then [m_nuChildren], through the same
    reference. *)
Lemma publish_view node f g tree n :
  node_at tree node = Some n →
  ∃ tree', (tree1 ← modify node f tree; modify node g tree1) = Some tree' ∧
           sizes tree' = sizes tree ∧ capacities tree' = capacities tree ∧
           m_maxNodes tree' = m_maxNodes tree ∧
           ∀ r, node_at tree' r =
                if decide (r = node) then Some (g (f n)) else node_at tree r.
Proof.
  intros Hn.
  destruct (modify_is_Some node f tree) as [tree1 H1]; [by eauto|].
  destruct (modify_is_Some node g tree1) as [tree' H2].
  { rewrite (node_at_modify_eq _ _ _ _ H1), Hn. simpl. eauto. }
  exists tree'. rewrite H1. simpl. split; [done|].
  split; [by rewrite (modify_sizes _ _ _ _ H2), (modify_sizes _ _ _ _ H1)|].
  split; [by rewrite (modify_capacities _ _ _ _ H2), (modify_capacities _ _ _ _ H1)|].
  split; [by rewrite (modify_maxNodes _ _ _ _ H2), (modify_maxNodes _ _ _ _ H1)|].
  intros r. rewrite (node_at_modify _ _ _ _ r H2), (node_at_modify _ _ _ _ r H1).
  case_decide; [subst; by rewrite Hn|done].
Qed.

Lemma sizes_Allocator tree i s :
  sizes tree !! i = Some s →
  ∃ a, Allocator i tree = Some a ∧ length (SgUctAllocator.m_nodes a) = s.
Proof.
  rewrite sizes_lookup. destruct (Allocator i tree) as [a|]; [|done].
  intros [= <-]. eauto.
Qed.

Lemma HasCapacity_sizes tree i a k :
  Allocator i tree = Some a → SgUctAllocator.HasCapacity k a = true →
  sizes tree !! i = Some (length (SgUctAllocator.m_nodes a)) ∧
  capacities tree !! i = Some (SgUctAllocator.m_capacity a) ∧
  length (SgUctAllocator.m_nodes a) + k ≤ SgUctAllocator.m_capacity a.
Proof.
  intros Ha Hk. rewrite sizes_lookup, capacities_lookup, Ha.
  apply bool_decide_eq_true in Hk. done.
Qed.

(** The effect of CreateChildren in terms of the nodes of the tree. *)
Lemma CreateChildren_view allocatorId node moves tree n s c :
  node_at tree node = Some n →
  sizes tree !! allocatorId = Some s → capacities tree !! allocatorId = Some c →
  s + length moves ≤ c →
  ∃ tree1 tree',
    Pushed allocatorId (SgUctNode.make <$> moves) tree tree1 ∧
    CreateChildren allocatorId node moves tree = Some tree' ∧
    sizes tree' = sizes tree1 ∧ capacities tree' = capacities tree1 ∧
    m_maxNodes tree' = m_maxNodes tree1 ∧
    ∀ r, node_at tree' r =
         if decide (r = node)
         then Some (SgUctNode.SetNuChildren (length moves)
                      (SgUctNode.SetFirstChild (Some (mkPtr allocatorId s)) n))
         else node_at tree1 r.
Proof.
  intros Hn Hs Hc Hle. unfold CreateChildren.
  destruct (sizes_Allocator _ _ _ Hs) as (a & -> & <-). simpl.
  destruct (CreateChildren_loop_Pushed allocatorId moves tree
              (length (SgUctAllocator.m_nodes a)) c)
    as (tree1 & -> & Hp); [done..|]. simpl.
  destruct (publish_view node
              (SgUctNode.SetFirstChild
                 (Some (mkPtr allocatorId (length (SgUctAllocator.m_nodes a)))))
              (SgUctNode.SetNuChildren (length moves)) tree1 n)
    as (tree' & -> & ?); [by eapply Pushed_old|].
  exists tree1, tree'. naive_solver.
Qed.
End Publish.

Section Filter.
Implicit Types (tree : SgUctTree.t) (r : NodeRef) (n : SgUctNode.t)
  (p : NodePtr) (a : SgUctAllocator.t).

Lemma ChildPtrs_length n its :
  SgUctNode.ChildPtrs n = Some its → length its = SgUctNode.NuChildren n.
Proof.
  unfold SgUctNode.ChildPtrs, SgUctNode.HasChildren, SgUctNode.NuChildren.
  case_bool_decide as Hn.
  - destruct (SgUctNode.FirstChild n); [|done]. simpl. intros [= <-].
    by rewrite length_fmap, length_seq.
  - intros [= <-]. simpl. lia.
Qed.

Lemma ChildPtrs_no_children n :
  SgUctNode.NuChildren n = 0 → SgUctNode.ChildPtrs n = Some [].
Proof.
  unfold SgUctNode.ChildPtrs, SgUctNode.HasChildren, SgUctNode.NuChildren.
  intros ->. by rewrite bool_decide_eq_false_2 by lia.
Qed.

Lemma ChildPtrs_block n first :
  SgUctNode.FirstChild n = Some first →
  SgUctNode.ChildPtrs n
  = Some (ptr_offset first <$> seq 0 (SgUctNode.NuChildren n)).
Proof.
  unfold SgUctNode.ChildPtrs, SgUctNode.HasChildren, SgUctNode.NuChildren.
  intros ->. case_bool_decide as Hn; [done|].
  by replace (SgUctNode.m_nuChildren n) with 0 by lia.
Qed.

Lemma Children_length tree node n cs :
  node_at tree node = Some n → Children tree node = Some cs →
  length cs = SgUctNode.NuChildren n.
Proof.
  unfold Children. intros ->. simpl.
  destruct (SgUctNode.ChildPtrs n) as [its|] eqn:Hits; [|done]. simpl.
  intros H. apply length_mapM in H. rewrite <- H. by apply ChildPtrs_length.
Qed.

(** The children of a node whose child block is the fresh block
    [ns] at [first]. *)
Lemma Children_block tree node n first (ns : list SgUctNode.t) :
  node_at tree node = Some n →
  SgUctNode.FirstChild n = Some first →
  SgUctNode.NuChildren n = length ns →
  (∀ i, node_at tree (AllocRef (ptr_offset first i)) = ns !! i) →
  Children tree node = Some ns.
Proof.
  intros Hn Hf Hk Hns. unfold Children. rewrite Hn. simpl.
  rewrite (ChildPtrs_block _ _ Hf). simpl. rewrite Hk.
  apply mapM_Some. apply Forall2_fmap_l. apply Forall2_lookup. intros i.
  destruct (ns !! i) as [x|] eqn:Hx.
  - rewrite (lookup_seq_lt 0 (length ns) i) by (by eapply lookup_lt_Some).
    constructor. exact (eq_trans (Hns i) Hx).
  - rewrite lookup_seq_ge by (by apply lookup_ge_None). constructor.
Qed.

Lemma ApplyFilter_spec allocatorId node rootFilter tree n cs :
  node_at tree node = Some n →
  Children tree node = Some cs →
  HasRoom allocatorId (SgUctNode.NuChildren n) tree →
  ∃ tree' s,
    ApplyFilter allocatorId node rootFilter tree = Some tree' ∧
    sizes tree !! allocatorId = Some s ∧
    Children tree' node
      = Some ((λ c, SgUctNode.make (SgUctNode.Move c))
                <$> filter (λ c, SgUctNode.Move c ∉ rootFilter) cs) ∧
    sizes tree'
      = <[allocatorId :=
            s + length (filter (λ c, SgUctNode.Move c ∉ rootFilter) cs)]>
          (sizes tree) ∧
    capacities tree' = capacities tree ∧
    (∀ r x, r ≠ node → node_at tree r = Some x → node_at tree' r = Some x) ∧
    (∃ n', node_at tree' node = Some n' ∧ data n' = data n ∧
           SgUctNode.NuChildren n'
           = length (filter (λ c, SgUctNode.Move c ∉ rootFilter) cs)) ∧
    (∀ x, Child tree' node x → node_at tree x = None) ∧
    (SgUctNode.NuChildren n = 0 → tree' = tree).
Proof.
  intros Hn Hcs Hroom.
  pose proof (Children_length _ _ _ _ Hn Hcs) as Hlen.
  apply HasRoom_sizes in Hroom as (s & c & Hs & Hc & Hle).
  set (kept := filter (λ c, SgUctNode.Move c ∉ rootFilter) cs).
  assert (length kept ≤ length cs) as Hkept by apply length_filter.
  unfold ApplyFilter. rewrite Hn. simpl.
  unfold SgUctNode.HasChildren.
  destruct (decide (SgUctNode.NuChildren n = 0)) as [Hz|Hnz].
  - (* no children: nothing happens *)
    unfold SgUctNode.NuChildren in Hz. rewrite Hz.
    rewrite bool_decide_eq_false_2 by lia. simpl.
    assert (cs = []) as -> by (apply length_zero_iff_nil; unfold SgUctNode.NuChildren in *; lia).
    exists tree, s. subst kept. simpl. rewrite Nat.add_0_r.
    split_and!; try done.
    + symmetry. by apply list_insert_id.
    + eexists; split_and!; try done.
    + intros x (n0 & its & it & Hn0 & Hits & Hin & _). simplify_eq.
      rewrite ChildPtrs_no_children in Hits by done. injection Hits as <-.
      by apply elem_of_nil in Hin.
  - unfold SgUctNode.NuChildren in Hnz.
    rewrite bool_decide_eq_true_2 by lia. simpl.
    destruct (sizes_Allocator _ _ _ Hs) as (a & Ha & Hsa). rewrite Ha. simpl.
    unfold Children in Hcs. rewrite Hn in Hcs. simpl in Hcs.
    destruct (SgUctNode.ChildPtrs n) as [its|]; [|done]. simpl in Hcs |- *.
    destruct (ApplyFilter_loop_Pushed allocatorId rootFilter its tree 0 cs s c)
      as (tree1 & -> & Hp); [done|done|done|fold kept; lia|]. simpl.
    fold kept in Hp |- *. rewrite Hsa.
    destruct (publish_view node
                (SgUctNode.SetFirstChild (Some (mkPtr allocatorId s)))
                (SgUctNode.SetNuChildren (length kept)) tree1 n)
      as (tree' & -> & Hs' & Hc' & _ & Hview); [by eapply Pushed_old|].
    pose proof Hp as (s0 & c0 & Hs0 & _ & _ & Hs1 & Hc1 & _).
    rewrite Hs in Hs0. injection Hs0 as <-. rewrite length_fmap in Hs1.
    assert (∀ i, node_at tree' (AllocRef (mkPtr allocatorId (s + i)))
                 = ((λ c, SgUctNode.make (SgUctNode.Move c)) <$> kept) !! i)
      as Hnew.
    { intros i. rewrite Hview, decide_False.
      - by apply (Pushed_new _ _ tree).
      - intros <-.
        rewrite (node_at_None tree (mkPtr allocatorId _) _ Hs) in Hn;
          [done|simpl; lia]. }
    exists tree', s. split_and!; try done.
    + eapply Children_block.
      * rewrite Hview. by rewrite decide_True.
      * done.
      * simpl. by rewrite length_fmap.
      * done.
    + congruence.
    + congruence.
    + intros r x Hne Hx. rewrite Hview, decide_False by done.
      by eapply Pushed_old.
    + eexists. split; [by rewrite Hview, decide_True|]. done.
    + intros x (n0 & its0 & it & Hn0 & Hits & Hin & ->).
      rewrite Hview, decide_True in Hn0 by done. injection Hn0 as <-.
      rewrite (ChildPtrs_block _ (mkPtr allocatorId s)) in Hits by done.
      injection Hits as <-. apply list_elem_of_fmap in Hin as (i & -> & _).
      by apply (node_at_None _ _ s); [|simpl; lia].
Qed.

(** A fresh node has no children. *)
Lemma Child_make tree r move x :
  node_at tree r = Some (SgUctNode.make move) → ¬ Child tree r x.
Proof.
  intros Hr (n & its & it & Hn & Hits & Hin & _). simplify_eq.
  injection Hits as <-. by apply elem_of_nil in Hin.
Qed.

Lemma Children_lookup tree node cs n its it i :
  node_at tree node = Some n → Children tree node = Some cs →
  SgUctNode.ChildPtrs n = Some its → its !! i = Some it →
  node_at tree (AllocRef it) = cs !! i ∧ is_Some (cs !! i).
Proof.
  unfold Children. intros -> H Hits Hit. simpl in H. rewrite Hits in H.
  simpl in H. apply mapM_Some in H.
  destruct (Forall2_lookup_l _ _ _ _ _ H Hit) as (c & Hc & Hnc).
  rewrite Hc. eauto.
Qed.
End Filter.

(** C2. Under the asserted preconditions (the node is in the tree, the
    allocator has capacity for [length moves] more nodes, [moves] is not
    empty) CreateChildren returns, and: the allocator has grown by exactly
    [length moves] nodes; the appended nodes are, in order, fresh nodes for
    the moves (zeroed statistics, no children); the parent's first-child
    pointer is the address of the first appended node and its child count
    is [length moves]; no other existing node has changed. *)
Theorem CreateChildren_appends (allocatorId : nat) (node : NodeRef)
    (moves : list SgMove) (tree : SgUctTree.t)
    (n : SgUctNode.t) (a : SgUctAllocator.t) :
  node_at tree node = Some n →
  Allocator allocatorId tree = Some a →
  SgUctAllocator.HasCapacity (length moves) a = true →
  moves ≠ [] →
  ∃ tree' a',
    CreateChildren allocatorId node moves tree = Some tree' ∧
    Allocator allocatorId tree' = Some a' ∧
    length (SgUctAllocator.m_nodes a')
      = length (SgUctAllocator.m_nodes a) + length moves ∧
    drop (length (SgUctAllocator.m_nodes a)) (SgUctAllocator.m_nodes a')
      = SgUctNode.make <$> moves ∧
    node_at tree' node
      = Some (SgUctNode.SetNuChildren (length moves)
                (SgUctNode.SetFirstChild
                   (Some (mkPtr allocatorId (length (SgUctAllocator.m_nodes a))))
                   n)) ∧
    (∀ r x, r ≠ node → node_at tree r = Some x → node_at tree' r = Some x) ∧
    NuNodes tree' = NuNodes tree + length moves.
Proof.
  intros Hn Ha Hcap _.
  destruct (HasCapacity_sizes _ _ _ _ Ha Hcap) as (Hs & Hc & Hle).
  destruct (CreateChildren_view allocatorId node moves tree n _ _ Hn Hs Hc Hle)
    as (tree1 & tree' & Hp & Hcc & Hs' & Hc' & _ & Hview).
  pose proof Hp as (s0 & c0 & Hs0 & _ & _ & Hs1 & _).
  rewrite Hs in Hs0. injection Hs0 as <-.
  assert (sizes tree' !! allocatorId
          = Some (length (SgUctAllocator.m_nodes a) + length (SgUctNode.make <$> moves)))
    as Hsz.
  { rewrite Hs', Hs1. apply list_lookup_insert_eq. by eapply lookup_lt_Some. }
  rewrite length_fmap in Hsz.
  destruct (sizes_Allocator _ _ _ Hsz) as (a' & Ha' & Hlen).
  exists tree', a'. split_and!; try done.
  - apply list_eq. intros i. rewrite lookup_drop.
    transitivity (node_at tree' (AllocRef (mkPtr allocatorId
                    (length (SgUctAllocator.m_nodes a) + i)))).
    { simpl. by rewrite Ha'. }
    rewrite Hview. rewrite decide_False.
    + by apply (Pushed_new _ _ tree).
    + intros <-.
      rewrite (node_at_None tree (mkPtr allocatorId _) _ Hs) in Hn;
        [done|simpl; lia].
  - rewrite Hview. by rewrite decide_True.
  - intros r x Hne Hx. rewrite Hview, decide_False by done.
    by eapply Pushed_old.
  - rewrite (NuNodes_sizes tree'), Hs', <- NuNodes_sizes.
    rewrite (Pushed_NuNodes _ _ _ _ Hp). by rewrite length_fmap.
Qed.

Lemma CreateChildren_appends_witness :
  ∃ tree' a',
    CreateChildren 0 RootRef [3; 4; 5]%Z example_tree = Some tree' ∧
    Allocator 0 tree' = Some a' ∧
    length (SgUctAllocator.m_nodes a') = 0 + 3 ∧
    drop 0 (SgUctAllocator.m_nodes a') = SgUctNode.make <$> [3; 4; 5]%Z ∧
    node_at tree' RootRef
      = Some (SgUctNode.SetNuChildren 3
                (SgUctNode.SetFirstChild (Some (mkPtr 0 0))
                   (SgUctNode.make SG_NULLMOVE))) ∧
    (∀ r x, r ≠ RootRef → node_at example_tree r = Some x →
            node_at tree' r = Some x) ∧
    NuNodes tree' = NuNodes example_tree + 3.
Proof.
  apply (CreateChildren_appends 0 RootRef [3; 4; 5]%Z example_tree
           (SgUctNode.make SG_NULLMOVE)
           {| SgUctAllocator.m_nodes := []; SgUctAllocator.m_capacity := 5 |});
    [reflexivity | reflexivity | reflexivity | discriminate].
Defined.

(** C6. With at least one allocator, SetMaxNodes leaves a cleared tree
    (NuNodes is 1, every allocator is empty), records [maxNodes], and gives
    every allocator the capacity [maxNodes / NuAllocators] (rounded down);
    the capacities add up to [NuAllocators] times that quotient. *)
Theorem SetMaxNodes_clears_and_splits (maxNodes : nat) (tree : SgUctTree.t) :
  0 < NuAllocators tree →
  NuNodes (SetMaxNodes maxNodes tree) = 1 ∧
  node_at (SetMaxNodes maxNodes tree) RootRef = Some (SgUctNode.make SG_NULLMOVE) ∧
  MaxNodes (SetMaxNodes maxNodes tree) = maxNodes ∧
  NuAllocators (SetMaxNodes maxNodes tree) = NuAllocators tree ∧
  (∀ i a, Allocator i (SetMaxNodes maxNodes tree) = Some a →
          SgUctAllocator.NuNodes a = 0 ∧
          SgUctAllocator.m_capacity a = maxNodes `div` NuAllocators tree) ∧
  sum_list (capacities (SetMaxNodes maxNodes tree))
    = NuAllocators tree * (maxNodes `div` NuAllocators tree).
Proof.
  intros Hpos. unfold SetMaxNodes.
  assert (NuAllocators (Clear tree) = NuAllocators tree) as HnA.
  { unfold NuAllocators, Clear. simpl. by rewrite length_fmap. }
  rewrite HnA. rewrite decide_False by lia.
  set (q := maxNodes `div` NuAllocators tree).
  assert (∀ i a,
    (SgUctAllocator.SetMaxNodes q <$> (SgUctAllocator.Clear <$> m_allocators tree)) !! i
      = Some a →
    SgUctAllocator.NuNodes a = 0 ∧ SgUctAllocator.m_capacity a = q) as Hall.
  { intros i a. rewrite !list_lookup_fmap.
    destruct (m_allocators tree !! i); [|done]. by intros [= <-]. }
  split_and!; try done.
  - rewrite NuNodes_sizes. unfold sizes. simpl.
    rewrite <- !list_fmap_compose. f_equal.
    clear. induction (m_allocators tree) as [|a l IH]; [done|]. exact IH.
  - unfold NuAllocators. simpl. by rewrite !length_fmap.
  - unfold capacities. simpl. rewrite <- !list_fmap_compose. unfold NuAllocators.
    clear. induction (m_allocators tree) as [|a l IH]; [done|].
    cbn [fmap list_fmap sum_list sum_list_with length] in *.
    rewrite IH. reflexivity.
Qed.

Lemma SetMaxNodes_clears_and_splits_witness :
  let tree := CreateAllocators 3 make in
  NuNodes (SetMaxNodes 10 tree) = 1 ∧
  node_at (SetMaxNodes 10 tree) RootRef = Some (SgUctNode.make SG_NULLMOVE) ∧
  MaxNodes (SetMaxNodes 10 tree) = 10 ∧
  NuAllocators (SetMaxNodes 10 tree) = NuAllocators tree ∧
  (∀ i a, Allocator i (SetMaxNodes 10 tree) = Some a →
          SgUctAllocator.NuNodes a = 0 ∧
          SgUctAllocator.m_capacity a = 10 `div` NuAllocators tree) ∧
  sum_list (capacities (SetMaxNodes 10 tree))
    = NuAllocators tree * (10 `div` NuAllocators tree).
Proof.
  apply (SetMaxNodes_clears_and_splits 10 (CreateAllocators 3 make)).
  unfold NuAllocators. simpl. lia.
Defined.

Lemma sum_list_insert_add (l : list nat) i x k :
  l !! i = Some x → sum_list (<[i := x + k]> l) = sum_list l + k.
Proof.
  revert i. induction l as [|y l IH]; intros [|i] Hl; simplify_eq/=; [lia|].
  rewrite (IH _ Hl). lia.
Qed.

Lemma filter_all {A} (P : A → Prop) `{!∀ x, Decision (P x)} (l : list A) :
  Forall P l → filter P l = l.
Proof.
  induction 1 as [|x l Hx _ IH]; [done|].
  by rewrite filter_cons_True, IH.
Qed.

(** C10. ApplyFilter on a node of the tree whose child block is readable,
    with room in the chosen allocator: the call returns; with k the number
    of children whose move is not in the filter, the chosen allocator grows
    by k nodes and NuNodes by k; every node that existed before, other than
    the filtered node itself, is still there unchanged (so the old child
    block stays in its allocator); no node that existed before is below the
    filtered node any more; and a node without children leaves the tree
    as it is. *)
Theorem ApplyFilter_appends_survivors (allocatorId : nat) (node : NodeRef)
    (rootFilter : list SgMove) (tree : SgUctTree.t)
    (n : SgUctNode.t) (cs : list SgUctNode.t) :
  node_at tree node = Some n →
  Children tree node = Some cs →
  HasRoom allocatorId (SgUctNode.NuChildren n) tree →
  ∃ tree' s,
    ApplyFilter allocatorId node rootFilter tree = Some tree' ∧
    sizes tree !! allocatorId = Some s ∧
    sizes tree'
      = <[allocatorId := s + length (surviving rootFilter cs)]> (sizes tree) ∧
    NuNodes tree' = NuNodes tree + length (surviving rootFilter cs) ∧
    (∀ r x, r ≠ node → node_at tree r = Some x → node_at tree' r = Some x) ∧
    (∀ x, is_Some (node_at tree x) → ¬ Descendant tree' node x) ∧
    (SgUctNode.NuChildren n = 0 → tree' = tree).
Proof.
  intros Hn Hcs Hroom.
  destruct (ApplyFilter_spec allocatorId node rootFilter tree n cs Hn Hcs Hroom)
    as (tree' & s & Hap & Hs & Hch & Hs' & _ & Hold & (n' & Hn' & _) & Hchild & Hz).
  exists tree', s. unfold surviving. split_and!; try done.
  - rewrite (NuNodes_sizes tree'), Hs', (sum_list_insert_add _ _ _ _ Hs).
    rewrite NuNodes_sizes. lia.
  - intros x [y Hy] Hdesc.
    assert (∀ y, Child tree' node y → ∀ z, ¬ Child tree' y z) as Hleaf.
    { intros y0 (n0 & its & it & Hn0 & Hits & Hin & ->) z.
      apply list_elem_of_lookup in Hin as [i Hi].
      destruct (Children_lookup tree' node _ n0 its it i Hn0 Hch Hits Hi)
        as [Hit [c Hc]].
      rewrite Hc in Hit. rewrite list_lookup_fmap in Hc.
      destruct (filter _ cs !! i) as [c0|]; [|done]. injection Hc as <-.
      by eapply Child_make. }
    unfold Descendant in Hdesc.
    inversion Hdesc as [? ? Hstep|? y1 ? Hstep Hrest]; subst.
    + apply Hchild in Hstep. congruence.
    + inversion Hrest as [? ? Hstep2|? y2 ? Hstep2 _]; subst;
        by eapply Hleaf.
Qed.

Lemma ApplyFilter_appends_survivors_witness :
  ∃ tree' s,
    ApplyFilter 1 RootRef [1%Z] filter_example = Some tree' ∧
    sizes filter_example !! 1 = Some s ∧
    sizes tree'
      = <[1 := s + length (surviving [1%Z]
                             [SgUctNode.make 1%Z; filter_example_child])]>
          (sizes filter_example) ∧
    NuNodes tree'
      = NuNodes filter_example
        + length (surviving [1%Z] [SgUctNode.make 1%Z; filter_example_child]) ∧
    (∀ r x, r ≠ RootRef → node_at filter_example r = Some x →
            node_at tree' r = Some x) ∧
    (∀ x, is_Some (node_at filter_example x) → ¬ Descendant tree' RootRef x) ∧
    (SgUctNode.NuChildren (m_root filter_example) = 0 → tree' = filter_example).
Proof.
  apply (ApplyFilter_appends_survivors 1 RootRef [1%Z] filter_example
           (m_root filter_example) [SgUctNode.make 1%Z; filter_example_child]).
  - reflexivity.
  - reflexivity.
  - eexists. split; reflexivity.
Defined.

(** C8. After a first ApplyFilter on a node (asserted preconditions as in
    C10), a second ApplyFilter with the same filter, into any allocator
    with room for the node's children, returns, and the moves of the
    node's children are the same after the second call as after the
    first. *)
Theorem ApplyFilter_twice (allocatorId allocatorId2 : nat) (node : NodeRef)
    (rootFilter : list SgMove) (tree tree1 : SgUctTree.t)
    (n n1 : SgUctNode.t) (cs : list SgUctNode.t) :
  node_at tree node = Some n →
  Children tree node = Some cs →
  HasRoom allocatorId (SgUctNode.NuChildren n) tree →
  ApplyFilter allocatorId node rootFilter tree = Some tree1 →
  node_at tree1 node = Some n1 →
  HasRoom allocatorId2 (SgUctNode.NuChildren n1) tree1 →
  ∃ tree2 moves,
    ApplyFilter allocatorId2 node rootFilter tree1 = Some tree2 ∧
    ChildMoves tree1 node = Some moves ∧
    ChildMoves tree2 node = Some moves.
Proof.
  intros Hn Hcs Hroom Hap Hn1 Hroom1.
  destruct (ApplyFilter_spec allocatorId node rootFilter tree n cs Hn Hcs Hroom)
    as (tree1' & s & Hap' & _ & Hch & _).
  rewrite Hap in Hap'. injection Hap' as <-.
  set (cs1 := (λ c, SgUctNode.make (SgUctNode.Move c))
                <$> filter (λ c, SgUctNode.Move c ∉ rootFilter) cs) in *.
  destruct (ApplyFilter_spec allocatorId2 node rootFilter tree1 n1 cs1
              Hn1 Hch Hroom1) as (tree2 & s2 & Hap2 & _ & Hch2 & _).
  exists tree2, (SgUctNode.Move <$> cs1). split; [done|].
  unfold ChildMoves. rewrite Hch, Hch2. simpl. split; [done|].
  do 2 f_equal.
  assert (filter (λ c, SgUctNode.Move c ∉ rootFilter) cs1 = cs1) as ->.
  { apply filter_all. subst cs1. apply Forall_forall.
    intros c Hc. apply list_elem_of_fmap in Hc as (c0 & -> & Hc0).
    by apply list_elem_of_filter in Hc0 as [? _]. }
  subst cs1. rewrite <- list_fmap_compose. by apply list_fmap_ext.
Qed.

Lemma ApplyFilter_twice_witness :
  ∃ tree2 moves,
    ApplyFilter 0 RootRef [1%Z] filter_example_once = Some tree2 ∧
    ChildMoves filter_example_once RootRef = Some moves ∧
    ChildMoves tree2 RootRef = Some moves.
Proof.
  apply (ApplyFilter_twice 1 0 RootRef [1%Z] filter_example filter_example_once
           (m_root filter_example) (m_root filter_example_once)
           [SgUctNode.make 1%Z; filter_example_child]).
  - reflexivity.
  - reflexivity.
  - eexists. split; reflexivity.
  - reflexivity.
  - reflexivity.
  - eexists. split; reflexivity.
Defined.

(** C1 (the code does not do this). The root of [filter_example] has the
    children 1 and 2; child 2 has been visited (position count 5, move
    value 3/5 over 5 games, RAVE value 1/2 over 2 games) and has one child.
    ApplyFilter with the filter [1] keeps child 2, but the node it puts
    into the new block is a fresh node for move 2: zeroed statistics and no
    children. (The loop pushes the copy of [child] before CopyDataFrom,
    SetNuChildren and SetFirstChild are applied to the local object.) *)
Theorem ApplyFilter_loses_statistics :
  ∃ tree' old new,
    ApplyFilter 1 RootRef [1%Z] filter_example = Some tree' ∧
    Children filter_example RootRef = Some [SgUctNode.make 1%Z; old] ∧
    Children tree' RootRef = Some [new] ∧
    SgUctNode.Move new = SgUctNode.Move old ∧
    data old = mkData 2%Z 5%Z (SgStatisticsBase.Initialize (3 # 5) 5)
                 (SgStatisticsBase.Initialize (1 # 2) 2) ∧
    data new = mkData 2%Z 0%Z SgStatisticsBase.Clear SgStatisticsBase.Clear ∧
    SgUctNode.NuChildren old = 1 ∧ SgUctNode.NuChildren new = 0 ∧
    SgUctNode.FirstChild old = Some (mkPtr 1 0) ∧ SgUctNode.FirstChild new = None.
Proof.
  exists filter_example_once, filter_example_child, (SgUctNode.make 2%Z).
  split_and!; reflexivity.
Qed.

Section Commands.
Import GoUctCommands.
Variable IntOfString : string → option Z.
Variable SizeTypeOfString : string → option N.
Variable BoolOfString : string → option bool.
Variable FloatOfString : string → option Q.
Variable ToLower : string → string.

Lemma SizeTypeArg_below_min (cmd : GtpCommand) (number : nat) (min : N) arg :
  args cmd !! number = Some arg →
  (∀ v, SizeTypeOfString arg = Some v → (v < min)%N) →
  ∃ e, SizeTypeArg SizeTypeOfString number min cmd = inl e.
Proof.
  intros Harg Hlow. unfold SizeTypeArg, read, Arg. rewrite Harg.
  destruct (SizeTypeOfString arg) as [v|] eqn:Hv; [|eauto].
  rewrite decide_True by auto. eauto.
Qed.

Lemma IntArg_below_min (cmd : GtpCommand) (number : nat) (min : Z) arg :
  args cmd !! number = Some arg →
  (∀ v, IntOfString arg = Some v → (v < min)%Z) →
  ∃ e, IntArg IntOfString number min cmd = inl e.
Proof.
  intros Harg Hlow. unfold IntArg, read, Arg. rewrite Harg.
  destruct (IntOfString arg) as [v|] eqn:Hv; [|eauto].
  rewrite decide_True by auto. eauto.
Qed.

Lemma set_throws {A S} (arg : Except A) (setter : A → S → S) (obj : S) e :
  arg = inl e → set arg setter obj = (inl e, obj).
Proof. by intros ->. Qed.

Ltac skip_keys Hnot :=
  repeat (let Hkey := fresh "Hkey" in
          case_decide as Hkey;
          [exfalso; apply Hnot; rewrite Hkey;
           repeat first [apply list_elem_of_here | apply list_elem_of_further]
          |clear Hkey]).

Lemma CmdParamPlayer_rejects name arg (p : GoUctPlayer) :
  player_rejects SizeTypeOfString ToLower name arg →
  ∃ e, CmdParamPlayer SizeTypeOfString BoolOfString FloatOfString ToLower
         (mkCommand [name; arg]) p = (inl e, p).
Proof.
  intros [[Hname Hlow]|[Hnot|[[-> Hbad]|[-> Hbad]]]]; unfold CmdParamPlayer; simpl.
  - destruct (SizeTypeArg_below_min (mkCommand [name; arg]) 1 1 arg eq_refl Hlow)
      as [e He].
    apply elem_of_cons in Hname as [->|Hname];
      [|apply elem_of_cons in Hname as [->|Hname];
        [|by apply elem_of_nil in Hname]];
      simpl; exists e; by apply set_throws.
  - skip_keys Hnot. eauto.
  - unfold set, PriorKnowledgeArg, ArgToLower, Arg. simpl.
    skip_keys Hbad. eauto.
  - unfold set, SearchModeArg, ArgToLower, Arg. simpl.
    skip_keys Hbad. eauto.
Qed.

Lemma CmdParamSearch_rejects name arg (s : GoUctSearch) :
  search_rejects IntOfString SizeTypeOfString ToLower name arg →
  ∃ e, CmdParamSearch IntOfString SizeTypeOfString BoolOfString FloatOfString
         ToLower (mkCommand [name; arg]) s = (inl e, s).
Proof.
  intros [[Hname Hlow]|[[Hname Hlow]|[Hnot|[[-> Hbad]|[-> Hbad]]]]];
    unfold CmdParamSearch; simpl.
  - destruct (SizeTypeArg_below_min (mkCommand [name; arg]) 1 1 arg eq_refl Hlow)
      as [e He].
    apply elem_of_cons in Hname as [->|Hname];
      [|apply elem_of_cons in Hname as [->|Hname];
        [|by apply elem_of_nil in Hname]];
      simpl; exists e; by apply set_throws.
  - destruct (IntArg_below_min (mkCommand [name; arg]) 1 1 arg eq_refl Hlow)
      as [e He].
    apply elem_of_cons in Hname as [->|Hname];
      [|apply elem_of_cons in Hname as [->|Hname];
        [|by apply elem_of_nil in Hname]];
      simpl; exists e; by apply set_throws.
  - skip_keys Hnot. eauto.
  - unfold set, LiveGfxArg, ArgToLower, Arg. simpl.
    skip_keys Hbad. eauto.
  - unfold set, MoveSelectArg, ArgToLower, Arg. simpl.
    skip_keys Hbad. eauto.
Qed.
End Commands.

(** C9. However the argument strings are read: a [uct_param_player]
    command that sets max_games or max_nodes to a value below 1, or names
    an unknown key, or gives prior_knowledge or search_mode an unknown
    value, throws and leaves the player's parameters as they were; a
    [uct_param_search] command that sets expand_threshold, number_threads,
    number_playouts or live_gfx_interval to a value below 1, or names an
    unknown key, or gives live_gfx or move_select an unknown value, throws
    and leaves the parameters of the search as they were. *)
Theorem bad_parameter_rejected
    (IntOfString : string → option Z) (SizeTypeOfString : string → option N)
    (BoolOfString : string → option bool) (FloatOfString : string → option Q)
    (ToLower : string → string) (name arg : string)
    (p : GoUctCommands.GoUctPlayer) (s : GoUctCommands.GoUctSearch) :
  (player_rejects SizeTypeOfString ToLower name arg →
   ∃ e, GoUctCommands.CmdParamPlayer SizeTypeOfString BoolOfString
          FloatOfString ToLower (GoUctCommands.mkCommand [name; arg]) p
        = (inl e, p))
  ∧ (search_rejects IntOfString SizeTypeOfString ToLower name arg →
     ∃ e, GoUctCommands.CmdParamSearch IntOfString SizeTypeOfString
            BoolOfString FloatOfString ToLower
            (GoUctCommands.mkCommand [name; arg]) s
          = (inl e, s)).
Proof.
  split.
  - apply CmdParamPlayer_rejects.
  - apply CmdParamSearch_rejects.
Qed.

Lemma bad_parameter_rejected_witness :
  (∃ e, GoUctCommands.CmdParamPlayer decimal_size zero_one decimal_float id
          (GoUctCommands.mkCommand ["max_nodes"; "0"]) example_player
        = (inl e, example_player))
  ∧ (∃ e, GoUctCommands.CmdParamSearch decimal_int decimal_size zero_one
            decimal_float id
            (GoUctCommands.mkCommand ["number_threads"; "0"]) example_search
          = (inl e, example_search)).
Proof.
  pose proof (bad_parameter_rejected decimal_int decimal_size zero_one
                decimal_float id "max_nodes" "0" example_player example_search)
    as [Hplayer _].
  pose proof (bad_parameter_rejected decimal_int decimal_size zero_one
                decimal_float id "number_threads" "0" example_player
                example_search) as [_ Hsearch].
  split.
  - apply Hplayer. left. split.
    + apply list_elem_of_further, list_elem_of_here.
    + intros v [= <-]. reflexivity.
  - apply Hsearch. left. split.
    + apply list_elem_of_further, list_elem_of_here.
    + intros v [= <-]. reflexivity.
Defined.

Section CopyStep.
Implicit Types (tree : SgUctTree.t) (r : NodeRef) (n : SgUctNode.t)
  (p : NodePtr) (a : SgUctAllocator.t) (st : CopyState).
Variables (env : Env) (maxTime : Q) (src : SgUctTree.t).

Lemma modify_Rewritten r f tree :
  is_Some (node_at tree r) →
  ∃ tree', modify r f tree = Some tree' ∧ Rewritten r f tree tree'.
Proof.
  intros Hr. destruct (modify_is_Some r f tree Hr) as [tree' H].
  exists tree'. split; [done|]. split_and!.
  - by eapply modify_sizes.
  - by eapply modify_capacities.
  - by eapply modify_maxNodes.
  - intros r'. by apply node_at_modify.
Qed.

Lemma Rewritten_trans r f g tree tree1 tree2 :
  Rewritten r f tree tree1 → Rewritten r g tree1 tree2 →
  Rewritten r (g ∘ f) tree tree2.
Proof.
  intros (Hs1 & Hc1 & Hm1 & Hn1) (Hs2 & Hc2 & Hm2 & Hn2).
  split_and!; try congruence.
  intros r'. rewrite Hn2, Hn1. case_decide; [|done].
  by destruct (node_at tree r').
Qed.

Lemma Rewritten_eq r f tree tree' x :
  Rewritten r f tree tree' → node_at tree r = Some x →
  node_at tree' r = Some (f x).
Proof. intros (_ & _ & _ & Hn) Hx. by rewrite Hn, decide_True, Hx. Qed.

Lemma Rewritten_ne r f tree tree' r' :
  Rewritten r f tree tree' → r' ≠ r → node_at tree' r' = node_at tree r'.
Proof. intros (_ & _ & _ & Hn) Hx. by rewrite Hn, decide_False. Qed.

Lemma Rewritten_Allocator r f tree tree' i a' :
  Rewritten r f tree tree' → Allocator i tree' = Some a' →
  ∃ a, Allocator i tree = Some a ∧
       length (SgUctAllocator.m_nodes a) = length (SgUctAllocator.m_nodes a') ∧
       SgUctAllocator.m_capacity a = SgUctAllocator.m_capacity a'.
Proof.
  intros (Hs & Hc & _) Ha'.
  assert (sizes tree !! i = Some (length (SgUctAllocator.m_nodes a'))) as Hsi.
  { by rewrite <- Hs, sizes_lookup, Ha'. }
  assert (capacities tree !! i = Some (SgUctAllocator.m_capacity a')) as Hci.
  { by rewrite <- Hc, capacities_lookup, Ha'. }
  rewrite sizes_lookup in Hsi. rewrite capacities_lookup in Hci.
  destruct (Allocator i tree) as [a|]; [|done].
  injection Hsi as Hsi. injection Hci as Hci. eauto.
Qed.

Lemma Rewritten_Allocator_2 r f tree tree' i a :
  Rewritten r f tree tree' → Allocator i tree = Some a →
  ∃ a', Allocator i tree' = Some a' ∧
       length (SgUctAllocator.m_nodes a) = length (SgUctAllocator.m_nodes a') ∧
       SgUctAllocator.m_capacity a = SgUctAllocator.m_capacity a'.
Proof.
  intros (Hs & Hc & _) Ha.
  assert (sizes tree' !! i = Some (length (SgUctAllocator.m_nodes a))) as Hsi.
  { by rewrite Hs, sizes_lookup, Ha. }
  assert (capacities tree' !! i = Some (SgUctAllocator.m_capacity a)) as Hci.
  { by rewrite Hc, capacities_lookup, Ha. }
  rewrite sizes_lookup in Hsi. rewrite capacities_lookup in Hci.
  destruct (Allocator i tree') as [a'|]; [|done].
  injection Hsi as Hsi. injection Hci as Hci. eauto.
Qed.

Lemma truncates_ext n a a' st :
  length (SgUctAllocator.m_nodes a) = length (SgUctAllocator.m_nodes a') →
  SgUctAllocator.m_capacity a = SgUctAllocator.m_capacity a' →
  truncates env maxTime n a st = truncates env maxTime n a' st ∧
  warnings env maxTime n a st = warnings env maxTime n a' st.
Proof.
  intros Hl Hc. unfold truncates, warnings, SgUctAllocator.HasCapacity.
  by rewrite Hl, Hc.
Qed.

(** CopySubtree, one level unfolded. *)
Lemma CopySubtree_unfold fuel targetNode node st :
  CopySubtree (S fuel) env maxTime src targetNode node st =
  n ← node_at src node;
  tg1 ← modify targetNode (SgUctNode.CopyDataFrom n) (target st);
  if negb (SgUctNode.HasChildren n) then Some (with_target tg1 st)
  else
    a ← Allocator (currentAllocatorId st) tg1;
    if truncates env maxTime n a st then
      tg ← modify targetNode (SgUctNode.SetPosCount 0) tg1;
      Some {| target := tg;
              currentAllocatorId := currentAllocatorId st;
              warnTruncate := false;
              polls := S (polls st);
              debug := debug st ++ warnings env maxTime n a st |}
    else
      let first :=
        {| ptr_alloc := currentAllocatorId st;
           ptr_index := length (SgUctAllocator.m_nodes a) |} in
      tg ← modify targetNode (SgUctNode.SetFirstChild (Some first)) tg1;
      tg ← modify targetNode
             (SgUctNode.SetNuChildren (SgUctNode.NuChildren n)) tg;
      tg ← CopySubtree_create (currentAllocatorId st) (SgUctNode.NuChildren n) tg;
      its ← SgUctNode.ChildPtrs n;
      CopySubtree_recurse (CopySubtree fuel env maxTime src) first its 0
        {| target := tg;
           currentAllocatorId := currentAllocatorId st;
           warnTruncate := warnTruncate st;
           polls := S (polls st);
           debug := debug st ++ warnings env maxTime n a st |}.
Proof. reflexivity. Qed.

(** A source node without children: only the data is copied. *)
Lemma CopySubtree_leaf fuel targetNode node st n x :
  node_at src node = Some n → node_at (target st) targetNode = Some x →
  SgUctNode.HasChildren n = false →
  ∃ tg, Rewritten targetNode (SgUctNode.CopyDataFrom n) (target st) tg ∧
        CopySubtree (S fuel) env maxTime src targetNode node st
        = Some (with_target tg st).
Proof.
  intros Hn Hx Hc. rewrite CopySubtree_unfold, Hn. simpl.
  destruct (modify_Rewritten targetNode (SgUctNode.CopyDataFrom n) (target st))
    as (tg & -> & Hrw); [by eauto|]. simpl. rewrite Hc. simpl. eauto.
Qed.

(** A source node with children at which the copy truncates. *)
Lemma CopySubtree_truncate fuel targetNode node st n x a :
  node_at src node = Some n → node_at (target st) targetNode = Some x →
  SgUctNode.HasChildren n = true →
  Allocator (currentAllocatorId st) (target st) = Some a →
  truncates env maxTime n a st = true →
  ∃ tg, Rewritten targetNode
          (SgUctNode.SetPosCount 0 ∘ SgUctNode.CopyDataFrom n) (target st) tg ∧
        CopySubtree (S fuel) env maxTime src targetNode node st
        = Some {| target := tg;
                  currentAllocatorId := currentAllocatorId st;
                  warnTruncate := false;
                  polls := S (polls st);
                  debug := debug st ++ warnings env maxTime n a st |}.
Proof.
  intros Hn Hx Hc Ha Ht. rewrite CopySubtree_unfold, Hn. simpl.
  destruct (modify_Rewritten targetNode (SgUctNode.CopyDataFrom n) (target st))
    as (tg1 & -> & Hrw1); [by eauto|]. simpl. rewrite Hc. simpl.
  destruct (Rewritten_Allocator_2 _ _ _ _ _ _ Hrw1 Ha) as (a' & -> & Hl & Hcap).
  simpl. destruct (truncates_ext n a a' st Hl Hcap) as [<- <-]. rewrite Ht.
  destruct (modify_Rewritten targetNode (SgUctNode.SetPosCount 0) tg1)
    as (tg & -> & Hrw); [rewrite (Rewritten_eq _ _ _ _ _ Hrw1 Hx); by eauto|].
  simpl. exists tg. split; [|done]. by eapply Rewritten_trans.
Qed.

(** A source node with children that are copied: the target node gets a
    block of fresh nodes, then the children are copied into it. *)
Lemma CopySubtree_copy fuel targetNode node st n x a its :
  node_at src node = Some n → node_at (target st) targetNode = Some x →
  SgUctNode.HasChildren n = true →
  Allocator (currentAllocatorId st) (target st) = Some a →
  truncates env maxTime n a st = false →
  SgUctNode.ChildPtrs n = Some its →
  let first := mkPtr (currentAllocatorId st) (length (SgUctAllocator.m_nodes a)) in
  ∃ tg2 tg3,
    Rewritten targetNode
      (SgUctNode.SetNuChildren (SgUctNode.NuChildren n)
       ∘ SgUctNode.SetFirstChild (Some first)
       ∘ SgUctNode.CopyDataFrom n) (target st) tg2 ∧
    Pushed (currentAllocatorId st)
      (replicate (SgUctNode.NuChildren n) (SgUctNode.make SG_NULLMOVE)) tg2 tg3 ∧
    CopySubtree (S fuel) env maxTime src targetNode node st
    = CopySubtree_recurse (CopySubtree fuel env maxTime src) first its 0
        {| target := tg3;
           currentAllocatorId := currentAllocatorId st;
           warnTruncate := warnTruncate st;
           polls := S (polls st);
           debug := debug st |}.
Proof.
  intros Hn Hx Hc Ha Ht Hits first. rewrite CopySubtree_unfold, Hn. simpl.
  destruct (modify_Rewritten targetNode (SgUctNode.CopyDataFrom n) (target st))
    as (tg1 & -> & Hrw1); [by eauto|]. simpl. rewrite Hc. simpl.
  destruct (Rewritten_Allocator_2 _ _ _ _ _ _ Hrw1 Ha) as (a' & -> & Hl & Hcap).
  simpl. destruct (truncates_ext n a a' st Hl Hcap) as [<- <-]. rewrite Ht.
  rewrite <- Hl. fold first.
  destruct (modify_Rewritten targetNode (SgUctNode.SetFirstChild (Some first)) tg1)
    as (tga & -> & Hrwa); [rewrite (Rewritten_eq _ _ _ _ _ Hrw1 Hx); by eauto|].
  simpl.
  pose proof (Rewritten_trans _ _ _ _ _ _ Hrw1 Hrwa) as Hrw2.
  destruct (modify_Rewritten targetNode
              (SgUctNode.SetNuChildren (SgUctNode.NuChildren n)) tga)
    as (tg2 & -> & Hrwb); [rewrite (Rewritten_eq _ _ _ _ _ Hrw2 Hx); by eauto|].
  simpl.
  pose proof (Rewritten_trans _ _ _ _ _ _ Hrw2 Hrwb) as Hrw3.
  unfold truncates in Ht. apply orb_false_elim in Ht as [Ht Hab].
  apply orb_false_elim in Ht as [Hcp Hto].
  apply negb_false_iff in Hcp.
  destruct (HasCapacity_sizes _ _ _ _ Ha Hcp) as (Hs & Hcs & Hle).
  destruct (CopySubtree_create_Pushed (currentAllocatorId st)
              (SgUctNode.NuChildren n) tg2
              (length (SgUctAllocator.m_nodes a)) (SgUctAllocator.m_capacity a))
    as (tg3 & -> & Hp).
  { destruct Hrw3 as (-> & _). done. }
  { destruct Hrw3 as (_ & -> & _). done. }
  { done. }
  simpl. rewrite Hits. simpl. exists tg2, tg3. split; [done|]. split; [done|].
  unfold warnings.
  rewrite Hcp, Hto, Hab. simpl. by rewrite app_nil_r.
Qed.

(** A call that returns has found the source node and the target node,
    and, for a source node with children, the current target allocator
    and (unless it truncates) the child block of the source node. *)
Lemma CopySubtree_inv fuel targetNode node st st' :
  CopySubtree (S fuel) env maxTime src targetNode node st = Some st' →
  ∃ n x, node_at src node = Some n ∧ node_at (target st) targetNode = Some x ∧
         (SgUctNode.HasChildren n = true →
          ∃ a, Allocator (currentAllocatorId st) (target st) = Some a ∧
               (truncates env maxTime n a st = false →
                is_Some (SgUctNode.ChildPtrs n))).
Proof.
  rewrite CopySubtree_unfold. intros H.
  destruct (node_at src node) as [n|]; [|done]. simpl in H.
  destruct (modify targetNode (SgUctNode.CopyDataFrom n) (target st))
    as [tg1|] eqn:H1; [|done]. simpl in H.
  destruct (modify_Some_inv _ _ _ _ H1) as [x Hx].
  destruct (modify_Rewritten targetNode (SgUctNode.CopyDataFrom n) (target st))
    as (tg1' & H1' & Hrw1); [by eauto|].
  rewrite H1 in H1'. injection H1' as <-.
  exists n, x. split_and!; try done. intros Hc. rewrite Hc in H. simpl in H.
  destruct (Allocator (currentAllocatorId st) tg1) as [a'|] eqn:Ha'; [|done].
  simpl in H.
  destruct (Rewritten_Allocator _ _ _ _ _ _ Hrw1 Ha') as (a & Ha & Hl & Hcap).
  exists a. split; [done|]. intros Ht.
  destruct (truncates_ext n a a' st Hl Hcap) as [Heq _].
  rewrite <- Heq, Ht in H.
  destruct (SgUctNode.ChildPtrs n); [by eauto|].
  simpl in H.
  repeat (match type of H with
          | mbind _ ?o = Some _ => destruct o; simpl in H; [|done]
          end).
  done.
Qed.

(** *** The loop over the children *)

Lemma next_allocator_target st : target (next_allocator st) = target st.
Proof. done. Qed.

(** An invariant of the loop, for a loop that returns. *)
Lemma CopySubtree_recurse_ind (P : nat → CopyState → Prop)
    (copy : NodeRef → NodeRef → CopyState → option CopyState)
    first its i st st' :
  CopySubtree_recurse copy first its i st = Some st' →
  P i st →
  (∀ j child s s',
     its !! j = Some child → P (i + j) s →
     copy (AllocRef (ptr_offset first (i + j))) (AllocRef child)
       (next_allocator s) = Some s' →
     P (S (i + j)) s') →
  P (i + length its) st'.
Proof.
  revert i st. induction its as [|child its IH]; intros i st H HP Hstep.
  - injection H as <-. simpl. by rewrite Nat.add_0_r.
  - cbn [CopySubtree_recurse] in H.
    destruct (copy _ _ (next_allocator st)) as [s1|] eqn:H1; [|done].
    simpl in H. replace (i + length (child :: its)) with (S i + length its)
      by (simpl; lia).
    apply (IH (S i) s1); [done| |].
    + specialize (Hstep 0 child st s1). rewrite Nat.add_0_r in Hstep.
      by apply Hstep.
    + intros j child' s s' Hj HPj Hc.
      replace (S i + j) with (i + S j) in * by lia.
      by apply (Hstep (S j) child' s s').
Qed.

(** An invariant of the loop that makes every call return. *)
Lemma CopySubtree_recurse_total (P : nat → CopyState → Prop)
    (copy : NodeRef → NodeRef → CopyState → option CopyState)
    first its i st :
  P i st →
  (∀ j child s,
     its !! j = Some child → P (i + j) s →
     ∃ s', copy (AllocRef (ptr_offset first (i + j))) (AllocRef child)
             (next_allocator s) = Some s' ∧ P (S (i + j)) s') →
  ∃ st', CopySubtree_recurse copy first its i st = Some st' ∧
         P (i + length its) st'.
Proof.
  revert i st. induction its as [|child its IH]; intros i st HP Hstep.
  - exists st. simpl. by rewrite Nat.add_0_r.
  - cbn [CopySubtree_recurse].
    destruct (Hstep 0 child st) as (s1 & H1 & HP1);
      [done|by rewrite Nat.add_0_r|].
    rewrite Nat.add_0_r in H1, HP1. rewrite H1. simpl.
    replace (i + S (length its)) with (S i + length its) by lia.
    destruct (IH (S i) s1) as (st' & Hr & HP'); [done| |by exists st'].
    intros j child' s Hj HPj.
    replace (S i + j) with (i + S j) in * by lia.
    by apply (Hstep (S j) child' s).
Qed.

(** *** Growth *)

Lemma Grown_refl X tree : Grown X tree tree.
Proof.
  split; [|done]. apply Forall2_lookup. intros i.
  destruct (sizes tree !! i); by constructor.
Qed.

Lemma Grown_weaken (X Y : NodeRef → Prop) tree tree' :
  (∀ r, X r → Y r) → Grown X tree tree' → Grown Y tree tree'.
Proof.
  intros HXY (Hs & Hc & Hm & Hn & He). split_and!; try done.
  intros r x Hr. apply Hn. naive_solver.
Qed.

Lemma Grown_trans (X : NodeRef → Prop) tree tree1 tree2 :
  Grown X tree tree1 → Grown X tree1 tree2 → Grown X tree tree2.
Proof.
  intros (Hs1 & Hc1 & Hm1 & Hn1 & He1) (Hs2 & Hc2 & Hm2 & Hn2 & He2).
  split_and!; try congruence.
  - by etrans.
  - intros r x Hr Hx. by apply Hn2, Hn1.
  - intros r Hr. by apply He2, He1.
Qed.

(** Growth that rewrites only nodes that did not exist before is
    invisible from the old tree. *)
Lemma Grown_trans_new (X Y : NodeRef → Prop) tree tree1 tree2 :
  Grown X tree tree1 → Grown Y tree1 tree2 →
  (∀ r, Y r → node_at tree r = None) →
  Grown X tree tree2.
Proof.
  intros (Hs1 & Hc1 & Hm1 & Hn1 & He1) (Hs2 & Hc2 & Hm2 & Hn2 & He2) Hnew.
  split_and!; try congruence.
  - by etrans.
  - intros r x Hr Hx. apply Hn2; [|by apply Hn1].
    intros HY. apply Hnew in HY. congruence.
  - intros r Hr. by apply He2, He1.
Qed.

Lemma Rewritten_Grown r f tree tree' :
  Rewritten r f tree tree' → Grown (eq r) tree tree'.
Proof.
  intros (Hs & Hc & Hm & Hn). split_and!; try done.
  - rewrite Hs. apply Forall2_lookup. intros i.
    destruct (sizes tree !! i); by constructor.
  - intros r' x Hr Hx. rewrite Hn, decide_False by done. done.
  - intros r' [x Hx]. rewrite Hn. case_decide; rewrite Hx; simpl; eauto.
Qed.

Lemma Pushed_Grown X allocatorId ns tree tree' :
  Pushed allocatorId ns tree tree' → Grown X tree tree'.
Proof.
  intros Hp. pose proof Hp as (s & c & Hs & Hc & Hcap & Hs' & Hc' & Hm & Hn).
  split_and!; try done.
  - rewrite Hs'. apply Forall2_lookup. intros i.
    destruct (decide (i = allocatorId)) as [->|Hne].
    + rewrite list_lookup_insert_eq by (by eapply lookup_lt_Some).
      rewrite Hs. constructor. lia.
    + rewrite list_lookup_insert_ne by done.
      destruct (sizes tree !! i); by constructor.
  - intros r x _ Hx. by eapply Pushed_old.
  - intros r [x Hx]. exists x. by eapply Pushed_old.
Qed.

Lemma Grown_sizes X tree tree' i s :
  Grown X tree tree' → sizes tree !! i = Some s →
  ∃ s', sizes tree' !! i = Some s' ∧ s ≤ s'.
Proof.
  intros (Hs & _) Hi. by apply (Forall2_lookup_l _ _ _ _ _ Hs Hi).
Qed.

Lemma Grown_NuAllocators X tree tree' :
  Grown X tree tree' → NuAllocators tree' = NuAllocators tree.
Proof.
  intros (Hs & _). apply Forall2_length in Hs. by rewrite <- !length_sizes.
Qed.

Lemma Grown_None X tree tree' r :
  Grown X tree tree' → node_at tree' r = None → node_at tree r = None.
Proof.
  intros (_ & _ & _ & _ & He) Hr. apply eq_None_not_Some. intros H.
  apply He in H. rewrite Hr in H. by destruct H.
Qed.

(** What CopySubtree leaves alone: every node of the target tree other
    than the target node. *)
Lemma CopySubtree_Grown fuel targetNode node st st' :
  CopySubtree fuel env maxTime src targetNode node st = Some st' →
  Grown (eq targetNode) (target st) (target st').
Proof.
  revert targetNode node st st'.
  induction fuel as [|fuel IH]; intros targetNode node st st' H; [done|].
  destruct (CopySubtree_inv _ _ _ _ _ H) as (n & x & Hn & Hx & Hch).
  destruct (SgUctNode.HasChildren n) eqn:Hc.
  - destruct (Hch eq_refl) as (a & Ha & Hits).
    destruct (truncates env maxTime n a st) eqn:Ht.
    + destruct (CopySubtree_truncate fuel _ _ _ _ _ _ Hn Hx Hc Ha Ht)
        as (tg & Hrw & Heq).
      rewrite Heq in H. injection H as <-. by eapply Rewritten_Grown.
    + destruct (Hits eq_refl) as [its Hits'].
      destruct (CopySubtree_copy fuel _ _ _ _ _ _ _ Hn Hx Hc Ha Ht Hits')
        as (tg2 & tg3 & Hrw & Hp & Heq).
      rewrite Heq in H.
      assert (Grown (eq targetNode) (target st) tg3) as H3.
      { eapply Grown_trans; [by eapply Rewritten_Grown|by eapply Pushed_Grown]. }
      apply (CopySubtree_recurse_ind
               (λ _ s, Grown (eq targetNode) (target st) (target s))) in H;
        [done|done|].
      intros j child s s' Hj HP Hcopy. apply IH in Hcopy.
      eapply Grown_trans_new; [done|done|].
      intros r <-.
      apply (node_at_None _ _ (length (SgUctAllocator.m_nodes a)));
        [|simpl; lia].
      simpl. rewrite sizes_lookup. by rewrite Ha.
  - destruct (CopySubtree_leaf fuel _ _ _ _ _ Hn Hx Hc) as (tg & Hrw & Heq).
    rewrite Heq in H. injection H as <-. by eapply Rewritten_Grown.
Qed.

(** *** Validity *)

Lemma block_ok_sizes tree n :
  block_ok tree n ↔
  (SgUctNode.HasChildren n = true →
   ∃ first s, SgUctNode.FirstChild n = Some first ∧
              sizes tree !! ptr_alloc first = Some s ∧
              ptr_index first + SgUctNode.NuChildren n ≤ s).
Proof.
  unfold block_ok. destruct (SgUctNode.HasChildren n); [|done].
  destruct (SgUctNode.FirstChild n) as [first|].
  - pose proof (sizes_lookup tree (ptr_alloc first)) as Hs.
    destruct (Allocator (ptr_alloc first) tree) as [a|]; simpl in Hs.
    + split; [by eauto|]. intros H.
      destruct (H eq_refl) as (first' & s & [= <-] & Hs' & Hle).
      rewrite Hs in Hs'. by injection Hs' as <-.
    + split; [done|]. intros H.
      destruct (H eq_refl) as (first' & s & [= <-] & Hs' & Hle).
      by rewrite Hs in Hs'.
  - split; [done|]. intros H. by destruct (H eq_refl) as (? & ? & ? & ? & ?).
Qed.

Lemma block_ok_Grown X tree tree' n :
  Grown X tree tree' → block_ok tree n → block_ok tree' n.
Proof.
  rewrite !block_ok_sizes. intros Hg H Hc.
  destruct (H Hc) as (first & s & Hf & Hs & Hle).
  destruct (Grown_sizes _ _ _ _ _ Hg Hs) as (s' & Hs' & Hle').
  exists first, s'. split_and!; [done|done|lia].
Qed.

Lemma block_ok_no_children tree n :
  SgUctNode.NuChildren n = 0 → block_ok tree n.
Proof.
  intros Hz. apply block_ok_sizes. unfold SgUctNode.HasChildren.
  unfold SgUctNode.NuChildren in Hz. rewrite Hz.
  by rewrite bool_decide_eq_false_2 by lia.
Qed.

Lemma Valid_alt tree :
  Valid tree ↔
  (∀ r n, node_at tree r = Some n → block_ok tree n) ∧
  Forall2 le (sizes tree) (capacities tree).
Proof.
  unfold Valid. split.
  - intros [Hroot Hall]. split.
    + intros [|p] n; simpl.
      * by intros [= <-].
      * unfold Allocator.
        destruct (m_allocators tree !! ptr_alloc p) as [a|] eqn:Ha; [|done].
        simpl. intros Hn.
        apply (Forall_lookup_1 _ _ _ _ Hall) in Ha as [_ Ha].
        by apply (Forall_lookup_1 _ _ _ _ Ha) in Hn.
    + unfold sizes, capacities. apply Forall2_fmap. apply Forall_Forall2_diag.
      eapply Forall_impl; [done|]. by intros a [? _].
  - intros [Hn Hs]. split; [by apply (Hn RootRef)|].
    apply Forall_lookup. intros i a Ha. split.
    + apply (Forall2_lookup_lr _ _ _ i _ _ Hs).
      * rewrite sizes_lookup. unfold Allocator. by rewrite Ha.
      * rewrite capacities_lookup. unfold Allocator. by rewrite Ha.
    + apply Forall_lookup. intros j n Hj.
      apply (Hn (AllocRef (mkPtr i j))). simpl. unfold Allocator.
      by rewrite Ha.
Qed.

(** CopySubtree keeps the target tree valid, whether it truncates or
    not. *)
Lemma CopySubtree_Valid fuel targetNode node st st' :
  CopySubtree fuel env maxTime src targetNode node st = Some st' →
  Valid (target st) → Valid (target st').
Proof.
  revert targetNode node st st'.
  induction fuel as [|fuel IH]; intros targetNode node st st' H Hv; [done|].
  destruct (CopySubtree_inv _ _ _ _ _ H) as (n & x & Hn & Hx & Hch).
  assert (∀ f tg, Rewritten targetNode f (target st) tg →
            SgUctNode.FirstChild (f x) = SgUctNode.FirstChild x →
            SgUctNode.NuChildren (f x) = SgUctNode.NuChildren x →
            Valid tg) as Hdata.
  { intros f tg Hrw Hf Hk. pose proof (Rewritten_Grown _ _ _ _ Hrw) as Hg.
    apply Valid_alt in Hv as [Hv1 Hv2]. apply Valid_alt. split.
    - intros r y Hy. destruct Hrw as (_ & _ & _ & Hview).
      rewrite Hview in Hy. case_decide as Hr.
      + subst r. rewrite Hx in Hy. injection Hy as <-.
        apply (block_ok_Grown _ _ _ _ Hg). specialize (Hv1 _ _ Hx).
        revert Hv1. rewrite !block_ok_sizes.
        unfold SgUctNode.HasChildren, SgUctNode.NuChildren in *.
        by rewrite Hf, Hk.
      + by eapply block_ok_Grown, Hv1.
    - destruct Hrw as (-> & -> & _). done. }
  destruct (SgUctNode.HasChildren n) eqn:Hc.
  - destruct (Hch eq_refl) as (a & Ha & Hits).
    destruct (truncates env maxTime n a st) eqn:Ht.
    + destruct (CopySubtree_truncate fuel _ _ _ _ _ _ Hn Hx Hc Ha Ht)
        as (tg & Hrw & Heq).
      rewrite Heq in H. injection H as <-. simpl. by eapply Hdata.
    + destruct (Hits eq_refl) as [its Hits'].
      destruct (CopySubtree_copy fuel _ _ _ _ _ _ _ Hn Hx Hc Ha Ht Hits')
        as (tg2 & tg3 & Hrw & Hp & Heq).
      rewrite Heq in H.
      apply (CopySubtree_recurse_ind (λ _ s, Valid (target s))) in H;
        [done| |by eauto].
      (* the tree with the fresh block is valid *)
      simpl.
      pose proof (Grown_trans _ _ _ _ (Rewritten_Grown _ _ _ _ Hrw)
                    (Pushed_Grown (eq targetNode) _ _ _ _ Hp)) as Hg.
      pose proof Hp as (s0 & c0 & Hs0 & Hc0 & Hcap0 & Hs3 & Hc3 & _ & Hview3).
      pose proof Hrw as (Hs2 & Hc2 & _ & Hview2).
      assert (sizes (target st) !! currentAllocatorId st
              = Some (length (SgUctAllocator.m_nodes a))) as Hsa
        by (by rewrite sizes_lookup, Ha).
      rewrite Hs2, Hsa in Hs0. injection Hs0 as <-.
      rewrite length_replicate in Hs3, Hcap0.
      apply Valid_alt in Hv as [Hv1 Hv2]. apply Valid_alt. split.
      * intros r y Hy. rewrite Hview3 in Hy.
        assert (node_at tg2 r = Some y → block_ok tg3 y) as Hold.
        { rewrite Hview2. case_decide as Hr.
          - subst r. rewrite Hx. intros [= <-]. apply block_ok_sizes.
            intros _. eexists _, _. split; [done|]. simpl.
            rewrite Hs3, list_lookup_insert_eq
              by (rewrite Hs2; by eapply lookup_lt_Some).
            done.
          - intros Hy'. by eapply block_ok_Grown, Hv1. }
        destruct r as [|p]; [by apply Hold|].
        case_decide as Hnew; [|by apply Hold].
        apply lookup_replicate in Hy as [-> _].
        by apply block_ok_no_children.
      * rewrite Hc3, Hc2, Hs3, Hs2.
        apply Forall2_lookup. intros i.
        destruct (decide (i = currentAllocatorId st)) as [->|Hne].
        -- rewrite list_lookup_insert_eq by (by eapply lookup_lt_Some).
           rewrite Hc2 in Hc0. rewrite Hc0. constructor.
           apply Hcap0. unfold SgUctNode.HasChildren in Hc.
           apply bool_decide_eq_true in Hc.
           unfold SgUctNode.NuChildren.
           intros Hrep. apply (f_equal length) in Hrep.
           rewrite length_replicate in Hrep. simpl in Hrep. lia.
        -- rewrite list_lookup_insert_ne by done.
           apply (Forall2_lookup _ _ _). done.
  - destruct (CopySubtree_leaf fuel _ _ _ _ _ Hn Hx Hc) as (tg & Hrw & Heq).
    rewrite Heq in H. injection H as <-. simpl. by eapply Hdata.
Qed.

(** *** Warnings *)

Lemma Warned_refl st : Warned st st.
Proof. by left. Qed.

Lemma Warned_trans st st1 st2 :
  Warned st st1 → Warned st1 st2 → Warned st st2.
Proof.
  intros [[Hd1 Hw1]|(Hw1 & Hw1' & msgs1 & Hne1 & Hsub1 & Hd1)]
         [[Hd2 Hw2]|(Hw2 & Hw2' & msgs2 & Hne2 & Hsub2 & Hd2)].
  - left. split; congruence.
  - right. split_and!; [congruence|done|]. exists msgs2.
    split_and!; [done|done|congruence].
  - right. split_and!; [done|congruence|]. exists msgs1.
    split_and!; [done|done|congruence].
  - congruence.
Qed.

Lemma Warned_flag st st' :
  Warned st st' → warnTruncate st' = true → warnTruncate st = true.
Proof. intros [[_ <-]|(_ & -> & _)]; done. Qed.

Lemma warnings_sublist n a st :
  warnings env maxTime n a st
    `sublist_of` [MSG_CAPACITY; MSG_MAXTIME; MSG_ABORTED].
Proof.
  unfold warnings.
  destruct (negb _), (IsTimeOut _ _ _), (SgUserAbort _ _), (warnTruncate st);
    simpl; repeat constructor.
Qed.

Lemma warnings_off n a st :
  warnTruncate st = false → warnings env maxTime n a st = [].
Proof.
  unfold warnings. intros ->. by rewrite !andb_false_r.
Qed.

Lemma warnings_on n a st :
  warnTruncate st = true → truncates env maxTime n a st = true →
  warnings env maxTime n a st ≠ [].
Proof.
  unfold warnings, truncates. intros ->.
  destruct (negb _), (IsTimeOut _ _ _), (SgUserAbort _ _); simpl; done.
Qed.

Lemma CopySubtree_recurse_Warned copy first its i st st' :
  (∀ targetNode node s s', copy targetNode node s = Some s' → Warned s s') →
  CopySubtree_recurse copy first its i st = Some st' → Warned st st'.
Proof.
  intros Hcopy H.
  apply (CopySubtree_recurse_ind (λ _ s, Warned st s)) in H;
    [done|apply Warned_refl|].
  intros j child s s' _ HP Hc. apply Hcopy in Hc.
  eapply Warned_trans; [done|]. done.
Qed.

Lemma CopySubtree_Warned fuel targetNode node st st' :
  CopySubtree fuel env maxTime src targetNode node st = Some st' →
  Warned st st'.
Proof.
  revert targetNode node st st'.
  induction fuel as [|fuel IH]; intros targetNode node st st' H; [done|].
  destruct (CopySubtree_inv _ _ _ _ _ H) as (n & x & Hn & Hx & Hch).
  destruct (SgUctNode.HasChildren n) eqn:Hc.
  - destruct (Hch eq_refl) as (a & Ha & Hits).
    destruct (truncates env maxTime n a st) eqn:Ht.
    + destruct (CopySubtree_truncate fuel _ _ _ _ _ _ Hn Hx Hc Ha Ht)
        as (tg & Hrw & Heq).
      rewrite Heq in H. injection H as <-.
      destruct (warnTruncate st) eqn:Hw.
      * right. split_and!; [done..|]. eexists. split_and!; [| |done].
        -- by apply warnings_on.
        -- apply warnings_sublist.
      * left. simpl. rewrite warnings_off by done. by rewrite app_nil_r.
    + destruct (Hits eq_refl) as [its Hits'].
      destruct (CopySubtree_copy fuel _ _ _ _ _ _ _ Hn Hx Hc Ha Ht Hits')
        as (tg2 & tg3 & Hrw & Hp & Heq).
      rewrite Heq in H.
      apply CopySubtree_recurse_Warned in H; [|by eauto].
      destruct H as [[Hd Hw]|(Hw & Hw' & msgs & ?)]; [by left|].
      right. split_and!; [done..|]. by exists msgs.
  - destruct (CopySubtree_leaf fuel _ _ _ _ _ Hn Hx Hc) as (tg & Hrw & Heq).
    rewrite Heq in H. injection H as <-. by left.
Qed.

(** *** The flag [warnTruncate] does not influence the copy *)

Lemma CopySubtree_recurse_same copy first its i st1 st2 st1' :
  (∀ targetNode node s1 s2 s1',
     same_copy s1 s2 → copy targetNode node s1 = Some s1' →
     ∃ s2', copy targetNode node s2 = Some s2' ∧ same_copy s1' s2') →
  same_copy st1 st2 →
  CopySubtree_recurse copy first its i st1 = Some st1' →
  ∃ st2', CopySubtree_recurse copy first its i st2 = Some st2' ∧
          same_copy st1' st2'.
Proof.
  intros Hcopy. revert i st1 st2.
  induction its as [|child its IH]; intros i st1 st2 Hsame H.
  - injection H as <-. by exists st2.
  - cbn [CopySubtree_recurse] in *.
    destruct (copy _ _ (next_allocator st1)) as [s1|] eqn:H1; [|done].
    simpl in H.
    assert (same_copy (next_allocator st1) (next_allocator st2)) as Hnext.
    { destruct Hsame as (Ht & Ha & Hp). unfold same_copy, next_allocator.
      simpl. by rewrite Ht, Ha. }
    destruct (Hcopy _ _ _ _ _ Hnext H1) as (s2 & -> & Hsame').
    simpl. by apply (IH _ s1).
Qed.

Lemma CopySubtree_same fuel targetNode node st1 st2 st1' :
  same_copy st1 st2 →
  CopySubtree fuel env maxTime src targetNode node st1 = Some st1' →
  ∃ st2', CopySubtree fuel env maxTime src targetNode node st2 = Some st2' ∧
          same_copy st1' st2'.
Proof.
  revert targetNode node st1 st2 st1'.
  induction fuel as [|fuel IH]; intros targetNode node st1 st2 st1' Hsame H;
    [done|].
  destruct st1 as [tg1 al1 w1 p1 d1], st2 as [tg2 al2 w2 p2 d2].
  destruct Hsame as (Ht & Hal & Hp). simpl in Ht, Hal, Hp. subst tg2 al2 p2.
  rewrite CopySubtree_unfold in H |- *. simpl in H |- *.
  destruct (node_at src node) as [n|]; [|done]. simpl in H |- *.
  destruct (modify targetNode (SgUctNode.CopyDataFrom n) tg1) as [tga|];
    [|done]. simpl in H |- *.
  destruct (negb (SgUctNode.HasChildren n)).
  { injection H as <-. eexists. split; [done|]. done. }
  destruct (Allocator al1 tga) as [a|]; [|done]. simpl in H |- *.
  change (truncates env maxTime n a (mkCopyState tg1 al1 w2 p1 d2))
    with (truncates env maxTime n a (mkCopyState tg1 al1 w1 p1 d1)).
  destruct (truncates env maxTime n a (mkCopyState tg1 al1 w1 p1 d1)).
  { destruct (modify targetNode (SgUctNode.SetPosCount 0) tga) as [tgb|];
      [|done]. simpl in H |- *.
    injection H as <-. eexists. split; [done|]. done. }
  destruct (modify targetNode _ tga) as [tgb|]; [|done]. simpl in H |- *.
  destruct (modify targetNode _ tgb) as [tgc|]; [|done]. simpl in H |- *.
  destruct (CopySubtree_create al1 (SgUctNode.NuChildren n) tgc) as [tgd|];
    [|done]. simpl in H |- *.
  destruct (SgUctNode.ChildPtrs n) as [its|]; [|done]. simpl in H |- *.
  eapply CopySubtree_recurse_same; [| |exact H].
  - intros ? ? ? ? ? ? ?. by eapply IH.
  - done.
Qed.
End CopyStep.

Section CopyCorrect.
Implicit Types (tree : SgUctTree.t) (r : NodeRef) (n : SgUctNode.t)
  (p : NodePtr) (a : SgUctAllocator.t) (st : CopyState) (T : RTree).
Variables (env : Env) (maxTime : Q) (src : SgUctTree.t).

Lemma Forall2_impl_elem {A B} (P Q : A → B → Prop) (l : list A) (k : list B) :
  Forall2 P l k → (∀ x y, x ∈ l → y ∈ k → P x y → Q x y) → Forall2 Q l k.
Proof.
  induction 1 as [|x y l k Hxy _ IH]; intros HPQ; constructor.
  - apply HPQ; [apply list_elem_of_here..|done].
  - apply IH. intros x' y' Hx' Hy'. apply HPQ; by apply list_elem_of_further.
Qed.

Lemma unfold_S fuel tree r :
  unfold (S fuel) tree r =
  n ← node_at tree r;
  its ← SgUctNode.ChildPtrs n;
  children ← mapM (λ it, unfold fuel tree (AllocRef it)) its;
  Some (RNode r n children).
Proof. reflexivity. Qed.

Lemma refs_RNode r n (children : list RTree) :
  refs (RNode r n children) = r :: mjoin (refs <$> children).
Proof. reflexivity. Qed.

Lemma elem_of_refs_children (children : list RTree) T x :
  T ∈ children → x ∈ refs T → x ∈ mjoin (refs <$> children).
Proof.
  intros HT Hx. apply list_elem_of_join. exists (refs T). split; [done|].
  apply list_elem_of_fmap. eauto.
Qed.

(** The unfolding of a subtree looks only at the nodes of the subtree. *)
Lemma unfold_ext fuel tree tree' r T :
  unfold fuel tree r = Some T →
  (∀ x y, x ∈ refs T → node_at tree x = Some y → node_at tree' x = Some y) →
  unfold fuel tree' r = Some T.
Proof.
  revert r T. induction fuel as [|fuel IH]; intros r T H Hsame; [done|].
  rewrite unfold_S in H |- *.
  destruct (node_at tree r) as [n|] eqn:Hn; [|done]. simpl in H.
  destruct (SgUctNode.ChildPtrs n) as [its|] eqn:Hits; [|done]. simpl in H.
  destruct (mapM _ its) as [children|] eqn:Hch; [|done]. simpl in H.
  injection H as <-.
  rewrite (Hsame r n); [|rewrite refs_RNode; apply list_elem_of_here|done].
  simpl. rewrite Hits. simpl.
  assert (mapM (λ it, unfold fuel tree' (AllocRef it)) its = Some children)
    as ->; [|done].
  apply mapM_Some. apply mapM_Some in Hch.
  eapply Forall2_impl_elem; [done|].
  intros it T _ HT HitT. apply IH; [done|].
  intros x y Hx. apply Hsame. rewrite refs_RNode.
  apply list_elem_of_further. by eapply elem_of_refs_children.
Qed.

Lemma ptr_offset_inj first i j :
  AllocRef (ptr_offset first i) = AllocRef (ptr_offset first j) → i = j.
Proof. unfold ptr_offset. intros [= H]. lia. Qed.

(** The loop over the children rewrites only the nodes of the block it
    copies into. *)
Lemma CopySubtree_recurse_Grown fuel first its i st st' :
  CopySubtree_recurse (CopySubtree fuel env maxTime src) first its i st
  = Some st' →
  Grown (λ r, ∃ j, i ≤ j < i + length its ∧ r = AllocRef (ptr_offset first j))
    (target st) (target st').
Proof.
  intros H.
  apply (CopySubtree_recurse_ind
           (λ k s, Grown (λ r, ∃ j, i ≤ j < k
                                    ∧ r = AllocRef (ptr_offset first j))
                     (target st) (target s))) in H; [done|apply Grown_refl|].
  intros j child s s' Hj HP Hc. apply CopySubtree_Grown in Hc.
  rewrite next_allocator_target in Hc.
  eapply Grown_trans.
  - eapply Grown_weaken; [|exact HP]. intros r (j' & ? & ->). exists j'.
    split; [lia|done].
  - eapply Grown_weaken; [|exact Hc]. intros r <-. exists (i + j).
    split; [lia|done].
Qed.

Lemma mapM_fmap_l {A B C} (f : B → option C) (g : A → B) (l : list A) :
  mapM f (g <$> l) = mapM (f ∘ g) l.
Proof.
  induction l as [|x l IH]; [done|]. simpl.
  fold (fmap (M:=list) g l). by rewrite IH.
Qed.

Section Children.
Variable fuel : nat.
Hypothesis copy_ok :
  ∀ targetNode node st st' T x,
    CopySubtree fuel env maxTime src targetNode node st = Some st' →
    warnTruncate st' = true →
    unfold fuel src node = Some T →
    node_at (target st) targetNode = Some x → SgUctNode.NuChildren x = 0 →
    ∃ T', unfold fuel (target st') targetNode = Some T' ∧ shape T' = shape T ∧
          (∀ r, r ∈ refs T' → r = targetNode ∨ node_at (target st) r = None) ∧
          NuNodes (target st') + 1 = NuNodes (target st) + length (refs T).

Lemma CopySubtree_recurse_copies first its i st st' (cs : list RTree) :
  CopySubtree_recurse (CopySubtree fuel env maxTime src) first its i st
  = Some st' →
  warnTruncate st' = true →
  mapM (λ it, unfold fuel src (AllocRef it)) its = Some cs →
  (∀ j, i ≤ j < i + length its →
        ∃ x, node_at (target st) (AllocRef (ptr_offset first j)) = Some x
             ∧ SgUctNode.NuChildren x = 0) →
  ∃ Ts : list RTree,
    mapM (λ j, unfold fuel (target st') (AllocRef (ptr_offset first j)))
      (seq i (length its)) = Some Ts ∧
    shape <$> Ts = shape <$> cs ∧
    (∀ r, r ∈ mjoin (refs <$> Ts) →
          (∃ j, i ≤ j < i + length its ∧ r = AllocRef (ptr_offset first j))
          ∨ node_at (target st) r = None) ∧
    NuNodes (target st') + length its
    = NuNodes (target st) + length (mjoin (refs <$> cs)).
Proof.
  revert i st cs. induction its as [|child its IH]; intros i st cs H Hw Hcs Hfresh.
  - injection H as <-. apply mapM_Some in Hcs.
    apply Forall2_nil_inv_l in Hcs as ->. exists []. simpl.
    split_and!; [done|done| |lia]. intros r Hr. by apply elem_of_nil in Hr.
  - apply mapM_Some in Hcs.
    apply Forall2_cons_inv_l in Hcs as (T0 & cs' & HT0 & Hcs' & ->).
    apply mapM_Some in Hcs'.
    cbn [CopySubtree_recurse] in H.
    destruct (CopySubtree fuel env maxTime src _ _ (next_allocator st))
      as [s1|] eqn:H1; [|done]. simpl in H.
    assert (warnTruncate s1 = true) as Hw1.
    { eapply Warned_flag; [|done]. eapply CopySubtree_recurse_Warned; [|done].
      intros ????. apply CopySubtree_Warned. }
    destruct (Hfresh i) as (x & Hx & Hxz); [simpl; lia|].
    destruct (copy_ok _ _ _ _ _ _ H1 Hw1 HT0 Hx Hxz)
      as (T0' & HT0' & Hsh0 & Hrefs0 & Hnu0).
    pose proof (CopySubtree_Grown _ _ _ _ _ _ _ _ H1) as Hg1.
    rewrite next_allocator_target in Hg1, Hrefs0, Hnu0.
    destruct (IH (S i) s1 cs' H Hw Hcs') as (Ts & HTs & Hsh & Hrefs & Hnu).
    { intros j Hj. destruct (Hfresh j) as (y & Hy & Hyz); [simpl; lia|].
      exists y. split; [|done]. destruct Hg1 as (_ & _ & _ & Hold & _).
      apply Hold; [|done]. intros Heq. apply ptr_offset_inj in Heq. lia. }
    pose proof (CopySubtree_recurse_Grown _ _ _ _ _ _ H) as Hg2.
    assert (unfold fuel (target st') (AllocRef (ptr_offset first i)) = Some T0')
      as HT0''.
    { eapply unfold_ext; [done|]. intros r y Hr Hy.
      destruct Hg2 as (_ & _ & _ & Hold & _). apply Hold; [|done].
      intros (j & Hj & ->).
      destruct (Hrefs0 _ Hr) as [Heq|Hnone].
      - apply ptr_offset_inj in Heq. lia.
      - destruct (Hfresh j) as (z & Hz & _); [simpl; lia|]. congruence. }
    exists (T0' :: Ts). split_and!.
    + apply mapM_Some. cbn [length seq]. constructor; [done|].
      by apply mapM_Some.
    + csimpl. by rewrite Hsh0, Hsh.
    + intros r Hr. csimpl in Hr. apply elem_of_app in Hr as [Hr|Hr].
      * destruct (Hrefs0 _ Hr) as [->|Hnone]; [|by right].
        left. exists i. split; [simpl; lia|done].
      * destruct (Hrefs _ Hr) as [(j & Hj & ->)|Hnone].
        -- left. exists j. split; [simpl; lia|done].
        -- right. by eapply Grown_None.
    + csimpl. rewrite length_app. lia.
Qed.
End Children.

Lemma Rewritten_NuNodes r f tree tree' :
  Rewritten r f tree tree' → NuNodes tree' = NuNodes tree.
Proof. intros (Hs & _). by rewrite !NuNodes_sizes, Hs. Qed.

(** A copy that does not truncate reproduces the source subtree below the
    target node, out of the target node and of nodes that did not exist
    before. *)
Lemma CopySubtree_copies fuel targetNode node st st' T x :
  CopySubtree fuel env maxTime src targetNode node st = Some st' →
  warnTruncate st' = true →
  unfold fuel src node = Some T →
  node_at (target st) targetNode = Some x → SgUctNode.NuChildren x = 0 →
  ∃ T', unfold fuel (target st') targetNode = Some T' ∧ shape T' = shape T ∧
        (∀ r, r ∈ refs T' → r = targetNode ∨ node_at (target st) r = None) ∧
        NuNodes (target st') + 1 = NuNodes (target st) + length (refs T).
Proof.
  revert targetNode node st st' T x.
  induction fuel as [|fuel IH]; intros targetNode node st st' T x H Hw HT Hx Hxz;
    [done|].
  destruct (CopySubtree_inv _ _ _ _ _ _ _ _ H) as (n & x' & Hn & Hx' & Hch).
  rewrite Hx in Hx'. injection Hx' as <-.
  rewrite unfold_S, Hn in HT. simpl in HT.
  destruct (SgUctNode.ChildPtrs n) as [its|] eqn:Hits; [|done]. simpl in HT.
  destruct (mapM _ its) as [cs|] eqn:Hcs; [|done]. simpl in HT.
  injection HT as <-.
  destruct (SgUctNode.HasChildren n) eqn:Hc.
  - destruct (Hch eq_refl) as (a & Ha & _).
    destruct (truncates env maxTime n a st) eqn:Ht.
    { destruct (CopySubtree_truncate env maxTime src fuel _ _ _ _ _ _
                  Hn Hx Hc Ha Ht) as (tg & Hrw & Heq).
      rewrite Heq in H. injection H as <-. done. }
    destruct (CopySubtree_copy env maxTime src fuel _ _ _ _ _ _ _
                Hn Hx Hc Ha Ht Hits) as (tg2 & tg3 & Hrw & Hp & Heq).
    rewrite Heq in H. clear Heq.
    set (first := mkPtr (currentAllocatorId st)
                    (length (SgUctAllocator.m_nodes a))) in *.
    pose proof (ChildPtrs_length _ _ Hits) as Hlen.
    assert (sizes (target st) !! currentAllocatorId st
            = Some (length (SgUctAllocator.m_nodes a))) as Hsa
      by (by rewrite sizes_lookup, Ha).
    assert (sizes tg2 !! currentAllocatorId st
            = Some (length (SgUctAllocator.m_nodes a))) as Hsa2
      by (destruct Hrw as (-> & _); done).
    assert (∀ j, node_at (target st) (AllocRef (ptr_offset first j)) = None)
      as Hnew.
    { intros j. apply (node_at_None _ (ptr_offset first j) _ Hsa). simpl. lia. }
    assert (Grown (eq targetNode) (target st) tg3) as Hg3.
    { eapply Grown_trans; [by eapply Rewritten_Grown|by eapply Pushed_Grown]. }
    destruct (CopySubtree_recurse_copies fuel (IH) first its 0 _ st' cs H Hw Hcs)
      as (Ts & HTs & Hsh & Hrefs & Hnu).
    { intros j Hj. exists (SgUctNode.make SG_NULLMOVE). split; [|done].
      etrans; [exact (Pushed_new _ _ _ _ _ j Hp Hsa2)|].
      apply lookup_replicate. split; [done|]. lia. }
    simpl in Hrefs, Hnu.
    pose proof (CopySubtree_recurse_Grown _ _ _ _ _ _ H) as Hg. simpl in Hg.
    assert (node_at (target st') targetNode
            = Some (SgUctNode.SetNuChildren (SgUctNode.NuChildren n)
                      (SgUctNode.SetFirstChild (Some first)
                         (SgUctNode.CopyDataFrom n x)))) as Htn.
    { destruct Hg as (_ & _ & _ & Hold & _). apply Hold.
      - intros (j & _ & ->). by rewrite Hnew in Hx.
      - eapply Pushed_old; [done|].
        by rewrite (Rewritten_eq _ _ _ _ _ Hrw Hx). }
    eexists. split_and!.
    + rewrite unfold_S, Htn. simpl.
      rewrite (ChildPtrs_block _ first) by done. simpl.
      rewrite mapM_fmap_l. rewrite <- Hlen.
      unfold compose. rewrite HTs. simpl. done.
    + simpl. by rewrite Hsh.
    + intros r Hr. rewrite refs_RNode in Hr.
      apply elem_of_cons in Hr as [->|Hr]; [by left|]. right.
      destruct (Hrefs _ Hr) as [(j & _ & ->)|Hnone]; [done|].
      by eapply Grown_None.
    + rewrite refs_RNode. simpl.
      rewrite (Pushed_NuNodes _ _ _ _ Hp), (Rewritten_NuNodes _ _ _ _ Hrw) in Hnu.
      rewrite length_replicate in Hnu. lia.
  - destruct (CopySubtree_leaf env maxTime src fuel _ _ _ _ _ Hn Hx Hc)
      as (tg & Hrw & Heq).
    rewrite Heq in H. injection H as <-.
    change (target (with_target tg st)) with tg.
    assert (its = []) as ->.
    { unfold SgUctNode.ChildPtrs in Hits. rewrite Hc in Hits. by injection Hits. }
    apply mapM_Some in Hcs. apply Forall2_nil_inv_l in Hcs as ->.
    eexists. split_and!.
    + rewrite unfold_S, (Rewritten_eq _ _ _ _ _ Hrw Hx). simpl.
      rewrite ChildPtrs_no_children by done. simpl. done.
    + done.
    + intros r Hr. rewrite refs_RNode in Hr.
      apply elem_of_cons in Hr as [->|Hr]; [by left|].
      by apply elem_of_nil in Hr.
    + rewrite (Rewritten_NuNodes _ _ _ _ Hrw). simpl. lia.
Qed.

(** *** CopySubtree returns *)

Lemma next_allocator_bound st :
  currentAllocatorId st < NuAllocators (target st) →
  currentAllocatorId (next_allocator st) < NuAllocators (target st).
Proof. unfold next_allocator. simpl. intros H. case_decide; lia. Qed.

(** On a source subtree that unfolds within the fuel, with an existing
    target node and a current allocator of the target tree, CopySubtree
    returns. *)
Lemma CopySubtree_total fuel targetNode node st T :
  unfold fuel src node = Some T →
  is_Some (node_at (target st) targetNode) →
  currentAllocatorId st < NuAllocators (target st) →
  ∃ st', CopySubtree fuel env maxTime src targetNode node st = Some st' ∧
         currentAllocatorId st' < NuAllocators (target st').
Proof.
  revert targetNode node st T.
  induction fuel as [|fuel IH]; intros targetNode node st T HT [x Hx] Hal;
    [done|].
  rewrite unfold_S in HT.
  destruct (node_at src node) as [n|] eqn:Hn; [|done]. simpl in HT.
  destruct (SgUctNode.ChildPtrs n) as [its|] eqn:Hits; [|done]. simpl in HT.
  destruct (mapM _ its) as [cs|] eqn:Hcs; [|done]. clear HT.
  destruct (lookup_lt_is_Some_2 (m_allocators (target st)) _ Hal) as [a Ha].
  change (Allocator (currentAllocatorId st) (target st) = Some a) in Ha.
  destruct (SgUctNode.HasChildren n) eqn:Hc.
  - destruct (truncates env maxTime n a st) eqn:Ht.
    + destruct (CopySubtree_truncate env maxTime src fuel _ _ _ _ _ _
                  Hn Hx Hc Ha Ht) as (tg & Hrw & Heq).
      rewrite Heq. eexists. split; [done|]. simpl.
      by rewrite (Grown_NuAllocators _ _ _ (Rewritten_Grown _ _ _ _ Hrw)).
    + destruct (CopySubtree_copy env maxTime src fuel _ _ _ _ _ _ _
                  Hn Hx Hc Ha Ht Hits) as (tg2 & tg3 & Hrw & Hp & Heq).
      rewrite Heq. clear Heq.
      set (first := mkPtr (currentAllocatorId st)
                      (length (SgUctAllocator.m_nodes a))) in *.
      pose proof (ChildPtrs_length _ _ Hits) as Hlen.
      assert (sizes tg2 !! currentAllocatorId st
              = Some (length (SgUctAllocator.m_nodes a))) as Hsa2.
      { destruct Hrw as (-> & _). by rewrite sizes_lookup, Ha. }
      assert (NuAllocators tg3 = NuAllocators (target st)) as HnA.
      { rewrite (Pushed_NuAllocators _ _ _ _ Hp).
        by rewrite (Grown_NuAllocators _ _ _ (Rewritten_Grown _ _ _ _ Hrw)). }
      destruct (CopySubtree_recurse_total
                  (λ _ s, Grown (λ _, True) tg3 (target s)
                          ∧ currentAllocatorId s < NuAllocators (target s))
                  (CopySubtree fuel env maxTime src) first its 0
                  {| target := tg3;
                     currentAllocatorId := currentAllocatorId st;
                     warnTruncate := warnTruncate st;
                     polls := S (polls st);
                     debug := debug st |})
        as (st' & Hrec & _ & Hbound).
      { simpl. split; [apply Grown_refl|by rewrite HnA]. }
      { intros j child s Hj [Hg Hb].
        apply mapM_Some in Hcs.
        destruct (Forall2_lookup_l _ _ _ _ _ Hcs Hj) as (Tc & _ & HTc).
        destruct (IH (AllocRef (ptr_offset first (0 + j))) (AllocRef child)
                    (next_allocator s) Tc HTc) as (s' & Hs' & Hb').
        - rewrite next_allocator_target.
          destruct Hg as (_ & _ & _ & _ & Hex). apply Hex.
          exists (SgUctNode.make SG_NULLMOVE).
          etrans; [exact (Pushed_new _ _ _ _ _ j Hp Hsa2)|].
          apply lookup_replicate. split; [done|].
          apply lookup_lt_Some in Hj. lia.
        - rewrite next_allocator_target. by apply next_allocator_bound.
        - exists s'. split; [done|]. split; [|done].
          apply CopySubtree_Grown in Hs'.
          rewrite next_allocator_target in Hs'.
          eapply Grown_trans; [done|]. by eapply Grown_weaken. }
      exists st'. done.
  - destruct (CopySubtree_leaf env maxTime src fuel _ _ _ _ _ Hn Hx Hc)
      as (tg & Hrw & Heq).
    rewrite Heq. eexists. split; [done|]. simpl.
    by rewrite (Grown_NuAllocators _ _ _ (Rewritten_Grown _ _ _ _ Hrw)).
Qed.
End CopyCorrect.

Section Extract.
Implicit Types (tree : SgUctTree.t) (r : NodeRef) (n : SgUctNode.t)
  (p : NodePtr) (a : SgUctAllocator.t) (st : CopyState) (T : RTree).

Lemma Clear_sizes tree : Forall (eq 0) (sizes (Clear tree)).
Proof.
  unfold sizes, Clear. simpl. rewrite <- list_fmap_compose.
  apply Forall_fmap. by apply Forall_true.
Qed.

Lemma NuNodes_Clear tree : NuNodes (Clear tree) = 1.
Proof.
  rewrite NuNodes_sizes. pose proof (Clear_sizes tree) as H.
  induction H as [|s l <- _ IH]; [done|]. simpl in *. lia.
Qed.

Lemma NuAllocators_Clear tree : NuAllocators (Clear tree) = NuAllocators tree.
Proof. unfold NuAllocators, Clear. simpl. by rewrite length_fmap. Qed.

Lemma Valid_Clear tree : Valid (Clear tree).
Proof.
  apply Valid_alt. split.
  - intros [|p] n; simpl.
    + intros [= <-]. by apply block_ok_no_children.
    + unfold Allocator, Clear. simpl. rewrite list_lookup_fmap.
      destruct (m_allocators tree !! ptr_alloc p); simpl; [|done].
      by rewrite lookup_nil.
  - apply Forall2_lookup. intros i.
    rewrite sizes_lookup, capacities_lookup. unfold Allocator, Clear. simpl.
    rewrite list_lookup_fmap.
    destruct (m_allocators tree !! i); simpl; constructor. lia.
Qed.

(** The nodes of an unfolded subtree are the nodes reachable from its
    root. *)
Lemma unfold_root fuel tree r T :
  unfold fuel tree r = Some T →
  ∃ n children, T = RNode r n children ∧ node_at tree r = Some n.
Proof.
  destruct fuel as [|fuel]; [done|]. rewrite unfold_S.
  destruct (node_at tree r) as [n|]; [|done]. simpl.
  destruct (SgUctNode.ChildPtrs n) as [its|]; [|done]. simpl.
  destruct (mapM _ its) as [cs|]; [|done]. simpl. intros [= <-]. eauto.
Qed.

Lemma refs_Reachable_1 fuel tree r T x :
  unfold fuel tree r = Some T → x ∈ refs T → Reachable tree r x.
Proof.
  revert r T x. induction fuel as [|fuel IH]; intros r T x H Hx; [done|].
  rewrite unfold_S in H.
  destruct (node_at tree r) as [n|] eqn:Hn; [|done]. simpl in H.
  destruct (SgUctNode.ChildPtrs n) as [its|] eqn:Hits; [|done]. simpl in H.
  destruct (mapM _ its) as [cs|] eqn:Hcs; [|done]. simpl in H.
  injection H as <-. rewrite refs_RNode in Hx.
  apply elem_of_cons in Hx as [->|Hx]; [apply rtc_refl|].
  apply list_elem_of_join in Hx as (l & Hx & Hl).
  apply list_elem_of_fmap in Hl as (c & -> & Hc).
  apply list_elem_of_lookup in Hc as [i Hi].
  apply mapM_Some in Hcs.
  destruct (Forall2_lookup_r _ _ _ _ _ Hcs Hi) as (it & Hit & Hc).
  eapply rtc_l; [|by eapply IH].
  exists n, its, it. split_and!; try done. by eapply list_elem_of_lookup_2.
Qed.

Lemma refs_closed fuel tree r T y x :
  unfold fuel tree r = Some T → y ∈ refs T → Child tree y x → x ∈ refs T.
Proof.
  revert r T y x. induction fuel as [|fuel IH]; intros r T y x H Hy Hyx; [done|].
  rewrite unfold_S in H.
  destruct (node_at tree r) as [n|] eqn:Hn; [|done]. simpl in H.
  destruct (SgUctNode.ChildPtrs n) as [its|] eqn:Hits; [|done]. simpl in H.
  destruct (mapM _ its) as [cs|] eqn:Hcs; [|done]. simpl in H.
  injection H as <-. rewrite refs_RNode in Hy |- *.
  apply mapM_Some in Hcs. apply list_elem_of_further.
  apply elem_of_cons in Hy as [->|Hy].
  - destruct Hyx as (n' & its' & it & Hn' & Hits' & Hit & ->).
    simplify_eq. apply list_elem_of_lookup in Hit as [i Hi].
    destruct (Forall2_lookup_l _ _ _ _ _ Hcs Hi) as (c & Hc & Hu).
    eapply elem_of_refs_children; [by eapply list_elem_of_lookup_2|].
    destruct (unfold_root _ _ _ _ Hu) as (? & ? & -> & _).
    rewrite refs_RNode. apply list_elem_of_here.
  - apply list_elem_of_join in Hy as (l & Hy & Hl).
    apply list_elem_of_fmap in Hl as (c & -> & Hc).
    pose proof Hc as Hc'.
    apply list_elem_of_lookup in Hc as [i Hi].
    destruct (Forall2_lookup_r _ _ _ _ _ Hcs Hi) as (it & Hit & Hu).
    eapply elem_of_refs_children; [done|]. by eapply IH.
Qed.

Lemma refs_Reachable fuel tree r T x :
  unfold fuel tree r = Some T → x ∈ refs T ↔ Reachable tree r x.
Proof.
  intros H. split; [by eapply refs_Reachable_1|].
  revert x. apply (rtc_ind_r (λ x, x ∈ refs T)).
  - destruct (unfold_root _ _ _ _ H) as (? & ? & -> & _).
    rewrite refs_RNode. apply list_elem_of_here.
  - intros y z _ Hyz Hy. by eapply refs_closed.
Qed.

Lemma ExtractSubtree_unfold fuel env src target0 node warn maxTime :
  ExtractSubtree fuel env src target0 node warn maxTime =
  CopySubtree fuel env maxTime src RootRef node
    (mkCopyState (Clear target0) 0 warn 0 []).
Proof. reflexivity. Qed.
End Extract.

(** C4. Let the subtree of the source below [node] unfold (within the
    fuel) to [T], a tree: no node occurs twice in it. [refs T] then lists
    the nodes reachable from [node], each once. If the extraction
    truncates at no node, it returns, for either value of
    [warnTruncate]; the target tree has as many nodes as are reachable
    from [node] in the source ([NuNodes] counts the root); and the target
    unfolds from its root to a tree with the same data at every node and
    the same child structure. *)
Theorem ExtractSubtree_copies_all (fuel : nat) (env : Env)
    (src target0 : SgUctTree.t) (node : NodeRef) (warn : bool) (maxTime : Q)
    (T : RTree) :
  unfold fuel src node = Some T →
  NoDup (refs T) →
  Untruncated fuel env src target0 node maxTime →
  (∀ x, x ∈ refs T ↔ Reachable src node x) ∧
  ∃ r T',
    ExtractSubtree fuel env src target0 node warn maxTime = Some r ∧
    NuNodes (target r) = length (refs T) ∧
    unfold fuel (target r) RootRef = Some T' ∧
    shape T' = shape T.
Proof.
  intros HT _ Hun. split; [intros x; by eapply refs_Reachable|].
  unfold Untruncated in Hun. rewrite ExtractSubtree_unfold in Hun |- *.
  destruct (CopySubtree fuel env maxTime src RootRef node
              (mkCopyState (Clear target0) 0 true 0 [])) as [r0|] eqn:H0;
    [|done].
  injection Hun as Hw.
  destruct (CopySubtree_copies env maxTime src fuel RootRef node _ r0 T
              (SgUctNode.make SG_NULLMOVE) H0 Hw HT)
    as (T' & HT' & Hsh & _ & Hnu); [done|done|].
  simpl in Hnu. rewrite NuNodes_Clear in Hnu.
  destruct (CopySubtree_same env maxTime src fuel RootRef node
              (mkCopyState (Clear target0) 0 true 0 [])
              (mkCopyState (Clear target0) 0 warn 0 []) r0)
    as (r & Hr & Hsame & _); [done|done|].
  exists r, T'. rewrite <- Hsame. split_and!; [done|lia|done|done].
Qed.

Lemma ExtractSubtree_copies_all_witness :
  (∀ x, x ∈ refs extract_example_unfolded
        ↔ Reachable extract_example RootRef x) ∧
  ∃ r T',
    ExtractSubtree 3 quiet_env extract_example roomy_target RootRef false 1
    = Some r ∧
    NuNodes (target r) = length (refs extract_example_unfolded) ∧
    unfold 3 (target r) RootRef = Some T' ∧
    shape T' = shape extract_example_unfolded.
Proof.
  apply (ExtractSubtree_copies_all 3 quiet_env extract_example roomy_target
           RootRef false 1 extract_example_unfolded).
  - reflexivity.
  - apply (bool_decide_unpack _). exact I.
  - reflexivity.
Defined.

(** *** The warnings of an extraction *)

Section FirstWarning.
Implicit Types (st : CopyState).
Variables (env : Env) (maxTime : Q) (src : SgUctTree.t).

Lemma WarnedOnce_refl st : WarnedOnce env maxTime src st st.
Proof. by left. Qed.

Lemma WarnedOnce_trans st st1 st2 :
  WarnedOnce env maxTime src st st1 → WarnedOnce env maxTime src st1 st2 →
  WarnedOnce env maxTime src st st2.
Proof.
  intros [[Hd1 Hw1]|(Hw1 & Hw1' & H1)] [[Hd2 Hw2]|(Hw2 & Hw2' & H2)].
  - left. split; congruence.
  - right. split_and!; [congruence|done|].
    destruct H2 as (node & n & a & st0 & ? & ? & ? & ? & ? & Hd).
    exists node, n, a, st0. split_and!; try done. congruence.
  - right. split_and!; [done|congruence|].
    destruct H1 as (node & n & a & st0 & ? & ? & ? & ? & ? & Hd).
    exists node, n, a, st0. split_and!; try done. congruence.
  - congruence.
Qed.

Lemma CopySubtree_recurse_WarnedOnce copy first its i st st' :
  (∀ targetNode node s s',
     copy targetNode node s = Some s' → WarnedOnce env maxTime src s s') →
  CopySubtree_recurse copy first its i st = Some st' →
  WarnedOnce env maxTime src st st'.
Proof.
  intros Hcopy H.
  apply (CopySubtree_recurse_ind (λ _ s, WarnedOnce env maxTime src st s)) in H;
    [done|apply WarnedOnce_refl|].
  intros j child s s' _ HP Hc. apply Hcopy in Hc.
  eapply WarnedOnce_trans; [done|]. done.
Qed.

Lemma CopySubtree_WarnedOnce fuel targetNode node st st' :
  CopySubtree fuel env maxTime src targetNode node st = Some st' →
  WarnedOnce env maxTime src st st'.
Proof.
  revert targetNode node st st'.
  induction fuel as [|fuel IH]; intros targetNode node st st' H; [done|].
  destruct (CopySubtree_inv _ _ _ _ _ _ _ _ H) as (n & x & Hn & Hx & Hch).
  destruct (SgUctNode.HasChildren n) eqn:Hc.
  - destruct (Hch eq_refl) as (a & Ha & Hits).
    destruct (truncates env maxTime n a st) eqn:Ht.
    + destruct (CopySubtree_truncate env maxTime src fuel _ _ _ _ _ _
                  Hn Hx Hc Ha Ht) as (tg & Hrw & Heq).
      rewrite Heq in H. injection H as <-.
      destruct (warnTruncate st) eqn:Hw.
      * right. split_and!; [done..|]. by exists node, n, a, st.
      * left. simpl. rewrite warnings_off by done. by rewrite app_nil_r.
    + destruct (Hits eq_refl) as [its Hits'].
      destruct (CopySubtree_copy env maxTime src fuel _ _ _ _ _ _ _
                  Hn Hx Hc Ha Ht Hits') as (tg2 & tg3 & Hrw & Hp & Heq).
      rewrite Heq in H.
      apply CopySubtree_recurse_WarnedOnce in H; [|by eauto].
      destruct H as [[Hd Hw]|(Hw & Hw' & Hex)]; [by left|].
      right. split_and!; [done..|]. exact Hex.
  - destruct (CopySubtree_leaf env maxTime src fuel _ _ _ _ _ Hn Hx Hc)
      as (tg & Hrw & Heq).
    rewrite Heq in H. injection H as <-. by left.
Qed.

Lemma warnings_single n a st :
  warnTruncate st = true → nuReasons env maxTime n a st = 1 →
  ∃ msg, warnings env maxTime n a st = [msg].
Proof.
  unfold warnings, nuReasons. intros ->.
  destruct (negb _), (IsTimeOut _ _ _), (SgUserAbort _ _); simpl;
    intros H; try lia; eauto.
Qed.

End FirstWarning.

(** C3 (as amended). Take an extraction that satisfies the assertions of
    ExtractSubtree, from a source subtree that unfolds within the fuel,
    into a target with at least one allocator.

    The extraction returns and the target it leaves is valid (every child
    block is a range of existing nodes, no allocator exceeds its
    capacity). With [warnTruncate] unset nothing is written. With
    [warnTruncate] set, either the flag is still set at the end and
    nothing was written (no node truncated), or the flag is cleared and
    what was written is the warning of one test of CopySubtree: a test at
    a source node with children, made while the flag was set, at which
    the copy truncated.

    At every call of CopySubtree on a source node that has children, when
    the current target allocator lacks capacity for the child block, or
    the deadline has passed, or the abort flag is raised: the call returns
    at once; the target node holds the data of the source node with the
    position count 0 and its child links are not touched; no node is
    added and no other node changes; the flag [warnTruncate] is cleared;
    and what is written is the warning of this test.

    A call of CopySubtree that is entered with the flag cleared leaves it
    cleared and writes nothing.

    A call of CopySubtree on a source node without children returns at
    once: the target node holds the data of the source node, position
    count included; the timer and the abort flag are not polled, and the
    flag [warnTruncate] and the debug stream stay as they are.

    With the flag set, the warning of a test at which a single
    truncation reason holds is a single message. *)
Theorem extraction_truncates (fuel : nat) (env : Env)
    (src target0 : SgUctTree.t) (node : NodeRef) (warn : bool) (maxTime : Q)
    (T : RTree) :
  unfold fuel src node = Some T →
  ExtractSubtree_asserts src target0 node →
  0 < NuAllocators target0 →
  (∃ r, ExtractSubtree fuel env src target0 node warn maxTime = Some r ∧
        Valid (target r) ∧
        (warn = false → debug r = []) ∧
        (warn = true →
         (warnTruncate r = true ∧ debug r = [])
         ∨ (warnTruncate r = false ∧
            ∃ node' n a st,
              node_at src node' = Some n ∧
              SgUctNode.HasChildren n = true ∧
              Allocator (currentAllocatorId st) (target st) = Some a ∧
              warnTruncate st = true ∧
              truncates env maxTime n a st = true ∧
              debug r = warnings env maxTime n a st))) ∧
  (∀ fuel' targetNode node' st n x a,
     node_at src node' = Some n →
     SgUctNode.HasChildren n = true →
     node_at (target st) targetNode = Some x →
     Allocator (currentAllocatorId st) (target st) = Some a →
     truncates env maxTime n a st = true →
     ∃ tg,
       CopySubtree (S fuel') env maxTime src targetNode node' st
       = Some {| target := tg;
                 currentAllocatorId := currentAllocatorId st;
                 warnTruncate := false;
                 polls := S (polls st);
                 debug := debug st ++ warnings env maxTime n a st |} ∧
       node_at tg targetNode
       = Some (SgUctNode.SetPosCount 0 (SgUctNode.CopyDataFrom n x)) ∧
       SgUctNode.PosCount (SgUctNode.SetPosCount 0 (SgUctNode.CopyDataFrom n x))
       = 0%Z ∧
       SgUctNode.NuChildren (SgUctNode.SetPosCount 0 (SgUctNode.CopyDataFrom n x))
       = SgUctNode.NuChildren x ∧
       sizes tg = sizes (target st) ∧
       (∀ r, r ≠ targetNode → node_at tg r = node_at (target st) r)) ∧
  (∀ fuel' targetNode node' st st',
     CopySubtree fuel' env maxTime src targetNode node' st = Some st' →
     warnTruncate st = false →
     warnTruncate st' = false ∧ debug st' = debug st) ∧
  (∀ fuel' targetNode node' st n x,
     node_at src node' = Some n →
     SgUctNode.HasChildren n = false →
     node_at (target st) targetNode = Some x →
     ∃ tg,
       CopySubtree (S fuel') env maxTime src targetNode node' st
       = Some {| target := tg;
                 currentAllocatorId := currentAllocatorId st;
                 warnTruncate := warnTruncate st;
                 polls := polls st;
                 debug := debug st |} ∧
       node_at tg targetNode = Some (SgUctNode.CopyDataFrom n x) ∧
       SgUctNode.PosCount (SgUctNode.CopyDataFrom n x) = SgUctNode.PosCount n ∧
       sizes tg = sizes (target st) ∧
       (∀ r, r ≠ targetNode → node_at tg r = node_at (target st) r)) ∧
  (∀ n a st,
     warnTruncate st = true → nuReasons env maxTime n a st = 1 →
     ∃ msg, warnings env maxTime n a st = [msg]).
Proof.
  intros HT _ Hpos. split_and!.
  - rewrite ExtractSubtree_unfold.
    destruct (CopySubtree_total env maxTime src fuel RootRef node
                (mkCopyState (Clear target0) 0 warn 0 []) T HT)
      as (r & Hr & _);
      [by eauto|simpl; by rewrite NuAllocators_Clear|].
    exists r. split; [done|].
    pose proof (CopySubtree_Valid _ _ _ _ _ _ _ _ Hr (Valid_Clear _)) as Hv.
    pose proof (CopySubtree_WarnedOnce _ _ _ _ _ _ _ _ Hr) as Hwarned.
    split; [done|].
    destruct Hwarned as [[Hd Hw]|(Hw & Hw' & Hex)]; simpl in *.
    + split.
      * done.
      * intros ->. left. by rewrite Hw.
    + split.
      * intros ->. done.
      * intros _. right. split; [done|]. exact Hex.
  - intros fuel' targetNode node' st n x a Hn Hc Hx Ha Ht.
    destruct (CopySubtree_truncate env maxTime src fuel' _ _ _ _ _ _
                Hn Hx Hc Ha Ht) as (tg & Hrw & Heq).
    exists tg. split_and!; try done.
    + by rewrite (Rewritten_eq _ _ _ _ _ Hrw Hx).
    + by destruct Hrw as (? & _).
    + intros r Hr. by eapply Rewritten_ne.
  - intros fuel' targetNode node' st st' Hcopy Hoff.
    apply CopySubtree_Warned in Hcopy
      as [[Hd Hw]|(Hw & _)]; [|congruence].
    split; congruence.
  - intros fuel' targetNode node' st n x Hn Hc Hx.
    destruct (CopySubtree_leaf env maxTime src fuel' _ _ _ _ _ Hn Hx Hc)
      as (tg & Hrw & Heq).
    exists tg. split_and!; try done.
    + by rewrite (Rewritten_eq _ _ _ _ _ Hrw Hx).
    + by destruct Hrw as (? & _).
    + intros r Hr. by eapply Rewritten_ne.
  - intros n a st. apply warnings_single.
Qed.

Lemma extraction_truncates_witness :
  (∃ r, ExtractSubtree 3 abort_env extract_example roomy_target RootRef true 1
        = Some r ∧
        Valid (target r) ∧
        (true = false → debug r = []) ∧
        (true = true →
         (warnTruncate r = true ∧ debug r = [])
         ∨ (warnTruncate r = false ∧
            ∃ node' n a st,
              node_at extract_example node' = Some n ∧
              SgUctNode.HasChildren n = true ∧
              Allocator (currentAllocatorId st) (target st) = Some a ∧
              warnTruncate st = true ∧
              truncates abort_env 1 n a st = true ∧
              debug r = warnings abort_env 1 n a st))) ∧
  (∀ fuel' targetNode node' st n x a,
     node_at extract_example node' = Some n →
     SgUctNode.HasChildren n = true →
     node_at (target st) targetNode = Some x →
     Allocator (currentAllocatorId st) (target st) = Some a →
     truncates abort_env 1 n a st = true →
     ∃ tg,
       CopySubtree (S fuel') abort_env 1 extract_example targetNode node' st
       = Some {| target := tg;
                 currentAllocatorId := currentAllocatorId st;
                 warnTruncate := false;
                 polls := S (polls st);
                 debug := debug st ++ warnings abort_env 1 n a st |} ∧
       node_at tg targetNode
       = Some (SgUctNode.SetPosCount 0 (SgUctNode.CopyDataFrom n x)) ∧
       SgUctNode.PosCount (SgUctNode.SetPosCount 0 (SgUctNode.CopyDataFrom n x))
       = 0%Z ∧
       SgUctNode.NuChildren (SgUctNode.SetPosCount 0 (SgUctNode.CopyDataFrom n x))
       = SgUctNode.NuChildren x ∧
       sizes tg = sizes (target st) ∧
       (∀ r, r ≠ targetNode → node_at tg r = node_at (target st) r)) ∧
  (∀ fuel' targetNode node' st st',
     CopySubtree fuel' abort_env 1 extract_example targetNode node' st
     = Some st' →
     warnTruncate st = false →
     warnTruncate st' = false ∧ debug st' = debug st) ∧
  (∀ fuel' targetNode node' st n x,
     node_at extract_example node' = Some n →
     SgUctNode.HasChildren n = false →
     node_at (target st) targetNode = Some x →
     ∃ tg,
       CopySubtree (S fuel') abort_env 1 extract_example targetNode node' st
       = Some {| target := tg;
                 currentAllocatorId := currentAllocatorId st;
                 warnTruncate := warnTruncate st;
                 polls := polls st;
                 debug := debug st |} ∧
       node_at tg targetNode = Some (SgUctNode.CopyDataFrom n x) ∧
       SgUctNode.PosCount (SgUctNode.CopyDataFrom n x) = SgUctNode.PosCount n ∧
       sizes tg = sizes (target st) ∧
       (∀ r, r ≠ targetNode → node_at tg r = node_at (target st) r)) ∧
  (∀ n a st,
     warnTruncate st = true → nuReasons abort_env 1 n a st = 1 →
     ∃ msg, warnings abort_env 1 n a st = [msg]).
Proof.
  apply (extraction_truncates 3 abort_env extract_example roomy_target
           RootRef true 1 extract_example_unfolded).
  - reflexivity.
  - split; reflexivity.
  - unfold NuAllocators. simpl. lia.
Defined.

(** C3 as it is stated fails in three ways, each on a source and a
    target with the same maximum number of nodes. With [warnTruncate]
    unset a truncated extraction writes no warning. With the deadline
    passed and the abort flag raised at the same node, it writes two
    warnings. And with the abort flag raised, a source node without
    children is copied as it is: the flag is not even polled, and the
    position count stays. *)
Lemma single_warning_counterexample :
  ExtractSubtree_asserts extract_example roomy_target RootRef ∧
  ExtractSubtree_asserts leaf_example roomy_target RootRef ∧
  (∃ r, ExtractSubtree 3 abort_env extract_example roomy_target RootRef false 1
        = Some r ∧
        SgUctNode.PosCount (m_root extract_example) = 9%Z ∧
        SgUctNode.PosCount (m_root (target r)) = 0%Z ∧
        NuNodes (target r) = 1 ∧
        debug r = []) ∧
  (∃ r, ExtractSubtree 3 timeout_abort_env extract_example roomy_target
          RootRef true 1
        = Some r ∧
        debug r = [MSG_MAXTIME; MSG_ABORTED]) ∧
  (∃ r, ExtractSubtree 3 abort_env leaf_example roomy_target RootRef true 1
        = Some r ∧
        SgUserAbort abort_env 0 = true ∧
        SgUctNode.PosCount (m_root (target r)) = 5%Z ∧
        warnTruncate r = true ∧ debug r = []).
Proof.
  split; [split; reflexivity|]. split; [split; reflexivity|].
  split_and!; eexists; split_and!; reflexivity.
Qed.

Section Fits.
Implicit Types (tree : SgUctTree.t) (r : NodeRef) (n : SgUctNode.t)
  (p : NodePtr) (a : SgUctAllocator.t) (st : CopyState) (T : RTree).
Variables (env : Env) (maxTime : Q) (src : SgUctTree.t).
Hypothesis quiet : Quiet env maxTime.

Lemma refs_nonempty T : 1 ≤ length (refs T).
Proof. destruct T. simpl. lia. Qed.

Lemma refs_children_length (cs : list RTree) :
  length cs ≤ length (mjoin (refs <$> cs)).
Proof.
  induction cs as [|T cs IH]; [done|]. csimpl. rewrite length_app.
  pose proof (refs_nonempty T). lia.
Qed.

Lemma size_le_NuNodes tree i s : sizes tree !! i = Some s → s < NuNodes tree.
Proof.
  rewrite NuNodes_sizes. generalize (sizes tree). intros l. revert i.
  induction l as [|x l IH]; intros [|i] H; simplify_eq/=; [lia|].
  apply IH in H. lia.
Qed.

Lemma Grown_capacities X tree tree' :
  Grown X tree tree' → capacities tree' = capacities tree.
Proof. by intros (_ & ? & _). Qed.

Section Children.
Variables (fuel : nat) (M : nat).
Hypothesis fits :
  ∀ targetNode node st st' T x,
    CopySubtree fuel env maxTime src targetNode node st = Some st' →
    warnTruncate st = true →
    unfold fuel src node = Some T →
    node_at (target st) targetNode = Some x → SgUctNode.NuChildren x = 0 →
    Forall (le M) (capacities (target st)) →
    NuNodes (target st) + length (refs T) ≤ M + 2 →
    warnTruncate st' = true.

Lemma CopySubtree_recurse_fits first its i st st' (cs : list RTree) :
  CopySubtree_recurse (CopySubtree fuel env maxTime src) first its i st
  = Some st' →
  warnTruncate st = true →
  mapM (λ it, unfold fuel src (AllocRef it)) its = Some cs →
  (∀ j, i ≤ j < i + length its →
        ∃ x, node_at (target st) (AllocRef (ptr_offset first j)) = Some x
             ∧ SgUctNode.NuChildren x = 0) →
  Forall (le M) (capacities (target st)) →
  NuNodes (target st) + length (mjoin (refs <$> cs)) ≤ M + 1 + length its →
  warnTruncate st' = true.
Proof.
  revert i st cs.
  induction its as [|child its IH]; intros i st cs H Hw Hcs Hfresh Hcap Hnu.
  - by injection H as <-.
  - apply mapM_Some in Hcs.
    apply Forall2_cons_inv_l in Hcs as (T0 & cs' & HT0 & Hcs' & ->).
    pose proof (Forall2_length _ _ _ Hcs') as Hlen.
    apply mapM_Some in Hcs'.
    cbn [CopySubtree_recurse] in H.
    destruct (CopySubtree fuel env maxTime src _ _ (next_allocator st))
      as [s1|] eqn:H1; [|done]. simpl in H.
    csimpl in Hnu. rewrite length_app in Hnu.
    pose proof (refs_children_length cs') as Hge.
    destruct (Hfresh i) as (x & Hx & Hxz); [simpl; lia|].
    assert (warnTruncate s1 = true) as Hw1.
    { apply (fits _ _ _ _ _ _ H1 Hw HT0 Hx Hxz);
        rewrite next_allocator_target; [done|lia]. }
    destruct (CopySubtree_copies env maxTime src fuel _ _ _ _ _ _
                H1 Hw1 HT0 Hx Hxz) as (_ & _ & _ & _ & Hn).
    rewrite next_allocator_target in Hn.
    pose proof (CopySubtree_Grown _ _ _ _ _ _ _ _ H1) as Hg1.
    rewrite next_allocator_target in Hg1.
    apply (IH (S i) s1 cs'); try done.
    + intros j Hj. destruct (Hfresh j) as (y & Hy & Hyz); [simpl; lia|].
      exists y. split; [|done]. destruct Hg1 as (_ & _ & _ & Hold & _).
      apply Hold; [|done]. intros Heq. apply ptr_offset_inj in Heq. lia.
    + by rewrite (Grown_capacities _ _ _ Hg1).
    + simpl in Hnu. lia.
Qed.
End Children.

(** In a quiet environment, with room for the whole subtree in every
    allocator of the target, the copy truncates nowhere. *)
Lemma CopySubtree_fits fuel M targetNode node st st' T x :
  CopySubtree fuel env maxTime src targetNode node st = Some st' →
  warnTruncate st = true →
  unfold fuel src node = Some T →
  node_at (target st) targetNode = Some x → SgUctNode.NuChildren x = 0 →
  Forall (le M) (capacities (target st)) →
  NuNodes (target st) + length (refs T) ≤ M + 2 →
  warnTruncate st' = true.
Proof.
  revert targetNode node st st' T x.
  induction fuel as [|fuel IH];
    intros targetNode node st st' T x H Hw HT Hx Hxz Hcap Hnu; [done|].
  destruct (CopySubtree_inv _ _ _ _ _ _ _ _ H) as (n & x' & Hn & Hx' & Hch).
  rewrite Hx in Hx'. injection Hx' as <-.
  rewrite unfold_S, Hn in HT. simpl in HT.
  destruct (SgUctNode.ChildPtrs n) as [its|] eqn:Hits; [|done]. simpl in HT.
  destruct (mapM _ its) as [cs|] eqn:Hcs; [|done]. simpl in HT.
  injection HT as <-. rewrite refs_RNode in Hnu. simpl in Hnu.
  pose proof (ChildPtrs_length _ _ Hits) as Hlen.
  pose proof (length_mapM _ _ _ Hcs) as Hlen'.
  pose proof (refs_children_length cs) as Hge.
  destruct (SgUctNode.HasChildren n) eqn:Hc.
  - destruct (Hch eq_refl) as (a & Ha & _).
    assert (sizes (target st) !! currentAllocatorId st
            = Some (length (SgUctAllocator.m_nodes a))) as Hsa
      by (by rewrite sizes_lookup, Ha).
    assert (truncates env maxTime n a st = false) as Ht.
    { unfold truncates. destruct (quiet (polls st)) as [-> ->].
      rewrite !orb_false_r. apply negb_false_iff.
      apply bool_decide_eq_true.
      pose proof (size_le_NuNodes _ _ _ Hsa) as Hlt.
      assert (M ≤ SgUctAllocator.m_capacity a); [|lia].
      apply (Forall_lookup_1 _ _ (currentAllocatorId st) _ Hcap).
      by rewrite capacities_lookup, Ha. }
    destruct (CopySubtree_copy env maxTime src fuel _ _ _ _ _ _ _
                Hn Hx Hc Ha Ht Hits) as (tg2 & tg3 & Hrw & Hp & Heq).
    rewrite Heq in H. clear Heq.
    set (first := mkPtr (currentAllocatorId st)
                    (length (SgUctAllocator.m_nodes a))) in *.
    assert (sizes tg2 !! currentAllocatorId st
            = Some (length (SgUctAllocator.m_nodes a))) as Hsa2
      by (destruct Hrw as (-> & _); done).
    eapply (CopySubtree_recurse_fits fuel M (IH) first its 0 _ st' cs H);
      simpl; try done.
    + intros j Hj. exists (SgUctNode.make SG_NULLMOVE). split; [|done].
      etrans; [exact (Pushed_new _ _ _ _ _ j Hp Hsa2)|].
      apply lookup_replicate. split; [done|]. lia.
    + destruct Hp as (? & ? & _ & _ & _ & _ & -> & _).
      by destruct Hrw as (_ & -> & _).
    + rewrite (Pushed_NuNodes _ _ _ _ Hp), (Rewritten_NuNodes _ _ _ _ Hrw).
      rewrite length_replicate. lia.
  - destruct (CopySubtree_leaf env maxTime src fuel _ _ _ _ _ Hn Hx Hc)
      as (tg & Hrw & Heq).
    rewrite Heq in H. by injection H as <-.
Qed.
End Fits.

(** A sufficient condition for an extraction that truncates nowhere: the
    deadline never passes, the abort flag is never raised, and every
    allocator of the target has room for all the nodes below [node]. *)
Lemma Untruncated_fits fuel env src target0 node maxTime T :
  unfold fuel src node = Some T →
  Quiet env maxTime →
  0 < NuAllocators target0 →
  Forall (le (length (refs T) - 1)) (capacities target0) →
  Untruncated fuel env src target0 node maxTime.
Proof.
  intros HT Hq Hpos Hcap. unfold Untruncated.
  rewrite ExtractSubtree_unfold.
  destruct (CopySubtree_total env maxTime src fuel RootRef node
              (mkCopyState (Clear target0) 0 true 0 []) T HT)
    as (r & Hr & _); [by eauto|simpl; by rewrite NuAllocators_Clear|].
  rewrite Hr. simpl. f_equal.
  eapply (CopySubtree_fits env maxTime src Hq fuel (length (refs T) - 1));
    try done; simpl.
  - unfold capacities, Clear in *. simpl. by rewrite <- list_fmap_compose.
  - rewrite NuNodes_Clear. pose proof (refs_nonempty T). lia.
Qed.

(** ** The mean and the variance of the values added *)

Section Moments.

Local Open Scope Q_scope.

Lemma Qlength_cons x (l : list Q) : Qlength (x :: l) == Qlength l + 1.
Proof.
  unfold Qlength. cbn [length]. rewrite Nat2Z.inj_succ, <- Z.add_1_r.
  by rewrite inject_Z_plus.
Qed.

Lemma Qlength_nonneg (l : list Q) : 0 <= Qlength l.
Proof.
  unfold Qlength. change 0 with (inject_Z 0). rewrite <- Zle_Qle. lia.
Qed.

Lemma Qsum_app (l k : list Q) : Qsum (l ++ k) == Qsum l + Qsum k.
Proof.
  induction l as [|x l IH]; simpl; [ring|]. rewrite IH. ring.
Qed.

Lemma Qsquare_nonneg (q : Q) : 0 <= q * q.
Proof.
  destruct (Qlt_le_dec q 0) as [H|H].
  - assert (q * q == (- q) * (- q)) as -> by ring.
    apply Qmult_le_0_compat; lra.
  - by apply Qmult_le_0_compat.
Qed.

(** [2 v Σx ≤ n v² + Σx²] *)
Lemma Qsum_cross (v : Q) (l : list Q) :
  2 * v * Qsum l <= Qlength l * (v * v) + Qsum (Qsquares l).
Proof.
  induction l as [|x l IH].
  - unfold Qlength, Qsum, Qsquares.
    cbn [length foldr fmap list_fmap]. change (inject_Z (Z.of_nat 0)) with 0.
    lra.
  - rewrite Qlength_cons.
    change (Qsum (Qsquares (x :: l))) with (x * x + Qsum (Qsquares l)).
    change (Qsum (x :: l)) with (x + Qsum l).
    pose proof (Qsquare_nonneg (v - x)) as Hsq.
    generalize dependent (Qsum (Qsquares l)). generalize (Qsum l) (Qlength l).
    intros; lra.
Qed.

(** [(Σx)² ≤ n Σx²] *)
Lemma Qsum_square (l : list Q) :
  Qsum l * Qsum l <= Qlength l * Qsum (Qsquares l).
Proof.
  induction l as [|x l IH].
  - unfold Qlength, Qsum, Qsquares.
    cbn [length foldr fmap list_fmap]. change (inject_Z (Z.of_nat 0)) with 0.
    lra.
  - rewrite Qlength_cons. pose proof (Qsum_cross x l) as Hx.
    change (Qsum (Qsquares (x :: l))) with (x * x + Qsum (Qsquares l)).
    change (Qsum (x :: l)) with (x + Qsum l).
    generalize dependent (Qsum (Qsquares l)).
    generalize (Qsum l) (Qlength l). intros; lra.
Qed.

(** One [Add] of the base class, on a counter that does not wrap. *)
Lemma Base_Add_step val (s : SgStatisticsBase.t) :
  (0 <= SgStatisticsBase.m_count s)%Z →
  (SgStatisticsBase.m_count s + 1 < SgStatisticsBase.COUNT_MODULUS)%Z →
  ∃ s', SgStatisticsBase.Add val s = Some s'
        ∧ SgStatisticsBase.m_count s' = (SgStatisticsBase.m_count s + 1)%Z
        ∧ SgStatisticsBase.m_mean s' * inject_Z (SgStatisticsBase.m_count s + 1)
          == SgStatisticsBase.m_mean s * inject_Z (SgStatisticsBase.m_count s)
             + val.
Proof.
  intros H0 HM. unfold SgStatisticsBase.Add.
  rewrite Z.mod_small by lia. rewrite decide_True by lia.
  eexists. split; [done|]. simpl. split; [done|].
  rewrite inject_Z_plus. change (inject_Z 1) with 1.
  assert (0 <= inject_Z (SgStatisticsBase.m_count s)) as Hc.
  { change 0 with (inject_Z 0). by rewrite <- Zle_Qle. }
  field. lra.
Qed.

Lemma Base_run_adds (vals : list Q) (s : SgStatisticsBase.t) :
  (0 <= SgStatisticsBase.m_count s)%Z →
  (SgStatisticsBase.m_count s + Z.of_nat (length vals)
   < SgStatisticsBase.COUNT_MODULUS)%Z →
  ∃ s', SgStatisticsBase.run (SgStatisticsBase.CallAdd <$> vals) s = Some s'
        ∧ SgStatisticsBase.m_count s'
          = (SgStatisticsBase.m_count s + Z.of_nat (length vals))%Z
        ∧ SgStatisticsBase.m_mean s' * inject_Z (SgStatisticsBase.m_count s')
          == SgStatisticsBase.m_mean s * inject_Z (SgStatisticsBase.m_count s)
             + Qsum vals.
Proof.
  revert s. induction vals as [|val vals IH]; intros s H0 HM.
  - exists s. split; [done|]. split; [simpl; lia|]. simpl. ring.
  - cbn [length] in HM.
    destruct (Base_Add_step val s) as (s1 & Hs1 & Hc1 & Hm1); [lia..|].
    destruct (IH s1) as (s' & Hs' & Hc' & Hm'); [lia..|].
    exists s'. cbn [fmap list_fmap SgStatisticsBase.run SgStatisticsBase.step].
    rewrite Hs1. simpl. split; [exact Hs'|]. split; [lia|].
    rewrite Hm', Hc1, Hm1. change (Qsum (val :: vals)) with (val + Qsum vals).
    ring.
Qed.

Lemma Moments_Add val (s : SgStatistics.t) c S1 S2 :
  Moments s c S1 S2 → (c + 1 < SgStatisticsBase.COUNT_MODULUS)%Z →
  ∃ s', SgStatistics.Add val s = Some s'
        ∧ Moments s' (c + 1) (S1 + val) (S2 + val * val).
Proof.
  intros (Hc & H0 & Hz & Hm & Hv) HM. unfold SgStatistics.Add.
  unfold SgStatistics.Count, SgStatistics.Mean, SgStatistics.Variance,
    SgStatisticsBase.Count, SgStatisticsBase.Mean in *.
  destruct (Base_Add_step val (SgStatistics.base s)) as (b & Hb & Hcb & Hmb);
    [lia..|].
  rewrite Hb. rewrite Hc in *.
  assert (0 <= inject_Z c) as Hcq.
  { change 0 with (inject_Z 0). by rewrite <- Zle_Qle. }
  rewrite inject_Z_plus in Hmb. change (inject_Z 1) with 1 in Hmb.
  case_decide as Hpos; simpl; eexists; (split; [done|]);
    unfold Moments, SgStatistics.Count, SgStatistics.Mean,
      SgStatistics.Variance, SgStatisticsBase.Count, SgStatisticsBase.Mean;
    simpl; rewrite Hcb, inject_Z_plus; change (inject_Z 1) with 1;
    (split; [done|]); (split; [lia|]); (split; [intros; lia|]);
    (split; [by rewrite Hmb, Hm|]).
  - rewrite <- Hv. field. lra.
  - assert (c = 0%Z) as -> by lia. change (inject_Z 0) with 0 in *.
    rewrite <- Hv.
    assert (SgStatisticsBase.m_mean b == val) as ->.
    { rewrite (Hz eq_refl) in Hmb. lra. }
    ring.
Qed.

Lemma Moments_AddAll (vals : list Q) (s : SgStatistics.t) c S1 S2 :
  Moments s c S1 S2 →
  (c + Z.of_nat (length vals) < SgStatisticsBase.COUNT_MODULUS)%Z →
  ∃ s', SgStatistics.AddAll vals s = Some s'
        ∧ Moments s' (c + Z.of_nat (length vals))
            (S1 + Qsum vals) (S2 + Qsum (Qsquares vals)).
Proof.
  revert s c S1 S2.
  induction vals as [|val vals IH]; intros s c S1 S2 Hs HM.
  - exists s. split; [done|].
    destruct Hs as (Hc & H0 & Hz & Hm & Hv).
    unfold Moments. simpl. rewrite Z.add_0_r.
    split_and!; [done|done|done|rewrite Hm; ring|rewrite Hv; ring].
  - cbn [length] in HM.
    destruct (Moments_Add val s c S1 S2 Hs) as (s1 & Hs1 & HI1); [lia|].
    destruct (IH s1 _ _ _ HI1) as (s' & Hs' & HI'); [lia|].
    exists s'. cbn [SgStatistics.AddAll]. rewrite Hs1. simpl.
    split; [exact Hs'|].
    destruct HI' as (Hc & H0 & Hz & Hm & Hv).
    cbn [length].
    replace (c + Z.of_nat (S (length vals)))%Z
      with (c + 1 + Z.of_nat (length vals))%Z by lia.
    unfold Moments. split_and!; [done|done|done|..].
    + rewrite Hm. cbn [Qsum foldr]. ring.
    + rewrite Hv. cbn [Qsum Qsquares foldr fmap list_fmap]. ring.
Qed.

Lemma Moments_Clear : Moments SgStatistics.Clear 0 0 0.
Proof. unfold Moments. simpl. split_and!; try done; ring. Qed.

Lemma Extremes_Add VALUE_MAX val (s s' : SgStatisticsExt.t) (vals : list Q) :
  Extremes VALUE_MAX s vals → - VALUE_MAX <= val → val <= VALUE_MAX →
  SgStatisticsExt.Add val s = Some s' →
  Extremes VALUE_MAX s' (vals ++ [val]).
Proof.
  intros Hs Hlo Hhi Hadd. unfold SgStatisticsExt.Add in Hadd.
  destruct (SgStatistics.Add val _) as [st|]; [|done].
  injection Hadd as <-. right. simpl.
  rewrite !Exists_app, !Exists_cons, Forall_app, Forall_singleton.
  destruct Hs as [(-> & -> & ->)|(Hmax & Hmin & Hall)].
  - destruct (Qlt_le_dec (- VALUE_MAX) val) as [H1|H1],
      (Qlt_le_dec val VALUE_MAX) as [H2|H2];
      (split; [right; left; lra|]); (split; [right; left; lra|]);
      (split; [constructor|lra]).
  - assert (SgStatisticsExt.m_min s <= SgStatisticsExt.m_max s) as Hle.
    { apply Exists_exists in Hmax as (v & Hv & Hveq).
      rewrite Forall_forall in Hall. destruct (Hall v Hv). lra. }
    destruct (Qlt_le_dec (SgStatisticsExt.m_max s) val) as [H1|H1],
      (Qlt_le_dec val (SgStatisticsExt.m_min s)) as [H2|H2];
      (split; [(by left) || (right; left; lra)|]);
      (split; [(by left) || (right; left; lra)|]);
      (split; [|lra]);
      (eapply Forall_impl; [exact Hall|]); simpl; intros v [? ?]; lra.
Qed.

Lemma Extremes_AddAll VALUE_MAX (vals pre : list Q) (s : SgStatisticsExt.t) :
  Extremes VALUE_MAX s pre →
  Forall (λ v, - VALUE_MAX <= v ∧ v <= VALUE_MAX) vals →
  ∀ s', SgStatisticsExt.AddAll vals s = Some s' →
        Extremes VALUE_MAX s' (pre ++ vals).
Proof.
  revert pre s. induction vals as [|val vals IH]; intros pre s Hs Hall s' H.
  - injection H as <-. by rewrite app_nil_r.
  - apply Forall_cons in Hall as [[Hlo Hhi] Hall].
    cbn [SgStatisticsExt.AddAll] in H.
    destruct (SgStatisticsExt.Add val s) as [s1|] eqn:H1; [|done].
    simpl in H. rewrite (assoc_L _ pre [val] vals : pre ++ val :: vals = _).
    eapply IH; [|done|done]. by eapply Extremes_Add.
Qed.

Lemma Ext_AddAll_stat (vals : list Q) (s : SgStatisticsExt.t) :
  SgStatisticsExt.stat <$> SgStatisticsExt.AddAll vals s
  = SgStatistics.AddAll vals (SgStatisticsExt.stat s).
Proof.
  revert s. induction vals as [|val vals IH]; intros s; [done|].
  cbn [SgStatisticsExt.AddAll SgStatistics.AddAll].
  unfold SgStatisticsExt.Add at 1.
  destruct (SgStatistics.Add val (SgStatisticsExt.stat s)) as [st|]; [|done].
  simpl. by rewrite IH.
Qed.

End Moments.

(** The mean of [SgStatisticsBase] is the arithmetic mean. Adding the
    values [vals] to a cleared object, fewer than 2^64 of them, runs to
    completion; the counter then holds their number and the stored mean
    times that number is their sum (in exact arithmetic). *)
Theorem mean_is_average (vals : list Q) :
  (Z.of_nat (length vals) < SgStatisticsBase.COUNT_MODULUS)%Z →
  ∃ s, SgStatisticsBase.run (SgStatisticsBase.CallAdd <$> vals)
         SgStatisticsBase.Clear = Some s
       ∧ SgStatisticsBase.Count s = Z.of_nat (length vals)
       ∧ (SgStatisticsBase.Mean s * Qlength vals == Qsum vals)%Q.
Proof.
  intros HM.
  destruct (Base_run_adds vals SgStatisticsBase.Clear) as (s & Hs & Hc & Hm);
    [done|simpl; lia|].
  change (SgStatisticsBase.m_count SgStatisticsBase.Clear) with 0%Z in *.
  change (SgStatisticsBase.m_mean SgStatisticsBase.Clear) with 0%Q in *.
  rewrite Z.add_0_l in Hc.
  exists s. split; [done|]. split; [done|].
  unfold SgStatisticsBase.Mean, Qlength. rewrite <- Hc, Hm.
  change (inject_Z 0) with 0%Q. ring.
Qed.

Lemma mean_is_average_witness :
  ∃ s, SgStatisticsBase.run
         (SgStatisticsBase.CallAdd <$> [1; 0; 3 # 4; 1 # 4]%Q)
         SgStatisticsBase.Clear = Some s
       ∧ SgStatisticsBase.Count s = 4%Z
       ∧ (SgStatisticsBase.Mean s * Qlength [1; 0; 3 # 4; 1 # 4]
          == Qsum [1; 0; 3 # 4; 1 # 4])%Q.
Proof. apply (mean_is_average [1; 0; 3 # 4; 1 # 4]%Q). reflexivity. Defined.

(** [Initialize(val, count)] is equivalent to [Clear] followed by [count]
    calls of [Add(val)], for a positive count below 2^64: the calls run to
    completion and leave the same counter and (in exact arithmetic) the
    same mean. *)
Theorem Initialize_as_adds (val : Q) (count : nat) :
  0 < count →
  (Z.of_nat count < SgStatisticsBase.COUNT_MODULUS)%Z →
  ∃ s, SgStatisticsBase.run (replicate count (SgStatisticsBase.CallAdd val))
         SgStatisticsBase.Clear = Some s
       ∧ SgStatisticsBase.Count s
         = SgStatisticsBase.Count
             (SgStatisticsBase.Initialize val (Z.of_nat count))
       ∧ (SgStatisticsBase.Mean s
          == SgStatisticsBase.Mean
               (SgStatisticsBase.Initialize val (Z.of_nat count)))%Q.
Proof.
  intros Hpos HM.
  destruct (Base_run_adds (replicate count val) SgStatisticsBase.Clear)
    as (s & Hs & Hc & Hm); [done|simpl; rewrite length_replicate; lia|].
  rewrite fmap_replicate in Hs. rewrite length_replicate in Hc.
  change (SgStatisticsBase.m_count SgStatisticsBase.Clear) with 0%Z in *.
  change (SgStatisticsBase.m_mean SgStatisticsBase.Clear) with 0%Q in *.
  rewrite Z.add_0_l in Hc.
  exists s. split; [done|]. split; [done|].
  unfold SgStatisticsBase.Mean. simpl. rewrite Hc in Hm.
  change (inject_Z 0) with 0%Q in Hm.
  assert (Qsum (replicate count val) == val * inject_Z (Z.of_nat count))%Q
    as Hsum.
  { clear. induction count as [|n IH].
    - simpl. change (inject_Z 0) with 0%Q. ring.
    - cbn [replicate]. change (Qsum (val :: replicate n val))
        with (val + Qsum (replicate n val))%Q.
      rewrite IH, Nat2Z.inj_succ, <- Z.add_1_r, inject_Z_plus.
      change (inject_Z 1) with 1%Q. ring. }
  rewrite Hsum in Hm.
  assert (0 < inject_Z (Z.of_nat count))%Q as Hq.
  { change 0%Q with (inject_Z 0). rewrite <- Zlt_Qlt. lia. }
  apply (Qmult_inj_r _ _ (inject_Z (Z.of_nat count))); [lra|].
  rewrite Hm. ring.
Qed.

Lemma Initialize_as_adds_witness :
  ∃ s, SgStatisticsBase.run (replicate 3 (SgStatisticsBase.CallAdd (2 # 5)))
         SgStatisticsBase.Clear = Some s
       ∧ SgStatisticsBase.Count s
         = SgStatisticsBase.Count (SgStatisticsBase.Initialize (2 # 5) 3)
       ∧ (SgStatisticsBase.Mean s
          == SgStatisticsBase.Mean (SgStatisticsBase.Initialize (2 # 5) 3))%Q.
Proof.
  apply (Initialize_as_adds (2 # 5) 3); [lia|reflexivity].
Defined.

(** The variance of [SgStatistics] is the mean of the squares minus the
    square of the mean. Adding the values [vals] to a cleared object,
    fewer than 2^64 of them, runs to completion; then, with n their
    number, [Count] is n, [Mean * n] is their sum, [(Variance + Mean^2) * n]
    is the sum of their squares, and the variance is not negative (in
    exact arithmetic). *)
Theorem variance_of_added_values (vals : list Q) :
  (Z.of_nat (length vals) < SgStatisticsBase.COUNT_MODULUS)%Z →
  ∃ s, SgStatistics.AddAll vals SgStatistics.Clear = Some s
       ∧ SgStatistics.Count s = Z.of_nat (length vals)
       ∧ (SgStatistics.Mean s * Qlength vals == Qsum vals)%Q
       ∧ ((SgStatistics.Variance s + SgStatistics.Mean s * SgStatistics.Mean s)
          * Qlength vals == Qsum (Qsquares vals))%Q
       ∧ (0 <= SgStatistics.Variance s)%Q.
Proof.
  intros HM.
  destruct (Moments_AddAll vals SgStatistics.Clear 0 0 0 Moments_Clear)
    as (s & Hs & Hc & H0 & Hz & Hm & Hv); [lia|].
  rewrite Z.add_0_l in *. fold (Qlength vals) in Hm, Hv.
  assert (SgStatistics.Mean s * Qlength vals == Qsum vals)%Q as Hm'
    by (rewrite Hm; ring).
  assert ((SgStatistics.Variance s + SgStatistics.Mean s * SgStatistics.Mean s)
          * Qlength vals == Qsum (Qsquares vals))%Q as Hv'
    by (rewrite Hv; ring).
  clear Hm Hv. rename Hm' into Hm. rename Hv' into Hv.
  exists s. split; [done|]. split; [done|].
  split; [done|]. split; [done|].
  pose proof (Qsum_square vals) as Hcs.
  pose proof (Qlength_nonneg vals) as Hn.
  destruct vals as [|v vals].
  - injection Hs as <-. simpl. lra.
  - assert (0 < Qlength (v :: vals))%Q as Hpos.
    { rewrite Qlength_cons. pose proof (Qlength_nonneg vals). lra. }
    revert Hm Hv Hcs Hpos.
    generalize (Qsum (Qsquares (v :: vals))) (Qsum (v :: vals))
      (Qlength (v :: vals)) (SgStatistics.Mean s) (SgStatistics.Variance s).
    intros S2 S1 n m var Hm Hv Hcs Hpos.
    assert (0 <= var * (n * n))%Q as Hvar.
    { assert (var * (n * n) == n * S2 - S1 * S1)%Q as ->; [|lra].
      rewrite <- Hm, <- Hv. ring. }
    destruct (Qlt_le_dec var 0) as [Hneg|]; [|done].
    assert (0 < n * n)%Q by nra. nra.
Qed.

Lemma variance_of_added_values_witness :
  ∃ s, SgStatistics.AddAll [1; 0; 1; 1 # 2]%Q SgStatistics.Clear = Some s
       ∧ SgStatistics.Count s = 4%Z
       ∧ (SgStatistics.Mean s * Qlength [1; 0; 1; 1 # 2]
          == Qsum [1; 0; 1; 1 # 2])%Q
       ∧ ((SgStatistics.Variance s + SgStatistics.Mean s * SgStatistics.Mean s)
          * Qlength [1; 0; 1; 1 # 2] == Qsum (Qsquares [1; 0; 1; 1 # 2]))%Q
       ∧ (0 <= SgStatistics.Variance s)%Q.
Proof.
  apply (variance_of_added_values [1; 0; 1; 1 # 2]%Q). reflexivity.
Defined.

(** The extremes of [SgStatisticsExt]. Adding the values [vals] (at least
    one, fewer than 2^64, none beyond the largest finite value) to a
    cleared object runs to completion; [Max] and [Min] are then values of
    the list and every value of the list lies between them; the mean and
    the variance are those [SgStatistics] computes. *)
Theorem extremes_of_added_values (VALUE_MAX : Q) (vals : list Q) :
  vals ≠ [] →
  (Z.of_nat (length vals) < SgStatisticsBase.COUNT_MODULUS)%Z →
  Forall (λ v, - VALUE_MAX <= v ∧ v <= VALUE_MAX)%Q vals →
  ∃ s, SgStatisticsExt.AddAll vals (SgStatisticsExt.Clear VALUE_MAX) = Some s
       ∧ Exists (λ v, SgStatisticsExt.Max s == v)%Q vals
       ∧ Exists (λ v, SgStatisticsExt.Min s == v)%Q vals
       ∧ Forall (λ v, SgStatisticsExt.Min s <= v
                      ∧ v <= SgStatisticsExt.Max s)%Q vals
       ∧ SgStatistics.AddAll vals SgStatistics.Clear
         = Some (SgStatisticsExt.stat s).
Proof.
  intros Hne HM Hall.
  destruct (Moments_AddAll vals SgStatistics.Clear 0 0 0 Moments_Clear)
    as (st & Hst & _); [lia|].
  pose proof (Ext_AddAll_stat vals (SgStatisticsExt.Clear VALUE_MAX)) as Hs.
  simpl in Hs. rewrite Hst in Hs.
  destruct (SgStatisticsExt.AddAll vals _) as [s|] eqn:Hadd; [|done].
  injection Hs as <-. exists s. split; [done|].
  assert (Extremes VALUE_MAX (SgStatisticsExt.Clear VALUE_MAX) []) as Hinit
    by (by left).
  pose proof (Extremes_AddAll VALUE_MAX vals [] _ Hinit Hall s Hadd) as Hex.
  rewrite app_nil_l in Hex.
  by destruct Hex as [(-> & _)|(Hmax & Hmin & Hb)].
Qed.

Lemma extremes_of_added_values_witness :
  ∃ s, SgStatisticsExt.AddAll [1 # 2; 1; 0]%Q (SgStatisticsExt.Clear 1000)
       = Some s
       ∧ Exists (λ v, SgStatisticsExt.Max s == v)%Q [1 # 2; 1; 0]%Q
       ∧ Exists (λ v, SgStatisticsExt.Min s == v)%Q [1 # 2; 1; 0]%Q
       ∧ Forall (λ v, SgStatisticsExt.Min s <= v
                      ∧ v <= SgStatisticsExt.Max s)%Q [1 # 2; 1; 0]%Q
       ∧ SgStatistics.AddAll [1 # 2; 1; 0]%Q SgStatistics.Clear
         = Some (SgStatisticsExt.stat s).
Proof.
  apply (extremes_of_added_values 1000 [1 # 2; 1; 0]%Q).
  - discriminate.
  - reflexivity.
  - repeat constructor; unfold Qle; simpl; lia.
Defined.

(** ** Named statistics *)

(** [Create] makes a name known with cleared statistics, replacing what
    the name held before, and leaves every other name as it was. *)
Theorem Create_then_Get (name name' : string) (c : SgStatisticsCollection.t) :
  SgStatisticsCollection.Contains name
    (SgStatisticsCollection.Create name c) = true
  ∧ SgStatisticsCollection.Get name (SgStatisticsCollection.Create name c)
    = inr SgStatistics.Clear
  ∧ (name' ≠ name →
     SgStatisticsCollection.Contains name'
       (SgStatisticsCollection.Create name c)
     = SgStatisticsCollection.Contains name' c
     ∧ SgStatisticsCollection.Get name' (SgStatisticsCollection.Create name c)
       = SgStatisticsCollection.Get name' c).
Proof.
  unfold SgStatisticsCollection.Contains, SgStatisticsCollection.Get,
    SgStatisticsCollection.Create.
  unfold SgStatisticsCollection.t in *.
  rewrite lookup_insert_eq. split; [by apply bool_decide_eq_true|].
  split; [done|]. intros Hne. by rewrite lookup_insert_ne.
Qed.

(** [Clear] keeps the names of a collection and clears the statistics of
    every name; a name that is not in the collection is still unknown to
    [Get]. *)
Theorem Clear_keeps_names (name : string) (c : SgStatisticsCollection.t) :
  SgStatisticsCollection.Contains name (SgStatisticsCollection.Clear c)
  = SgStatisticsCollection.Contains name c
  ∧ SgStatisticsCollection.Get name (SgStatisticsCollection.Clear c)
    = match SgStatisticsCollection.Get name c with
      | inr _ => inr SgStatistics.Clear
      | inl e => inl e
      end.
Proof.
  unfold SgStatisticsCollection.Contains, SgStatisticsCollection.Get,
    SgStatisticsCollection.Clear.
  unfold SgStatisticsCollection.t in *.
  rewrite lookup_fmap. destruct (c !! name); simpl; split; try done.
Qed.

(** ** Cutoffs by depth *)

Section ProbCut.

Import SgProbCut.

Lemma at_depth_app d (cs1 cs2 : list Cutoff) :
  at_depth d (cs1 ++ cs2) = at_depth d cs1 ++ at_depth d cs2.
Proof. apply filter_app. Qed.

Lemma at_depth_singleton d (c : Cutoff) :
  at_depth d [c] = if decide (deep c = d) then [c] else [].
Proof. unfold at_depth. rewrite filter_cons, filter_nil. done. Qed.

Lemma at_depth_above d (cs : list Cutoff) :
  Forall (λ c, 0 ≤ deep c ≤ MAX_PROBCUT)%Z cs → (MAX_PROBCUT < d)%Z →
  at_depth d cs = [].
Proof.
  intros Hcs Hd. induction Hcs as [|c cs Hc _ IH]; [done|].
  unfold at_depth in *. rewrite filter_cons_False by lia. exact IH.
Qed.

Lemma Holds_make : Holds make [].
Proof.
  split; [done|]. split; [done|]. intros d Hd. split.
  - change (m_cutoff_sizes make) with (replicate 21 0%Z).
    by apply lookup_replicate_2.
  - exists (replicate 21 Cutoff_default). split.
    + change (m_cutoffs make)
        with (replicate 21 (replicate 21 Cutoff_default)).
      by apply lookup_replicate_2.
    + split; [done|]. intros k c Hc. done.
Qed.

Lemma Holds_AddCutoff (p : t) (cs : list Cutoff) (c : Cutoff) :
  Holds p cs → (0 ≤ deep c ≤ MAX_PROBCUT)%Z →
  length (at_depth (deep c) (cs ++ [c])) ≤ 21 →
  ∃ p', AddCutoff c p = Some p' ∧ Holds p' (cs ++ [c]).
Proof.
  intros (Hl1 & Hl2 & Hall) Hd Hroom. unfold MAX_PROBCUT in Hd.
  destruct (Hall (Z.to_nat (deep c))) as (Hsz & row & Hrow & Hlr & Hrk);
    [lia|].
  rewrite Z2Nat.id in Hsz, Hrk by lia.
  rewrite at_depth_app, at_depth_singleton, decide_True, length_app in Hroom
    by done.
  simpl in Hroom.
  set (n := length (at_depth (deep c) cs)) in *.
  unfold AddCutoff, at_, set_at. rewrite Hl1, Hl2.
  change (Z.of_nat 21) with 21%Z.
  rewrite !decide_True by lia. rewrite Hsz, Hrow. simpl. rewrite Hlr.
  change (Z.of_nat 21) with 21%Z.
  repeat (rewrite decide_True by lia; simpl).
  eexists. split; [done|].
  split; [simpl; by rewrite length_insert|].
  split; [simpl; by rewrite length_insert|].
  intros d Hd'. simpl. rewrite at_depth_app, at_depth_singleton.
  destruct (decide (d = Z.to_nat (deep c))) as [->|Hne].
  - rewrite Z2Nat.id by lia. rewrite decide_True by done.
    rewrite !list_lookup_insert_eq by lia. split.
    + f_equal. rewrite length_app. simpl. fold n. lia.
    + eexists. split; [done|]. split; [by rewrite length_insert|].
      intros k c0 Hk. rewrite Nat2Z.id.
      destruct (decide (k = n)) as [->|Hkn].
      * rewrite list_lookup_insert_eq by lia.
        rewrite lookup_app_r in Hk by (fold n; lia).
        fold n in Hk. rewrite Nat.sub_diag in Hk. by injection Hk as <-.
      * rewrite list_lookup_insert_ne by done.
        apply Hrk. apply lookup_lt_Some in Hk as Hlt.
        rewrite length_app in Hlt. simpl in Hlt. fold n in Hlt.
        rewrite lookup_app_l in Hk by (fold n; lia). done.
  - rewrite !list_lookup_insert_ne by done.
    rewrite decide_False by lia. rewrite app_nil_r. by apply Hall.
Qed.

Lemma Holds_AddAll (cs pre : list Cutoff) (p : t) :
  Holds p pre →
  Forall (λ c, 0 ≤ deep c ≤ MAX_PROBCUT)%Z cs →
  (∀ d, length (at_depth d (pre ++ cs)) ≤ 21) →
  ∃ p', AddAll cs p = Some p' ∧ Holds p' (pre ++ cs).
Proof.
  revert pre p. induction cs as [|c cs IH]; intros pre p Hp Hd Hroom.
  - exists p. by rewrite app_nil_r.
  - apply Forall_cons in Hd as [Hc Hd].
    destruct (Holds_AddCutoff p pre c Hp Hc) as (p1 & Hp1 & HI1).
    { specialize (Hroom (deep c)).
      rewrite (assoc_L _ pre [c] cs : pre ++ c :: cs = _) in Hroom.
      rewrite at_depth_app, length_app in Hroom. lia. }
    cbn [AddAll]. rewrite Hp1. simpl.
    rewrite (assoc_L _ pre [c] cs : pre ++ c :: cs = _) in Hroom |- *.
    by apply IH.
Qed.

End ProbCut.

(** Cutoffs are handed out by depth, in the order they were added. After
    the cutoffs [cs] have been added to a new object (depths 0 to
    MAX_PROBCUT, at most MAX_PROBCUT + 1 cutoffs per depth): for a depth
    and an index that are not negative, [GetCutoff(deep, index, cutoff)]
    returns true and the cutoff number [index] among those added for the
    depth [deep] if there is one, and otherwise returns false and leaves
    [cutoff] as it is; for a depth above MAX_PROBCUT it returns false and
    leaves [cutoff] as it is, whatever the index. The lower bounds are not
    checked: a negative depth, and a negative index with a depth from 0 to
    MAX_PROBCUT, index outside an array. *)
Theorem GetCutoff_after_adds (cs : list SgProbCut.Cutoff) :
  Forall (λ c, 0 ≤ SgProbCut.deep c ≤ SgProbCut.MAX_PROBCUT)%Z cs →
  (∀ d, length (at_depth d cs) ≤ 21) →
  ∃ p, SgProbCut.AddAll cs SgProbCut.make = Some p ∧
       ∀ (deep index : Z) (cutoff : SgProbCut.Cutoff),
         ((0 ≤ deep)%Z → (0 ≤ index)%Z →
          SgProbCut.GetCutoff deep index cutoff p
          = Some (match at_depth deep cs !! Z.to_nat index with
                  | Some c => (true, c)
                  | None => (false, cutoff)
                  end)) ∧
         ((SgProbCut.MAX_PROBCUT < deep)%Z →
          SgProbCut.GetCutoff deep index cutoff p = Some (false, cutoff)) ∧
         ((deep < 0)%Z → SgProbCut.GetCutoff deep index cutoff p = None) ∧
         ((0 ≤ deep ≤ SgProbCut.MAX_PROBCUT)%Z → (index < 0)%Z →
          SgProbCut.GetCutoff deep index cutoff p = None).
Proof.
  intros Hd Hroom.
  destruct (Holds_AddAll cs [] SgProbCut.make Holds_make Hd Hroom)
    as (p & Hp & (Hl1 & Hl2 & Hall)).
  rewrite app_nil_l in Hall.
  exists p. split; [done|]. intros deep index cutoff.
  unfold SgProbCut.GetCutoff. split_and!.
  - intros Hdeep Hindex. case_decide as Hbig.
    + by rewrite (at_depth_above deep cs Hd Hbig).
    + unfold SgProbCut.MAX_PROBCUT in Hbig.
      destruct (Hall (Z.to_nat deep)) as (Hsz & row & Hrow & Hlr & Hrk);
        [lia|].
      rewrite Z2Nat.id in Hsz, Hrk by lia.
      unfold SgProbCut.at_. repeat (rewrite decide_True by lia).
      rewrite Hsz. simpl.
      case_decide as Hsize.
      * rewrite lookup_ge_None_2 by lia. done.
      * rewrite Hrow. simpl.
        destruct (lookup_lt_is_Some_2 (at_depth deep cs) (Z.to_nat index))
          as [c Hc]; [lia|].
        rewrite Hc, (Hrk _ _ Hc). by rewrite decide_True by lia.
  - intros Hbig. by rewrite decide_True.
  - intros Hneg. unfold SgProbCut.MAX_PROBCUT, SgProbCut.at_.
    destruct (decide (20 < deep)%Z); [lia|].
    destruct (decide (0 ≤ deep)%Z); [lia|done].
  - intros Hdeep Hneg. unfold SgProbCut.MAX_PROBCUT in *.
    destruct (Hall (Z.to_nat deep)) as (Hsz & row & Hrow & Hlr & Hrk); [lia|].
    rewrite Z2Nat.id in Hsz by lia.
    unfold SgProbCut.at_.
    destruct (decide (20 < deep)%Z); [lia|].
    destruct (decide (0 ≤ deep)%Z); [|lia].
    rewrite Hsz. simpl.
    destruct (decide (Z.of_nat (length (at_depth deep cs)) ≤ index)%Z); [lia|].
    rewrite Hrow. simpl.
    destruct (decide (0 ≤ index)%Z); [lia|done].
Qed.

Lemma GetCutoff_after_adds_witness :
  ∃ p, SgProbCut.AddAll
         [SgProbCut.mkCutoff 1 0 (1 # 2) 1 3; SgProbCut.mkCutoff 2 0 1 2 5;
          SgProbCut.mkCutoff 3 1 1 2 3] SgProbCut.make = Some p ∧
       ∀ (deep index : Z) (cutoff : SgProbCut.Cutoff),
         ((0 ≤ deep)%Z → (0 ≤ index)%Z →
          SgProbCut.GetCutoff deep index cutoff p
          = Some (match at_depth deep
                          [SgProbCut.mkCutoff 1 0 (1 # 2) 1 3;
                           SgProbCut.mkCutoff 2 0 1 2 5;
                           SgProbCut.mkCutoff 3 1 1 2 3] !! Z.to_nat index with
                  | Some c => (true, c)
                  | None => (false, cutoff)
                  end)) ∧
         ((SgProbCut.MAX_PROBCUT < deep)%Z →
          SgProbCut.GetCutoff deep index cutoff p = Some (false, cutoff)) ∧
         ((deep < 0)%Z → SgProbCut.GetCutoff deep index cutoff p = None) ∧
         ((0 ≤ deep ≤ SgProbCut.MAX_PROBCUT)%Z → (index < 0)%Z →
          SgProbCut.GetCutoff deep index cutoff p = None).
Proof.
  apply (GetCutoff_after_adds
           [SgProbCut.mkCutoff 1 0 (1 # 2) 1 3; SgProbCut.mkCutoff 2 0 1 2 5;
            SgProbCut.mkCutoff 3 1 1 2 3]).
  - repeat constructor; simpl; unfold SgProbCut.MAX_PROBCUT; lia.
  - intros d. unfold at_depth. etrans; [apply length_filter|]. simpl. lia.
Defined.

(** ** Histograms *)

Section Histogram.

Import SgHistogram.

Lemma bin_total_insert (arr : list Z) i c x :
  arr !! i = Some c →
  foldr Z.add 0%Z (<[i := x]> arr) = (foldr Z.add 0 arr - c + x)%Z.
Proof.
  revert i. induction arr as [|y arr IH]; intros [|i] H; simplify_eq/=.
  - lia.
  - rewrite (IH _ H). lia.
Qed.

Lemma bin_le_total (arr : list Z) i c :
  Forall (λ c, 0 ≤ c)%Z arr → arr !! i = Some c →
  (0 ≤ c ≤ foldr Z.add 0 arr)%Z.
Proof.
  intros Hall. revert i. induction Hall as [|y arr Hy Hall IH];
    intros [|i] H; simplify_eq/=.
  - assert (0 ≤ foldr Z.add 0 arr)%Z; [|lia].
    clear -Hall. induction Hall; simpl; lia.
  - specialize (IH _ H). lia.
Qed.

Lemma clamp_range bins i0 : (0 < bins)%Z → (0 ≤ clamp bins i0 < bins)%Z.
Proof. intros. unfold clamp. repeat case_decide; lia. Qed.

Lemma Add_unfold value (h : t) bins n i0 :
  Counted h bins n → (0 ≤ n)%Z →
  (n + 1 < SgStatisticsBase.COUNT_MODULUS)%Z →
  ¬ (m_binSize h == 0)%Q →
  to_int ((value - m_min h) / m_binSize h)%Q = Some i0 →
  ∃ c, m_array h !! Z.to_nat (clamp bins i0) = Some c ∧
       Add value h
       = Some {| m_bins := m_bins h;
                 m_count := (n + 1)%Z;
                 m_binSize := m_binSize h;
                 m_min := m_min h;
                 m_max := m_max h;
                 m_array := <[Z.to_nat (clamp bins i0) := (c + 1)%Z]>
                              (m_array h) |}.
Proof.
  intros (Hb & Hpos & Hlen & Hc & Ht & Hall) Hn HM Hsize Hi0.
  pose proof (clamp_range bins i0 Hpos) as Hr.
  destruct (lookup_lt_is_Some_2 (m_array h) (Z.to_nat (clamp bins i0)))
    as [c Hc0]; [lia|].
  exists c. split; [done|].
  pose proof (bin_le_total _ _ _ Hall Hc0) as Hle. unfold bin_total in Ht.
  unfold Add. destruct (Qeq_dec (m_binSize h) 0) as [|_]; [done|].
  rewrite Hi0. simpl. rewrite Hb. fold (clamp bins i0).
  rewrite decide_True by lia. rewrite Hc0. simpl.
  rewrite Hc. rewrite !Z.mod_small by lia. done.
Qed.

Lemma Counted_Add value (h : t) bins n :
  Counted h bins n → (0 ≤ n)%Z →
  (n + 1 < SgStatisticsBase.COUNT_MODULUS)%Z →
  ¬ (m_binSize h == 0)%Q → castable h value →
  ∃ h', Add value h = Some h' ∧ Counted h' bins (n + 1) ∧
        m_min h' = m_min h ∧ m_binSize h' = m_binSize h.
Proof.
  intros HC Hn HM Hsize [i0 Hi0].
  destruct (Add_unfold value h bins n i0 HC Hn HM Hsize Hi0)
    as (c & Hc0 & Hadd).
  destruct HC as (Hb & Hpos & Hlen & Hc & Ht & Hall).
  eexists. split; [exact Hadd|]. split; [|done].
  pose proof (bin_le_total _ _ _ Hall Hc0) as Hle.
  unfold Counted, bin_total in *. simpl.
  rewrite length_insert, (bin_total_insert _ _ c _ Hc0).
  split_and!; try done; try lia.
  apply Forall_insert; [done|lia].
Qed.

Lemma Counted_AddAll (values : list Q) (h : t) bins n :
  Counted h bins n → (0 ≤ n)%Z →
  (n + Z.of_nat (length values) < SgStatisticsBase.COUNT_MODULUS)%Z →
  ¬ (m_binSize h == 0)%Q → Forall (castable h) values →
  ∃ h', AddAll values h = Some h' ∧
        Counted h' bins (n + Z.of_nat (length values)) ∧
        m_min h' = m_min h ∧ m_binSize h' = m_binSize h.
Proof.
  revert h n. induction values as [|value values IH];
    intros h n HC Hn HM Hsize Hall.
  - exists h. cbn [length Z.of_nat]. rewrite Z.add_0_r. by split_and!.
  - apply Forall_cons in Hall as [Hv Hall]. cbn [length] in HM.
    destruct (Counted_Add value h bins n HC Hn) as (h1 & H1 & HC1 & Hm1 & Hs1);
      [lia|done|done|].
    destruct (IH h1 (n + 1)%Z HC1) as (h' & H' & HC' & Hm' & Hs');
      [lia|lia|by rewrite Hs1| |].
    { eapply Forall_impl; [exact Hall|]. intros v.
      unfold castable. by rewrite Hm1, Hs1. }
    exists h'. split; [cbn [AddAll]; rewrite H1; exact H'|].
    replace (n + Z.of_nat (length (value :: values)))%Z
      with (n + 1 + Z.of_nat (length values))%Z by (cbn [length]; lia).
    split; [done|]. split; congruence.
Qed.

Lemma Counted_make min max bins h0 :
  (0 < bins)%Z → make min max bins = Some h0 →
  Counted h0 bins 0 ∧ m_min h0 = min ∧
  m_binSize h0 = ((max - min) / inject_Z bins)%Q.
Proof.
  intros Hpos. unfold make, Init. rewrite decide_False by lia.
  intros [= <-]. unfold Counted, bin_total. simpl.
  rewrite resize_nil, fmap_replicate, length_replicate.
  split_and!; try done.
  - induction (Z.to_nat bins) as [|k IHk]; simpl; [done|]. by rewrite IHk.
  - apply Forall_replicate. lia.
Qed.

Lemma binSize_nonzero (min max : Q) bins :
  (0 < bins)%Z → ¬ (max == min)%Q →
  ¬ ((max - min) / inject_Z bins == 0)%Q.
Proof.
  intros Hpos Hne H. apply Hne.
  assert (0 < inject_Z bins)%Q as Hq.
  { change 0%Q with (inject_Z 0). by rewrite <- Zlt_Qlt. }
  assert (max - min == (max - min) / inject_Z bins * inject_Z bins)%Q as Heq
    by (field; lra).
  rewrite H in Heq. lra.
Qed.

(** Truncation of a rational against integer bounds. *)
Lemma quot_lower (q : Q) (i : Z) :
  (0 ≤ i)%Z → (inject_Z i <= q)%Q → (i ≤ Qnum q ÷ Zpos (Qden q))%Z.
Proof.
  intros Hi Hq. unfold Qle in Hq. simpl in Hq. rewrite Z.mul_1_r in Hq.
  assert (0 ≤ Qnum q)%Z by nia.
  rewrite Z.quot_div_nonneg by lia.
  apply Z.div_le_lower_bound; lia.
Qed.

Lemma quot_upper (q : Q) (k : Z) :
  (0 < k)%Z → (q < inject_Z k)%Q → (Qnum q ÷ Zpos (Qden q) < k)%Z.
Proof.
  intros Hk Hq. unfold Qlt in Hq. simpl in Hq. rewrite Z.mul_1_r in Hq.
  destruct (decide (0 ≤ Qnum q)%Z) as [Hpos|Hneg].
  - rewrite Z.quot_div_nonneg by lia.
    apply Z.div_lt_upper_bound; lia.
  - assert (Qnum q ÷ Z.pos (Qden q) ≤ 0)%Z; [|lia].
    rewrite <- (Z.opp_involutive (Qnum q)), Z.quot_opp_l by lia.
    assert (0 ≤ - Qnum q ÷ Z.pos (Qden q))%Z; [|lia].
    apply Z.quot_pos; lia.
Qed.

Lemma clamp_bin (h : t) bins (value : Q) (i i0 : Z) :
  (0 < m_binSize h)%Q → (0 ≤ i < bins)%Z →
  (i = 0%Z ∨ border h i <= value)%Q →
  (i = (bins - 1)%Z ∨ value < border h (i + 1))%Q →
  to_int ((value - m_min h) / m_binSize h)%Q = Some i0 →
  clamp bins i0 = i.
Proof.
  intros Hsize Hi Hlo Hhi Hi0. unfold to_int in Hi0.
  case_decide; [|done]. injection Hi0 as Hi0.
  set (q := ((value - m_min h) / m_binSize h)%Q) in *.
  assert (i = 0 ∨ i ≤ i0)%Z as Hlo'.
  { destruct Hlo as [->|Hlo]; [by left|right]. subst i0.
    apply (quot_lower q i); [lia|]. unfold q, border in *.
    apply Qle_shift_div_l; [done|]. lra. }
  assert (i = bins - 1 ∨ i0 < i + 1)%Z as Hhi'.
  { destruct Hhi as [->|Hhi]; [by left|right]. subst i0.
    apply (quot_upper q (i + 1)); [lia|]. unfold q, border in *.
    apply Qlt_shift_div_r; [done|]. lra. }
  unfold clamp. repeat case_decide; lia.
Qed.

End Histogram.

(** A histogram counts every value once. For a histogram made with at
    least one bin and [max] different from [min], adding values (fewer
    than 2^64, each with a quotient in the range of [int]) runs to
    completion; [Count()] is then the number of values added, and so is
    the sum of the counters of the bins: the index is always that of a
    bin, whatever the value. *)
Theorem histogram_counts_every_value (min max : Q) (bins : Z)
    (values : list Q) (h0 : SgHistogram.t) :
  (0 < bins)%Z → ¬ (max == min)%Q →
  SgHistogram.make min max bins = Some h0 →
  Forall (castable h0) values →
  (Z.of_nat (length values) < SgStatisticsBase.COUNT_MODULUS)%Z →
  ∃ h, SgHistogram.AddAll values h0 = Some h ∧
       SgHistogram.Count h = Z.of_nat (length values) ∧
       bin_total h = Z.of_nat (length values) ∧
       SgHistogram.Bins h = bins ∧
       length (SgHistogram.m_array h) = Z.to_nat bins.
Proof.
  intros Hpos Hne Hmake Hcast HM.
  destruct (Counted_make min max bins h0 Hpos Hmake) as (HC & Hmin & Hsize).
  destruct (Counted_AddAll values h0 bins 0 HC) as (h & Hh & HCh & _);
    [lia|lia|rewrite Hsize; by apply binSize_nonzero|done|].
  rewrite Z.add_0_l in HCh.
  destruct HCh as (Hb & _ & Hlen & Hc & Ht & _).
  exists h. by split_and!.
Qed.

Lemma histogram_counts_every_value_witness :
  ∃ h, SgHistogram.AddAll [1; 3; -7; 25; 9 # 2]%Q histogram_example0 = Some h ∧
       SgHistogram.Count h = 5%Z ∧
       bin_total h = 5%Z ∧
       SgHistogram.Bins h = 5%Z ∧
       length (SgHistogram.m_array h) = 5.
Proof.
  apply (histogram_counts_every_value 0 10 5 [1; 3; -7; 25; 9 # 2]%Q
           histogram_example0).
  - reflexivity.
  - discriminate.
  - reflexivity.
  - repeat constructor; vm_compute; eauto.
  - reflexivity.
Defined.

(** The bin a value is counted in, in exact arithmetic ([VALUE] an exact
    rational type; with a floating-point [VALUE] the rounded quotient can
    put a value at a bin border into the bin below). Bin [i] has the left
    border [min + i * binSize]; the first bin also takes every value below
    its left border and the last bin every value from its right border on.
    For a histogram made with [min < max] and at least one bin, after
    values have been added whose quotients [(value - min) / binSize] are in
    the range of [int], fewer than 2^64 - 1 of them: a further value with
    a quotient in the range of [int] that lies in bin [i] in this sense
    raises the counter of bin [i] by one, leaves the counter of every
    other bin alone, and raises [Count()] by one. *)
Theorem histogram_binning (min max : Q) (bins : Z) (values : list Q)
    (h0 h : SgHistogram.t) (value : Q) (i : Z) :
  (0 < bins)%Z → (min < max)%Q →
  SgHistogram.make min max bins = Some h0 →
  Forall (castable h0) values →
  SgHistogram.AddAll values h0 = Some h →
  (Z.of_nat (length values) + 1 < SgStatisticsBase.COUNT_MODULUS)%Z →
  castable h value →
  (0 ≤ i < bins)%Z →
  (i = 0%Z ∨ border h i <= value)%Q →
  (i = (bins - 1)%Z ∨ value < border h (i + 1))%Q →
  ∃ h' c,
    SgHistogram.Add value h = Some h' ∧
    SgHistogram.CountAt i h = Some c ∧
    SgHistogram.CountAt i h' = Some (c + 1)%Z ∧
    (∀ j, j ≠ i → SgHistogram.CountAt j h' = SgHistogram.CountAt j h) ∧
    SgHistogram.Count h' = (SgHistogram.Count h + 1)%Z.
Proof.
  intros Hpos Hlt Hmake Hcast Hadd HM [i0 Hi0] Hi Hlo Hhi.
  destruct (Counted_make min max bins h0 Hpos Hmake) as (HC & Hmin & Hsize).
  assert (0 < (max - min) / inject_Z bins)%Q as Hsz.
  { apply Qlt_shift_div_l; [|lra].
    change 0%Q with (inject_Z 0). by rewrite <- Zlt_Qlt. }
  destruct (Counted_AddAll values h0 bins 0 HC) as (h1 & Hh1 & HCh & Hm & Hs);
    [lia|lia|rewrite Hsize; lra|done|].
  rewrite Hadd in Hh1. injection Hh1 as <-.
  rewrite Z.add_0_l in HCh. rewrite Hsize in Hs.
  assert (0 < SgHistogram.m_binSize h)%Q as Hpos' by (by rewrite Hs).
  pose proof (clamp_bin h bins value i i0 Hpos' Hi Hlo Hhi Hi0) as Hcl.
  destruct (Add_unfold value h bins _ i0 HCh) as (c & Hc & Hadd');
    [lia|lia|lra|done|].
  rewrite Hcl in Hc, Hadd'.
  destruct HCh as (Hb & _ & Hlen & Hcount & _).
  eexists _, c. split; [exact Hadd'|].
  unfold SgHistogram.CountAt, SgHistogram.Count. simpl. rewrite Hb.
  rewrite !decide_True by lia. split; [done|]. split.
  { apply list_lookup_insert_eq. lia. }
  split; [|lia]. intros j Hj. case_decide; [|done].
  apply list_lookup_insert_ne. lia.
Qed.

Lemma histogram_binning_witness :
  ∃ h' c,
    SgHistogram.Add (9 # 2) histogram_example = Some h' ∧
    SgHistogram.CountAt 2 histogram_example = Some c ∧
    SgHistogram.CountAt 2 h' = Some (c + 1)%Z ∧
    (∀ j, j ≠ 2%Z →
          SgHistogram.CountAt j h' = SgHistogram.CountAt j histogram_example) ∧
    SgHistogram.Count h' = (SgHistogram.Count histogram_example + 1)%Z.
Proof.
  apply (histogram_binning 0 10 5 [1; 3; -7]%Q histogram_example0
           histogram_example (9 # 2) 2).
  - reflexivity.
  - reflexivity.
  - reflexivity.
  - repeat constructor; vm_compute; eauto.
  - reflexivity.
  - reflexivity.
  - vm_compute; eauto.
  - lia.
  - right. vm_compute. discriminate.
  - right. vm_compute. reflexivity.
Defined.

(** ** Walking the tree *)

Section Iterator.

Import SgUctTreeIterator.

Variable tree : SgUctTree.t.

Lemma visit_S k cur stack :
  visit (S k) tree (mk (Some cur) stack)
  = it' ← next tree (mk (Some cur) stack); (cur ::.) <$> visit k tree it'.
Proof. done. Qed.

Lemma fmap_app_compose (l1 l2 : list NodeRef) (X : option (list NodeRef)) :
  app l1 <$> (app l2 <$> X) = app (l1 ++ l2) <$> X.
Proof. destruct X; simpl; [|done]. by rewrite (assoc_L _). Qed.

Section Children.

Variable f : nat.
Hypothesis subtree :
  ∀ T cur stack m, unfold f tree cur = Some T →
    visit (length (refs T) + m) tree (mk (Some cur) stack)
    = app (refs T) <$> (unwind stack ≫= visit m tree).

Lemma visit_children rest p (cs : list RTree) stack m :
  mapM (λ it, unfold f tree (AllocRef it)) (p :: rest) = Some cs →
  visit (length (mjoin (refs <$> cs)) + m) tree
    (mk (Some (AllocRef p)) ((p :: rest) :: stack))
  = app (mjoin (refs <$> cs)) <$> (unwind stack ≫= visit m tree).
Proof.
  revert p cs. induction rest as [|p2 rest IH]; intros p cs Hcs.
  - apply mapM_Some in Hcs.
    apply Forall2_cons_inv_l in Hcs as (T1 & cs' & HT1 & Hcs' & ->).
    apply Forall2_nil_inv_l in Hcs' as ->.
    csimpl. rewrite app_nil_r. by rewrite (subtree T1 _ _ m HT1).
  - apply mapM_Some in Hcs.
    apply Forall2_cons_inv_l in Hcs as (T1 & cs' & HT1 & Hcs' & ->).
    apply mapM_Some in Hcs'. specialize (IH p2 cs' Hcs').
    csimpl. rewrite length_app, <- Nat.add_assoc.
    rewrite (subtree T1 _ _ _ HT1).
    cbn [unwind SgUctChildIterator.valid SgUctChildIterator.next
         SgUctChildIterator.deref tail head].
    unfold SgUctChildIterator.valid.
    rewrite !bool_decide_eq_true_2 by done. cbn [mbind option_bind].
    rewrite <- fmap_app_compose. f_equal. exact IH.
Qed.

End Children.

Lemma visit_subtree f T cur stack m :
  unfold f tree cur = Some T →
  visit (length (refs T) + m) tree (mk (Some cur) stack)
  = app (refs T) <$> (unwind stack ≫= visit m tree).
Proof.
  revert T cur stack m. induction f as [|f IH]; intros T cur stack m HT;
    [done|].
  rewrite unfold_S in HT.
  destruct (node_at tree cur) as [n|] eqn:Hn; [|done]. simpl in HT.
  destruct (SgUctNode.ChildPtrs n) as [its|] eqn:Hits; [|done]. simpl in HT.
  destruct (mapM _ its) as [cs|] eqn:Hcs; [|done]. simpl in HT.
  injection HT as <-. rewrite refs_RNode. cbn [length Nat.add].
  rewrite visit_S. unfold next. cbn [m_current m_stack]. simpl. rewrite Hn.
  simpl. unfold SgUctChildIterator.make. unfold SgUctNode.ChildPtrs in Hits.
  destruct (SgUctNode.HasChildren n) eqn:Hc.
  - destruct (SgUctNode.FirstChild n) as [first|] eqn:Hf; [|done].
    simpl in Hits. injection Hits as <-.
    unfold SgUctNode.ChildPtrs. rewrite Hc, Hf. simpl.
    unfold SgUctNode.HasChildren in Hc. apply bool_decide_eq_true in Hc.
    unfold SgUctNode.NuChildren in *.
    destruct (SgUctNode.m_nuChildren n) as [|k]; [lia|].
    cbn [seq fmap list_fmap] in Hcs |- *. simpl.
    pose proof (visit_children f IH _ _ cs stack m Hcs) as Hv.
    etrans; [exact (f_equal (fmap (M:=option) (cons cur)) Hv)|].
    by destruct (unwind stack ≫= visit m tree).
  - injection Hits as <-. simpl in Hcs. injection Hcs as <-. simpl.
    by destruct (unwind stack); simpl; [destruct (visit m tree _)|].
Qed.

Lemma visit_CheckConsistency k it l :
  visit k tree it = Some l →
  CheckConsistency_loop k tree it = Some (inr ()).
Proof.
  revert it l. induction k as [|k IH]; intros [cur stack] l H.
  - simpl in *. destruct cur; [done|done].
  - simpl in *. destruct cur as [cur|]; [|done].
    unfold next in *. simpl in *.
    destruct (node_at tree cur) as [n|] eqn:Hn; [|done].
    unfold Contains. rewrite Hn.
    rewrite bool_decide_eq_true_2 by eauto. simpl in *.
    destruct (if SgUctNode.HasChildren n then _ else _) as [it'|]; [|done].
    simpl in *. destruct (visit k tree it') as [l'|] eqn:Hl'; [|done].
    by eapply IH.
Qed.

Lemma visit_from_root fuel T more :
  unfold fuel tree RootRef = Some T →
  visit (length (refs T) + more) tree make = Some (refs T).
Proof.
  intros HT.
  etrans; [exact (visit_subtree fuel T RootRef [] more HT)|].
  cbn [unwind]. simpl.
  destruct more; simpl; by rewrite app_nil_r.
Qed.

End Iterator.

(** The tree iterator visits the nodes in preorder. If the tree unfolds
    from its root along the child links to [T], the loop over an iterator
    of the tree visits exactly the nodes of [T], every node before its
    children and the children in the order of their block, and then the
    iterator is invalid; it needs one step for each node. *)
Theorem iterator_visits_preorder (fuel : nat) (tree : SgUctTree.t)
    (T : RTree) (more : nat) :
  unfold fuel tree RootRef = Some T →
  SgUctTreeIterator.visit (length (refs T) + more) tree
    SgUctTreeIterator.make = Some (refs T).
Proof.
  apply visit_from_root.
Qed.

Lemma iterator_visits_preorder_witness :
  SgUctTreeIterator.visit (length (refs extract_example_unfolded) + 2)
    extract_example SgUctTreeIterator.make
  = Some (refs extract_example_unfolded).
Proof.
  apply (iterator_visits_preorder 3 extract_example extract_example_unfolded 2).
  reflexivity.
Defined.

(** CheckConsistency accepts a tree all of whose nodes are where the
    child links say: if the tree unfolds from its root to [T], the check
    returns without an exception after one step per node. *)
Theorem CheckConsistency_passes (fuel : nat) (tree : SgUctTree.t)
    (T : RTree) (more : nat) :
  unfold fuel tree RootRef = Some T →
  CheckConsistency (length (refs T) + more) tree = Some (inr ()).
Proof.
  intros HT. unfold CheckConsistency.
  eapply visit_CheckConsistency. by eapply visit_from_root.
Qed.

Lemma CheckConsistency_passes_witness :
  CheckConsistency (length (refs extract_example_unfolded) + 0) extract_example
  = Some (inr ()).
Proof.
  apply (CheckConsistency_passes 3 extract_example extract_example_unfolded 0).
  reflexivity.
Defined.

(** CheckConsistency reports a child block that has not been created. On
    a tree every allocator of which has storage, when the root has
    children and its first child is an address in the storage of an
    allocator behind the last node of that allocator, the check throws the
    consistency error for that address. *)
Theorem CheckConsistency_reports_dangling (tree : SgUctTree.t)
    (first : NodePtr) (a : SgUctAllocator.t) (fuel : nat) :
  SgUctNode.HasChildren (m_root tree) = true →
  SgUctNode.FirstChild (m_root tree) = Some first →
  Forall (λ c, 0 < c) (capacities tree) →
  Allocator (ptr_alloc first) tree = Some a →
  length (SgUctAllocator.m_nodes a) ≤ ptr_index first
  < SgUctAllocator.m_capacity a →
  CheckConsistency (S fuel) tree
  = Some (inl (ConsistencyError (AllocRef first))).
Proof.
  intros Hc Hf _ Ha [Hsize _].
  assert (node_at tree (AllocRef first) = None) as Hnone.
  { simpl. rewrite Ha. simpl. by apply lookup_ge_None_2. }
  unfold CheckConsistency. simpl.
  unfold SgUctTreeIterator.next, SgUctChildIterator.make,
    SgUctNode.ChildPtrs. simpl. rewrite Hc, Hf. simpl.
  unfold SgUctNode.HasChildren in Hc. apply bool_decide_eq_true in Hc.
  unfold SgUctNode.NuChildren.
  destruct (SgUctNode.m_nuChildren (m_root tree)) as [|k]; [lia|]. simpl.
  assert (ptr_offset first 0 = first) as ->.
  { destruct first. unfold ptr_offset. simpl. f_equal. lia. }
  destruct fuel; simpl; unfold Contains; rewrite Hnone; done.
Qed.

Lemma CheckConsistency_reports_dangling_witness :
  CheckConsistency 1 dangling_example
  = Some (inl (ConsistencyError (AllocRef (mkPtr 0 0)))).
Proof.
  apply (CheckConsistency_reports_dangling dangling_example (mkPtr 0 0)
           (SgUctAllocator.mk [] 5) 0).
  - reflexivity.
  - reflexivity.
  - repeat constructor.
  - reflexivity.
  - simpl. lia.
Defined.

(** ** Exchanging two trees *)

Section Swapping.

Lemma set_allocator_lookup i a (tree : SgUctTree.t) j :
  i < NuAllocators tree →
  m_allocators (set_allocator i a tree) !! j
  = if decide (j = i) then Some a else m_allocators tree !! j.
Proof.
  intros Hi. unfold set_allocator. simpl. case_decide as Hj.
  - subst. by apply list_lookup_insert_eq.
  - by apply list_lookup_insert_ne.
Qed.

Lemma Swap_loop_spec (count start : nat) (this tree : SgUctTree.t) :
  start + count ≤ NuAllocators this →
  start + count ≤ NuAllocators tree →
  ∃ this' tree',
    Swap_loop (seq start count) this tree = Some (this', tree') ∧
    m_maxNodes this' = m_maxNodes this ∧ m_root this' = m_root this ∧
    m_maxNodes tree' = m_maxNodes tree ∧ m_root tree' = m_root tree ∧
    NuAllocators this' = NuAllocators this ∧
    NuAllocators tree' = NuAllocators tree ∧
    ∀ j, m_allocators this' !! j
         = (if decide (start ≤ j < start + count)
            then m_allocators tree !! j else m_allocators this !! j) ∧
         m_allocators tree' !! j
         = (if decide (start ≤ j < start + count)
            then m_allocators this !! j else m_allocators tree !! j).
Proof.
  revert start this tree.
  induction count as [|count IH]; intros start this tree H1 H2.
  - exists this, tree. split_and!; try done.
    intros j. rewrite !decide_False by lia. done.
  - cbn [seq Swap_loop]. unfold Allocator.
    destruct (lookup_lt_is_Some_2 (m_allocators this) start) as [a Ha];
      [unfold NuAllocators in H1; lia|].
    destruct (lookup_lt_is_Some_2 (m_allocators tree) start) as [b Hb];
      [unfold NuAllocators in H2; lia|].
    rewrite Ha, Hb. simpl.
    assert (NuAllocators (set_allocator start b this) = NuAllocators this)
      as Hn1 by (unfold NuAllocators; simpl; by rewrite length_insert).
    assert (NuAllocators (set_allocator start a tree) = NuAllocators tree)
      as Hn2 by (unfold NuAllocators; simpl; by rewrite length_insert).
    destruct (IH (S start) (set_allocator start b this)
                (set_allocator start a tree))
      as (this' & tree' & Hl & Hm1 & Hr1 & Hm2 & Hr2 & HA1 & HA2 & Hall);
      [lia..|].
    exists this', tree'. split; [done|].
    split_and!; try done; try congruence.
    intros j. destruct (Hall j) as [Hj1 Hj2]. rewrite Hj1, Hj2.
    rewrite !set_allocator_lookup by lia.
    split; repeat case_decide; subst; try lia; try done; congruence.
Qed.

End Swapping.

(** Swap exchanges two trees. Under the asserted preconditions (the same
    maximum number of nodes, the same number of allocators) the call
    returns, and each tree is afterwards what the other was: the root,
    and every allocator with its nodes. *)
Theorem Swap_exchanges (this tree : SgUctTree.t) :
  MaxNodes this = MaxNodes tree →
  NuAllocators this = NuAllocators tree →
  Swap this tree = Some (tree, this).
Proof.
  intros Hmax Hn. unfold Swap.
  set (this0 := {| m_maxNodes := m_maxNodes this; m_root := m_root tree;
                   m_allocators := m_allocators this |}).
  set (tree0 := {| m_maxNodes := m_maxNodes tree; m_root := m_root this;
                   m_allocators := m_allocators tree |}).
  destruct (Swap_loop_spec (NuAllocators this) 0 this0 tree0)
    as (this' & tree' & Hl & Hm1 & Hr1 & Hm2 & Hr2 & HA1 & HA2 & Hall);
    [done|simpl; unfold NuAllocators in *; simpl; lia|].
  rewrite Hl. f_equal.
  assert (m_allocators this' = m_allocators tree) as E1.
  { apply list_eq. intros j. destruct (Hall j) as [-> _]. simpl.
    case_decide as Hj; [done|].
    rewrite !lookup_ge_None_2; [done|unfold NuAllocators in *; lia..]. }
  assert (m_allocators tree' = m_allocators this) as E2.
  { apply list_eq. intros j. destruct (Hall j) as [_ ->]. simpl.
    case_decide as Hj; [done|].
    rewrite !lookup_ge_None_2; [done|unfold NuAllocators in *; lia..]. }
  unfold MaxNodes in Hmax.
  destruct this', tree', this, tree. simpl in *. by subst.
Qed.

Lemma Swap_exchanges_witness :
  Swap filter_example example_tree = Some (example_tree, filter_example).
Proof. apply Swap_exchanges; reflexivity. Defined.

(** ** A truncated extraction is a pruned copy *)

Section Prune.
Implicit Types (tree : SgUctTree.t) (r : NodeRef) (n : SgUctNode.t)
  (p : NodePtr) (a : SgUctAllocator.t) (st : CopyState) (T : RTree).
Variables (env : Env) (maxTime : Q) (src : SgUctTree.t).

(** Every node of an unfolded subtree is a node of the tree. *)
Lemma unfold_refs_exist fuel tree r T :
  unfold fuel tree r = Some T →
  ∀ x, x ∈ refs T → is_Some (node_at tree x).
Proof.
  revert r T. induction fuel as [|fuel IH]; intros r T H x Hx; [done|].
  rewrite unfold_S in H.
  destruct (node_at tree r) as [n|] eqn:Hn; [|done]. simpl in H.
  destruct (SgUctNode.ChildPtrs n) as [its|] eqn:Hits; [|done]. simpl in H.
  destruct (mapM _ its) as [children|] eqn:Hch; [|done]. simpl in H.
  injection H as <-. rewrite refs_RNode in Hx.
  apply elem_of_cons in Hx as [->|Hx]; [by eauto|].
  apply list_elem_of_join in Hx as (l & Hx & Hl).
  apply list_elem_of_fmap in Hl as (Tc & -> & HTc).
  apply mapM_Some in Hch.
  apply list_elem_of_lookup in HTc as [i Hi].
  destruct (Forall2_lookup_r _ _ _ _ _ Hch Hi) as (it & _ & Hit).
  by eapply IH.
Qed.

Section Children.
Variable fuel : nat.
Hypothesis prune_ok :
  ∀ targetNode node st st' T x,
    CopySubtree fuel env maxTime src targetNode node st = Some st' →
    unfold fuel src node = Some T →
    node_at (target st) targetNode = Some x → SgUctNode.NuChildren x = 0 →
    ∃ T', unfold fuel (target st') targetNode = Some T' ∧
          Pruned (shape T) (shape T') ∧
          (∀ r, r ∈ refs T' → r = targetNode ∨ node_at (target st) r = None) ∧
          NuNodes (target st') + 1 = NuNodes (target st) + length (refs T') ∧
          length (refs T') ≤ length (refs T) ∧
          NoDup (refs T').

Lemma CopySubtree_recurse_prunes first its i st st' (cs : list RTree) :
  CopySubtree_recurse (CopySubtree fuel env maxTime src) first its i st
  = Some st' →
  mapM (λ it, unfold fuel src (AllocRef it)) its = Some cs →
  (∀ j, i ≤ j < i + length its →
        ∃ x, node_at (target st) (AllocRef (ptr_offset first j)) = Some x
             ∧ SgUctNode.NuChildren x = 0) →
  ∃ Ts : list RTree,
    mapM (λ j, unfold fuel (target st') (AllocRef (ptr_offset first j)))
      (seq i (length its)) = Some Ts ∧
    Forall2 Pruned (shape <$> cs) (shape <$> Ts) ∧
    (∀ r, r ∈ mjoin (refs <$> Ts) →
          (∃ j, i ≤ j < i + length its ∧ r = AllocRef (ptr_offset first j))
          ∨ node_at (target st) r = None) ∧
    NuNodes (target st') + length its
    = NuNodes (target st) + length (mjoin (refs <$> Ts)) ∧
    length (mjoin (refs <$> Ts)) ≤ length (mjoin (refs <$> cs)) ∧
    NoDup (mjoin (refs <$> Ts)).
Proof.
  revert i st cs. induction its as [|child its IH]; intros i st cs H Hcs Hfresh.
  - injection H as <-. apply mapM_Some in Hcs.
    apply Forall2_nil_inv_l in Hcs as ->. exists []. simpl.
    split_and!; [done|constructor| |lia|lia|constructor].
    intros r Hr. by apply elem_of_nil in Hr.
  - apply mapM_Some in Hcs.
    apply Forall2_cons_inv_l in Hcs as (T0 & cs' & HT0 & Hcs' & ->).
    apply mapM_Some in Hcs'.
    cbn [CopySubtree_recurse] in H.
    destruct (CopySubtree fuel env maxTime src _ _ (next_allocator st))
      as [s1|] eqn:H1; [|done]. simpl in H.
    destruct (Hfresh i) as (x & Hx & Hxz); [simpl; lia|].
    destruct (prune_ok _ _ _ _ _ _ H1 HT0 Hx Hxz)
      as (T0' & HT0' & Hsh0 & Hrefs0 & Hnu0 & Hle0 & Hnd0).
    pose proof (CopySubtree_Grown _ _ _ _ _ _ _ _ H1) as Hg1.
    rewrite next_allocator_target in Hg1, Hrefs0, Hnu0.
    destruct (IH (S i) s1 cs' H Hcs')
      as (Ts & HTs & Hsh & Hrefs & Hnu & Hle & Hnd).
    { intros j Hj. destruct (Hfresh j) as (y & Hy & Hyz); [simpl; lia|].
      exists y. split; [|done]. destruct Hg1 as (_ & _ & _ & Hold & _).
      apply Hold; [|done]. intros Heq. apply ptr_offset_inj in Heq. lia. }
    pose proof (CopySubtree_recurse_Grown _ _ _ _ _ _ _ _ _ H) as Hg2.
    assert (unfold fuel (target st') (AllocRef (ptr_offset first i)) = Some T0')
      as HT0''.
    { eapply unfold_ext; [done|]. intros r y Hr Hy.
      destruct Hg2 as (_ & _ & _ & Hold & _). apply Hold; [|done].
      intros (j & Hj & ->).
      destruct (Hrefs0 _ Hr) as [Heq|Hnone].
      - apply ptr_offset_inj in Heq. lia.
      - destruct (Hfresh j) as (z & Hz & _); [simpl; lia|]. congruence. }
    exists (T0' :: Ts). split_and!.
    + apply mapM_Some. cbn [length seq]. constructor; [done|].
      by apply mapM_Some.
    + csimpl. by constructor.
    + intros r Hr. csimpl in Hr. apply elem_of_app in Hr as [Hr|Hr].
      * destruct (Hrefs0 _ Hr) as [->|Hnone]; [|by right].
        left. exists i. split; [simpl; lia|done].
      * destruct (Hrefs _ Hr) as [(j & Hj & ->)|Hnone].
        -- left. exists j. split; [simpl; lia|done].
        -- right. by eapply Grown_None.
    + csimpl. rewrite length_app. lia.
    + csimpl. rewrite !length_app. lia.
    + csimpl. apply NoDup_app. split; [done|]. split; [|done].
      intros r Hr0 Hr.
      destruct (unfold_refs_exist _ _ _ _ HT0' _ Hr0) as [y Hy].
      destruct (Hrefs _ Hr) as [(j & Hj & ->)|Hnone]; [|congruence].
      destruct (Hrefs0 _ Hr0) as [Heq|Hnone].
      * apply ptr_offset_inj in Heq. lia.
      * destruct (Hfresh j) as (z & Hz & _); [simpl; lia|]. congruence.
Qed.
End Children.

Lemma CopySubtree_prunes fuel targetNode node st st' T x :
  CopySubtree fuel env maxTime src targetNode node st = Some st' →
  unfold fuel src node = Some T →
  node_at (target st) targetNode = Some x → SgUctNode.NuChildren x = 0 →
  ∃ T', unfold fuel (target st') targetNode = Some T' ∧
        Pruned (shape T) (shape T') ∧
        (∀ r, r ∈ refs T' → r = targetNode ∨ node_at (target st) r = None) ∧
        NuNodes (target st') + 1 = NuNodes (target st) + length (refs T') ∧
        length (refs T') ≤ length (refs T) ∧
        NoDup (refs T').
Proof.
  revert targetNode node st st' T x.
  induction fuel as [|fuel IH]; intros targetNode node st st' T x H HT Hx Hxz;
    [done|].
  destruct (CopySubtree_inv _ _ _ _ _ _ _ _ H) as (n & x' & Hn & Hx' & Hch).
  rewrite Hx in Hx'. injection Hx' as <-.
  rewrite unfold_S, Hn in HT. simpl in HT.
  destruct (SgUctNode.ChildPtrs n) as [its|] eqn:Hits; [|done]. simpl in HT.
  destruct (mapM _ its) as [cs|] eqn:Hcs; [|done]. simpl in HT.
  injection HT as <-.
  pose proof (ChildPtrs_length _ _ Hits) as Hlen.
  pose proof (length_mapM _ _ _ Hcs) as Hlen'.
  destruct (SgUctNode.HasChildren n) eqn:Hc.
  - destruct (Hch eq_refl) as (a & Ha & _).
    destruct (truncates env maxTime n a st) eqn:Ht.
    { destruct (CopySubtree_truncate env maxTime src fuel _ _ _ _ _ _
                  Hn Hx Hc Ha Ht) as (tg & Hrw & Heq).
      rewrite Heq in H. injection H as <-. cbn [target].
      eexists. split_and!.
      + rewrite unfold_S, (Rewritten_eq _ _ _ _ _ Hrw Hx). simpl.
        rewrite ChildPtrs_no_children by done. simpl. done.
      + simpl. apply (Pruned_cut (data n)).
        intros Hnil. apply fmap_nil_inv in Hnil. subst cs.
        unfold SgUctNode.HasChildren in Hc. apply bool_decide_eq_true in Hc.
        unfold SgUctNode.NuChildren in *. simpl in Hlen'. lia.
      + intros r Hr. rewrite refs_RNode in Hr.
        apply elem_of_cons in Hr as [->|Hr]; [by left|].
        by apply elem_of_nil in Hr.
      + rewrite (Rewritten_NuNodes _ _ _ _ Hrw). simpl. lia.
      + rewrite !refs_RNode. simpl. lia.
      + rewrite refs_RNode. simpl. apply NoDup_singleton. }
    destruct (CopySubtree_copy env maxTime src fuel _ _ _ _ _ _ _
                Hn Hx Hc Ha Ht Hits) as (tg2 & tg3 & Hrw & Hp & Heq).
    rewrite Heq in H. clear Heq.
    set (first := mkPtr (currentAllocatorId st)
                    (length (SgUctAllocator.m_nodes a))) in *.
    assert (sizes (target st) !! currentAllocatorId st
            = Some (length (SgUctAllocator.m_nodes a))) as Hsa
      by (by rewrite sizes_lookup, Ha).
    assert (sizes tg2 !! currentAllocatorId st
            = Some (length (SgUctAllocator.m_nodes a))) as Hsa2
      by (destruct Hrw as (-> & _); done).
    assert (∀ j, node_at (target st) (AllocRef (ptr_offset first j)) = None)
      as Hnew.
    { intros j. apply (node_at_None _ (ptr_offset first j) _ Hsa). simpl. lia. }
    assert (Grown (eq targetNode) (target st) tg3) as Hg3.
    { eapply Grown_trans; [by eapply Rewritten_Grown|by eapply Pushed_Grown]. }
    destruct (CopySubtree_recurse_prunes fuel (IH) first its 0 _ st' cs H Hcs)
      as (Ts & HTs & Hsh & Hrefs & Hnu & Hle & Hnd).
    { intros j Hj. exists (SgUctNode.make SG_NULLMOVE). split; [|done].
      etrans; [exact (Pushed_new _ _ _ _ _ j Hp Hsa2)|].
      apply lookup_replicate. split; [done|]. lia. }
    simpl in Hrefs, Hnu.
    pose proof (CopySubtree_recurse_Grown _ _ _ _ _ _ _ _ _ H) as Hg.
    simpl in Hg.
    assert (node_at (target st') targetNode
            = Some (SgUctNode.SetNuChildren (SgUctNode.NuChildren n)
                      (SgUctNode.SetFirstChild (Some first)
                         (SgUctNode.CopyDataFrom n x)))) as Htn.
    { destruct Hg as (_ & _ & _ & Hold & _). apply Hold.
      - intros (j & _ & ->). by rewrite Hnew in Hx.
      - eapply Pushed_old; [done|].
        by rewrite (Rewritten_eq _ _ _ _ _ Hrw Hx). }
    eexists. split_and!.
    + rewrite unfold_S, Htn. simpl.
      rewrite (ChildPtrs_block _ first) by done. simpl.
      rewrite mapM_fmap_l. rewrite <- Hlen.
      unfold compose. rewrite HTs. simpl. done.
    + simpl. by apply Pruned_copy.
    + intros r Hr. rewrite refs_RNode in Hr.
      apply elem_of_cons in Hr as [->|Hr]; [by left|]. right.
      destruct (Hrefs _ Hr) as [(j & _ & ->)|Hnone]; [done|].
      by eapply Grown_None.
    + rewrite refs_RNode. simpl.
      rewrite (Pushed_NuNodes _ _ _ _ Hp), (Rewritten_NuNodes _ _ _ _ Hrw) in Hnu.
      rewrite length_replicate in Hnu. lia.
    + rewrite !refs_RNode. simpl. lia.
    + rewrite refs_RNode. apply NoDup_cons. split; [|done].
      intros Hin. destruct (Hrefs _ Hin) as [(j & _ & Heq)|Hnone].
      * rewrite Heq, Hnew in Hx. done.
      * destruct Hg3 as (_ & _ & _ & _ & Hex).
        destruct (Hex targetNode) as [y Hy]; [by eauto|]. congruence.
  - destruct (CopySubtree_leaf env maxTime src fuel _ _ _ _ _ Hn Hx Hc)
      as (tg & Hrw & Heq).
    rewrite Heq in H. injection H as <-.
    change (target (with_target tg st)) with tg.
    assert (its = []) as ->.
    { unfold SgUctNode.ChildPtrs in Hits. rewrite Hc in Hits. by injection Hits. }
    apply mapM_Some in Hcs. apply Forall2_nil_inv_l in Hcs as ->.
    eexists. split_and!.
    + rewrite unfold_S, (Rewritten_eq _ _ _ _ _ Hrw Hx). simpl.
      rewrite ChildPtrs_no_children by done. simpl. done.
    + simpl. apply Pruned_copy. constructor.
    + intros r Hr. rewrite refs_RNode in Hr.
      apply elem_of_cons in Hr as [->|Hr]; [by left|].
      by apply elem_of_nil in Hr.
    + rewrite (Rewritten_NuNodes _ _ _ _ Hrw). simpl. lia.
    + done.
    + rewrite refs_RNode. simpl. apply NoDup_singleton.
Qed.

End Prune.

(** What an extraction yields, truncated or not. If the source subtree
    below [node] unfolds to [T] and the target has an allocator, the
    extraction returns for every environment and either value of
    [warnTruncate]; the target then unfolds from its root to a pruned copy
    of [T]: the same moves and statistics at every node that was copied,
    the children cut off at the nodes where the copy truncated (nodes
    with children, left with the position count 0), and nothing else.
    [NuNodes] of the target is the number of nodes of that copy, which is
    at most the number of nodes of [T]. *)
Theorem extraction_prunes (fuel : nat) (env : Env)
    (src target0 : SgUctTree.t) (node : NodeRef) (warn : bool) (maxTime : Q)
    (T : RTree) :
  unfold fuel src node = Some T →
  0 < NuAllocators target0 →
  ∃ r T',
    ExtractSubtree fuel env src target0 node warn maxTime = Some r ∧
    unfold fuel (target r) RootRef = Some T' ∧
    Pruned (shape T) (shape T') ∧
    NuNodes (target r) = length (refs T') ∧
    length (refs T') ≤ length (refs T) ∧
    NoDup (refs T').
Proof.
  intros HT Hpos. rewrite ExtractSubtree_unfold.
  destruct (CopySubtree_total env maxTime src fuel RootRef node
              (mkCopyState (Clear target0) 0 warn 0 []) T HT)
    as (r & Hr & _); [by eauto|simpl; by rewrite NuAllocators_Clear|].
  destruct (CopySubtree_prunes env maxTime src fuel RootRef node _ r T
              (SgUctNode.make SG_NULLMOVE) Hr HT)
    as (T' & HT' & Hp & _ & Hnu & Hle & Hnd); [done|done|].
  simpl in Hnu. rewrite NuNodes_Clear in Hnu.
  exists r, T'. split_and!; try done. lia.
Qed.

Lemma extraction_prunes_witness :
  ∃ r T',
    ExtractSubtree 3 abort_env extract_example roomy_target RootRef true 1
    = Some r ∧
    unfold 3 (target r) RootRef = Some T' ∧
    Pruned (shape extract_example_unfolded) (shape T') ∧
    NuNodes (target r) = length (refs T') ∧
    length (refs T') ≤ length (refs extract_example_unfolded) ∧
    NoDup (refs T').
Proof.
  apply (extraction_prunes 3 abort_env extract_example roomy_target RootRef
           true 1 extract_example_unfolded).
  - reflexivity.
  - vm_compute. lia.
Defined.

(** ** The tree stays valid *)

Section Validity.
Implicit Types (tree : SgUctTree.t) (r : NodeRef) (n : SgUctNode.t).

Lemma block_ok_mono tree tree' n :
  (∀ i s, sizes tree !! i = Some s →
          ∃ s', sizes tree' !! i = Some s' ∧ s ≤ s') →
  block_ok tree n → block_ok tree' n.
Proof.
  rewrite !block_ok_sizes. intros Hmono H Hc.
  destruct (H Hc) as (first & s & Hf & Hs & Hle).
  destruct (Hmono _ _ Hs) as (s' & Hs' & Hle').
  exists first, s'. split_and!; [done|done|lia].
Qed.

(** Appending a block of nodes without children to an allocator and
    making it the child block of a node keeps the tree valid. *)
Lemma Valid_publish allocatorId (ns : list SgUctNode.t) tree tree1 tree'
    node n s :
  Valid tree →
  Pushed allocatorId ns tree tree1 →
  Forall (λ x, SgUctNode.NuChildren x = 0) ns →
  sizes tree !! allocatorId = Some s →
  sizes tree' = sizes tree1 → capacities tree' = capacities tree1 →
  (∀ r, node_at tree' r =
        if decide (r = node)
        then Some (SgUctNode.SetNuChildren (length ns)
                     (SgUctNode.SetFirstChild (Some (mkPtr allocatorId s)) n))
        else node_at tree1 r) →
  Valid tree'.
Proof.
  intros Hv Hp Hfresh Hs Hs' Hc' Hview.
  apply Valid_alt in Hv as [Hblocks Hcaps]. apply Valid_alt.
  pose proof Hp as (s0 & c & Hs0 & Hc & Hroom & Hs1 & Hc1 & _ & Hn1).
  rewrite Hs in Hs0. injection Hs0 as <-.
  assert (∀ i s0, sizes tree !! i = Some s0 →
                  ∃ s', sizes tree' !! i = Some s' ∧ s0 ≤ s') as Hmono.
  { intros i s0 Hi. rewrite Hs', Hs1.
    destruct (decide (i = allocatorId)) as [->|Hne].
    - rewrite list_lookup_insert_eq by (by eapply lookup_lt_Some).
      eexists. split; [done|]. rewrite Hs in Hi. injection Hi as <-. lia.
    - rewrite list_lookup_insert_ne by done. eauto. }
  split.
  - intros r x Hx. rewrite Hview in Hx. case_decide as Hr.
    + injection Hx as <-. apply block_ok_sizes. intros Hch.
      exists (mkPtr allocatorId s), (s + length ns). split; [done|].
      split; [|simpl; lia]. simpl. rewrite Hs', Hs1.
      apply list_lookup_insert_eq. by eapply lookup_lt_Some.
    + rewrite Hn1 in Hx. destruct r as [|p].
      * eapply block_ok_mono; [done|]. by eapply Hblocks.
      * case_decide as Hnew.
        -- apply block_ok_no_children.
           by apply (Forall_lookup_1 _ _ _ _ Hfresh Hx).
        -- eapply block_ok_mono; [done|]. by eapply Hblocks.
  - rewrite Hs', Hc', Hs1, Hc1. apply Forall2_lookup. intros i.
    pose proof (proj1 (Forall2_lookup _ _ _) Hcaps i) as Hi.
    destruct (decide (i = allocatorId)) as [->|Hne].
    + rewrite list_lookup_insert_eq by (by eapply lookup_lt_Some).
      rewrite Hc. constructor.
      destruct ns as [|x ns]; [|apply Hroom; done].
      simpl. rewrite Hs, Hc in Hi. inversion Hi; subst. lia.
    + rewrite list_lookup_insert_ne by done. exact Hi.
Qed.

Lemma Valid_readable tree node n :
  Valid tree → node_at tree node = Some n →
  ∃ cs, Children tree node = Some cs.
Proof.
  intros Hv Hn. apply Valid_alt in Hv as [Hblocks _].
  specialize (Hblocks _ _ Hn).
  pose proof (proj1 (block_ok_sizes _ _) Hblocks) as Hb. clear Hblocks.
  rename Hb into Hblocks. unfold Children. rewrite Hn. simpl.
  destruct (SgUctNode.HasChildren n) eqn:Hc.
  - destruct (Hblocks eq_refl) as (first & s & Hf & Hs & Hle).
    rewrite (ChildPtrs_block _ first) by done. simpl.
    apply mapM_is_Some. apply Forall_fmap, Forall_forall.
    intros i Hi. apply elem_of_seq in Hi. simpl.
    destruct (sizes_Allocator _ _ _ Hs) as (a & Ha & Hlen).
    rewrite Ha. simpl. apply lookup_lt_is_Some_2. lia.
  - rewrite ChildPtrs_no_children; [by eexists|].
    unfold SgUctNode.HasChildren in Hc. apply bool_decide_eq_false in Hc.
    unfold SgUctNode.NuChildren. lia.
Qed.

Lemma CreateChildren_Valid allocatorId node moves tree :
  Valid tree → is_Some (node_at tree node) →
  HasRoom allocatorId (length moves) tree →
  ∃ tree', CreateChildren allocatorId node moves tree = Some tree'
           ∧ Valid tree'.
Proof.
  intros Hv [n Hn] Hroom.
  apply HasRoom_sizes in Hroom as (s & c & Hs & Hc & Hle).
  destruct (CreateChildren_view allocatorId node moves tree n s c Hn Hs Hc Hle)
    as (tree1 & tree' & Hp & Hcc & Hs' & Hc' & _ & Hview).
  exists tree'. split; [done|].
  eapply (Valid_publish allocatorId (SgUctNode.make <$> moves));
    [done|done| |done|done|done|].
  - apply Forall_fmap, Forall_forall. by intros.
  - intros r. rewrite Hview. by rewrite length_fmap.
Qed.

Lemma ApplyFilter_Valid allocatorId node rootFilter tree n :
  Valid tree → node_at tree node = Some n →
  HasRoom allocatorId (SgUctNode.NuChildren n) tree →
  ∃ tree', ApplyFilter allocatorId node rootFilter tree = Some tree'
           ∧ Valid tree'.
Proof.
  intros Hv Hn Hroom.
  destruct (Valid_readable tree node n Hv Hn) as [cs Hcs].
  pose proof (Children_length _ _ _ _ Hn Hcs) as Hlen.
  apply HasRoom_sizes in Hroom as (s & c & Hs & Hc & Hle).
  set (kept := filter (λ c, SgUctNode.Move c ∉ rootFilter) cs).
  assert (length kept ≤ length cs) as Hkept by apply length_filter.
  unfold ApplyFilter. rewrite Hn. simpl.
  unfold SgUctNode.HasChildren.
  destruct (decide (SgUctNode.NuChildren n = 0)) as [Hz|Hnz].
  - unfold SgUctNode.NuChildren in Hz. rewrite Hz.
    rewrite bool_decide_eq_false_2 by lia. simpl. eauto.
  - unfold SgUctNode.NuChildren in Hnz.
    rewrite bool_decide_eq_true_2 by lia. simpl.
    destruct (sizes_Allocator _ _ _ Hs) as (a & Ha & Hsa). rewrite Ha. simpl.
    unfold Children in Hcs. rewrite Hn in Hcs. simpl in Hcs.
    destruct (SgUctNode.ChildPtrs n) as [its|]; [|done]. simpl in Hcs |- *.
    destruct (ApplyFilter_loop_Pushed allocatorId rootFilter its tree 0 cs s c)
      as (tree1 & -> & Hp); [done|done|done|fold kept; lia|]. simpl.
    fold kept in Hp |- *. rewrite Hsa.
    destruct (publish_view node
                (SgUctNode.SetFirstChild (Some (mkPtr allocatorId s)))
                (SgUctNode.SetNuChildren (length kept)) tree1 n)
      as (tree' & -> & Hs' & Hc' & _ & Hview); [by eapply Pushed_old|].
    exists tree'. split; [done|].
    eapply (Valid_publish allocatorId
              ((λ c, SgUctNode.make (SgUctNode.Move c)) <$> kept));
      [done|done| |done|done|done|].
    + apply Forall_fmap, Forall_forall. by intros.
    + intros r. rewrite Hview. by rewrite length_fmap.
Qed.

Lemma Valid_cleared tree :
  Forall (λ a, SgUctAllocator.m_nodes a = []) (m_allocators tree) →
  SgUctNode.NuChildren (m_root tree) = 0 → Valid tree.
Proof.
  intros Hall Hroot. split; [by apply block_ok_no_children|].
  eapply Forall_impl; [exact Hall|]. intros a ->. simpl. split; [lia|done].
Qed.

End Validity.

(** Validity is an invariant of the tree operations. A new tree is valid,
    and so is every tree that CreateAllocators, SetMaxNodes or Clear
    leave; CreateChildren and ApplyFilter, called on a valid tree under
    their asserted preconditions, return a valid tree. In a valid tree
    every child block is a range of existing nodes of one allocator and no
    allocator holds more nodes than its capacity. *)
Theorem operations_keep_valid :
  Valid SgUctTree.make ∧
  (∀ nuThreads tree, Valid (CreateAllocators nuThreads tree)) ∧
  (∀ maxNodes tree, Valid (SetMaxNodes maxNodes tree)) ∧
  (∀ tree, Valid (Clear tree)) ∧
  (∀ allocatorId node moves tree,
     Valid tree → is_Some (node_at tree node) →
     HasRoom allocatorId (length moves) tree →
     ∃ tree', CreateChildren allocatorId node moves tree = Some tree'
              ∧ Valid tree') ∧
  (∀ allocatorId node rootFilter tree n,
     Valid tree → node_at tree node = Some n →
     HasRoom allocatorId (SgUctNode.NuChildren n) tree →
     ∃ tree', ApplyFilter allocatorId node rootFilter tree = Some tree'
              ∧ Valid tree').
Proof.
  split_and!.
  - by apply Valid_cleared.
  - intros nuThreads tree. apply Valid_cleared; [|done].
    simpl. by apply Forall_replicate.
  - intros maxNodes tree. unfold SetMaxNodes. case_decide.
    + apply Valid_Clear.
    + apply Valid_cleared; [|done]. simpl.
      apply Forall_fmap, Forall_fmap, Forall_forall. by intros.
  - apply Valid_Clear.
  - apply CreateChildren_Valid.
  - apply ApplyFilter_Valid.
Qed.

(** ** The children after an expansion and after a filter *)

Lemma fmap_Move_make (moves : list SgMove) :
  SgUctNode.Move <$> (SgUctNode.make <$> moves) = moves.
Proof.
  rewrite <- list_fmap_compose. induction moves as [|m moves IH]; [done|].
  csimpl. by rewrite IH.
Qed.

Lemma fmap_Move_filter (rootFilter : list SgMove) (cs : list SgUctNode.t) :
  SgUctNode.Move <$> filter (λ c, SgUctNode.Move c ∉ rootFilter) cs
  = filter (λ move, move ∉ rootFilter) (SgUctNode.Move <$> cs).
Proof.
  induction cs as [|c cs IH]; [done|]. csimpl.
  rewrite !filter_cons. case_decide; csimpl; by rewrite IH.
Qed.

(** The children of a node after CreateChildren are the new nodes, also
    when the node had children before (in lock-free mode a node can be
    expanded more than once; the later call overwrites the child
    information of the earlier one). Under the asserted preconditions the
    call returns; the children of the node are then fresh nodes for the
    moves, in the order of the moves, and none of them is a node that
    existed before. *)
Theorem CreateChildren_then_Children (allocatorId : nat) (node : NodeRef)
    (moves : list SgMove) (tree : SgUctTree.t) (n : SgUctNode.t) :
  node_at tree node = Some n →
  HasRoom allocatorId (length moves) tree →
  ∃ tree',
    CreateChildren allocatorId node moves tree = Some tree' ∧
    Children tree' node = Some (SgUctNode.make <$> moves) ∧
    ChildMoves tree' node = Some moves ∧
    (∀ x, Child tree' node x → node_at tree x = None).
Proof.
  intros Hn Hroom.
  apply HasRoom_sizes in Hroom as (s & c & Hs & Hc & Hle).
  destruct (CreateChildren_view allocatorId node moves tree n s c Hn Hs Hc Hle)
    as (tree1 & tree' & Hp & Hcc & Hs' & Hc' & _ & Hview).
  assert (node_at tree' node
          = Some (SgUctNode.SetNuChildren (length moves)
                    (SgUctNode.SetFirstChild (Some (mkPtr allocatorId s)) n)))
    as Hn' by (by rewrite Hview, decide_True).
  assert (Children tree' node = Some (SgUctNode.make <$> moves)) as Hch.
  { assert (∀ i, node_at tree' (AllocRef (mkPtr allocatorId (s + i)))
                   = (SgUctNode.make <$> moves) !! i) as Hnew.
    { intros i. rewrite Hview, decide_False.
      - by apply (Pushed_new _ _ tree).
      - intros <-.
        rewrite (node_at_None tree (mkPtr allocatorId _) _ Hs) in Hn;
          [done|simpl; lia]. }
    eapply Children_block; [exact Hn'|done|simpl; by rewrite length_fmap|].
    done. }
  exists tree'. split; [done|]. split; [done|]. split.
  - unfold ChildMoves. rewrite Hch. simpl. by rewrite fmap_Move_make.
  - intros x (n0 & its & it & Hn0 & Hits & Hin & ->).
    rewrite Hn' in Hn0. injection Hn0 as <-.
    rewrite (ChildPtrs_block _ (mkPtr allocatorId s)) in Hits by done.
    injection Hits as <-. apply list_elem_of_fmap in Hin as (i & -> & _).
    by apply (node_at_None _ _ s); [|simpl; lia].
Qed.

Lemma CreateChildren_then_Children_witness :
  ∃ tree',
    CreateChildren 1 RootRef [5; 6]%Z filter_example = Some tree' ∧
    Children tree' RootRef = Some (SgUctNode.make <$> [5; 6]%Z) ∧
    ChildMoves tree' RootRef = Some [5; 6]%Z ∧
    (∀ x, Child tree' RootRef x → node_at filter_example x = None).
Proof.
  apply (CreateChildren_then_Children 1 RootRef [5; 6]%Z filter_example
           (m_root filter_example)).
  - reflexivity.
  - eexists. split; reflexivity.
Defined.

(** What ApplyFilter leaves below the node (see C1). Under the asserted
    preconditions the call returns; the children of the node are then
    fresh nodes for the moves of the old children that are not in the
    filter, in the old order: each has zeroed statistics and no children,
    whatever the old child had. The moves that are left are the old moves
    without those of the filter, and the node keeps its own move and
    statistics. *)
Theorem ApplyFilter_children_fresh (allocatorId : nat) (node : NodeRef)
    (rootFilter : list SgMove) (tree : SgUctTree.t)
    (n : SgUctNode.t) (cs : list SgUctNode.t) :
  node_at tree node = Some n →
  Children tree node = Some cs →
  HasRoom allocatorId (SgUctNode.NuChildren n) tree →
  ∃ tree' n',
    ApplyFilter allocatorId node rootFilter tree = Some tree' ∧
    Children tree' node
    = Some ((λ c, SgUctNode.make (SgUctNode.Move c))
              <$> surviving rootFilter cs) ∧
    ChildMoves tree' node
    = Some (filter (λ move, move ∉ rootFilter) (SgUctNode.Move <$> cs)) ∧
    node_at tree' node = Some n' ∧ data n' = data n ∧
    SgUctNode.NuChildren n' = length (surviving rootFilter cs).
Proof.
  intros Hn Hcs Hroom.
  destruct (ApplyFilter_spec allocatorId node rootFilter tree n cs Hn Hcs Hroom)
    as (tree' & s & Hap & _ & Hch & _ & _ & _ & (n' & Hn' & Hd & Hk) & _).
  exists tree', n'. unfold surviving. split_and!; try done.
  unfold ChildMoves. rewrite Hch. simpl. f_equal.
  rewrite <- list_fmap_compose, <- fmap_Move_filter.
  by apply list_fmap_ext.
Qed.

Lemma ApplyFilter_children_fresh_witness :
  ∃ tree' n',
    ApplyFilter 1 RootRef [1%Z] filter_example = Some tree' ∧
    Children tree' RootRef
    = Some ((λ c, SgUctNode.make (SgUctNode.Move c))
              <$> surviving [1%Z] [SgUctNode.make 1%Z; filter_example_child]) ∧
    ChildMoves tree' RootRef
    = Some (filter (λ move, move ∉ [1%Z])
              (SgUctNode.Move
                 <$> [SgUctNode.make 1%Z; filter_example_child])) ∧
    node_at tree' RootRef = Some n' ∧ data n' = data (m_root filter_example) ∧
    SgUctNode.NuChildren n'
    = length (surviving [1%Z] [SgUctNode.make 1%Z; filter_example_child]).
Proof.
  apply (ApplyFilter_children_fresh 1 RootRef [1%Z] filter_example
           (m_root filter_example)
           [SgUctNode.make 1%Z; filter_example_child]).
  - reflexivity.
  - reflexivity.
  - eexists. split; reflexivity.
Defined.

(** An extraction into a target with enough room does not truncate. *)
Lemma Untruncated_fits_witness :
  Untruncated 3 quiet_env extract_example roomy_target RootRef 1.
Proof.
  apply (Untruncated_fits 3 quiet_env extract_example roomy_target RootRef 1
           extract_example_unfolded).
  - reflexivity.
  - intros k. split; reflexivity.
  - vm_compute. lia.
  - vm_compute. repeat constructor.
Defined.

(** ** Setting and listing parameters *)

Section Params.
Import GoUctCommands.
Variable IntOfString : string → option Z.
Variable SizeTypeOfString : string → option N.
Variable BoolOfString : string → option bool.
Variable FloatOfString : string → option Q.
Variable ToLower : string → string.

Lemma set_inv {A S} (arg : Except A) (setter : A → S → S) (obj obj' : S) r :
  set arg setter obj = (inr r, obj') →
  ∃ v, arg = inr v ∧ r = [] ∧ obj' = setter v obj.
Proof. destruct arg as [e|v]; simpl; [done|]. intros [= <- <-]. eauto. Qed.

Lemma read_inv {A} what (of_string : string → option A) number cmd v :
  read what of_string number cmd = inr v →
  ∃ arg, args cmd !! number = Some arg ∧ of_string arg = Some v.
Proof.
  unfold read, Arg. destruct (args cmd !! number) as [arg|]; [|done].
  destruct (of_string arg) as [w|] eqn:Hw; [|done]. intros [= <-]. eauto.
Qed.

Lemma IntArg_inv number min cmd v :
  IntArg IntOfString number min cmd = inr v →
  ∃ arg, args cmd !! number = Some arg ∧ IntOfString arg = Some v.
Proof.
  unfold IntArg.
  destruct (read _ _ _ _) as [e|w] eqn:Hr; [done|].
  case_decide; [done|]. intros [= <-]. by eapply read_inv.
Qed.

Lemma SizeTypeArg_inv number min cmd v :
  SizeTypeArg SizeTypeOfString number min cmd = inr v →
  ∃ arg, args cmd !! number = Some arg ∧ SizeTypeOfString arg = Some v.
Proof.
  unfold SizeTypeArg.
  destruct (read _ _ _ _) as [e|w] eqn:Hr; [done|].
  case_decide; [done|]. intros [= <-]. by eapply read_inv.
Qed.

Lemma LiveGfxArg_inv cmd number v :
  LiveGfxArg ToLower cmd number = inr v →
  ∃ arg, args cmd !! number = Some arg ∧ ToLower arg = LiveGfxToString v.
Proof.
  unfold LiveGfxArg, ArgToLower, Arg.
  destruct (args cmd !! number) as [arg|]; [|done].
  repeat case_decide; intros [= <-]; eauto.
Qed.

Lemma MoveSelectArg_inv cmd number v :
  MoveSelectArg ToLower cmd number = inr v →
  ∃ arg, args cmd !! number = Some arg ∧ ToLower arg = MoveSelectToString v.
Proof.
  unfold MoveSelectArg, ArgToLower, Arg.
  destruct (args cmd !! number) as [arg|]; [|done].
  repeat case_decide; intros [= <-]; eauto.
Qed.

Lemma PriorKnowledgeArg_inv cmd number v :
  PriorKnowledgeArg ToLower cmd number = inr v →
  ∃ arg, args cmd !! number = Some arg
         ∧ ToLower arg = PriorKnowledgeToString v.
Proof.
  unfold PriorKnowledgeArg, ArgToLower, Arg.
  destruct (args cmd !! number) as [arg|]; [|done].
  repeat case_decide; intros [= <-]; eauto.
Qed.

Lemma SearchModeArg_inv cmd number v :
  SearchModeArg ToLower cmd number = inr v →
  ∃ arg, args cmd !! number = Some arg ∧ ToLower arg = SearchModeToString v.
Proof.
  unfold SearchModeArg, ArgToLower, Arg.
  destruct (args cmd !! number) as [arg|]; [|done].
  repeat case_decide; intros [= <-]; eauto.
Qed.

Ltac other_lines :=
  let j := fresh "j" in let Hj := fresh "Hj" in
  intros j Hj;
  do 17 (destruct j as [|j]; [first [done|reflexivity]|]); reflexivity.

Ltac one_key inv i :=
  match goal with
  | H : set _ _ _ = (inr _, _) |- _ =>
      apply set_inv in H as (? & H & -> & ->);
      apply inv in H as (? & [= <-] & H);
      split; [reflexivity|];
      exists i; eexists _, _;
      split; [reflexivity|]; split; [reflexivity|];
      split; [exact H|other_lines]
  end.

Lemma CmdParamSearch_sets name arg (s s' : GoUctSearch) r :
  CmdParamSearch IntOfString SizeTypeOfString BoolOfString FloatOfString
    ToLower (mkCommand [name; arg]) s = (inr r, s') →
  r = [] ∧
  ∃ i label item,
    search_keys !! i = Some name ∧
    search_lines s' !! i = Some (label, item) ∧
    reads IntOfString SizeTypeOfString BoolOfString FloatOfString ToLower
      arg item ∧
    ∀ j, j ≠ i → search_lines s' !! j = search_lines s !! j.
Proof.
  unfold CmdParamSearch. simpl. unfold BoolArg, FloatArg.
  intros H.
  case_decide; [subst; by one_key (@read_inv bool) 0|].
  case_decide; [subst; by one_key (@read_inv bool) 1|].
  case_decide; [subst; by one_key (@read_inv bool) 2|].
  case_decide; [subst; by one_key (@read_inv bool) 3|].
  case_decide; [subst; by one_key (@read_inv bool) 4|].
  case_decide; [subst; by one_key (@read_inv bool) 5|].
  case_decide; [subst; by one_key (@read_inv Q) 6|].
  case_decide; [subst; by one_key SizeTypeArg_inv 7|].
  case_decide; [subst; by one_key (@read_inv Q) 8|].
  case_decide; [subst; by one_key LiveGfxArg_inv 9|].
  case_decide; [subst; by one_key IntArg_inv 10|].
  case_decide; [subst; by one_key MoveSelectArg_inv 11|].
  case_decide; [subst; by one_key SizeTypeArg_inv 12|].
  case_decide; [subst; by one_key IntArg_inv 13|].
  case_decide; [subst; by one_key (@read_inv Q) 14|].
  case_decide; [subst; by one_key (@read_inv Q) 15|].
  done.
Qed.

Lemma CmdParamPlayer_sets name arg (p p' : GoUctPlayer) r :
  CmdParamPlayer SizeTypeOfString BoolOfString FloatOfString
    ToLower (mkCommand [name; arg]) p = (inr r, p') →
  r = [] ∧
  ∃ i label item,
    player_keys !! i = Some name ∧
    player_lines p' !! i = Some (label, item) ∧
    reads IntOfString SizeTypeOfString BoolOfString FloatOfString ToLower
      arg item ∧
    ∀ j, j ≠ i → player_lines p' !! j = player_lines p !! j.
Proof.
  unfold CmdParamPlayer. simpl. unfold BoolArg, FloatArg.
  intros H.
  case_decide; [subst; by one_key (@read_inv bool) 0|].
  case_decide; [subst; by one_key (@read_inv bool) 1|].
  case_decide; [subst; by one_key (@read_inv bool) 2|].
  case_decide; [subst; by one_key (@read_inv bool) 3|].
  case_decide; [subst; by one_key (@read_inv bool) 4|].
  case_decide; [subst; by one_key (@read_inv bool) 5|].
  case_decide; [subst; by one_key SizeTypeArg_inv 6|].
  case_decide; [subst; by one_key SizeTypeArg_inv 7|].
  case_decide; [subst; by one_key (@read_inv Q) 8|].
  case_decide; [subst; by one_key PriorKnowledgeArg_inv 9|].
  case_decide; [subst; by one_key (@read_inv Q) 10|].
  case_decide; [subst; by one_key SearchModeArg_inv 11|].
  done.
Qed.

Lemma CmdParamSearch_one_argument name (s : GoUctSearch) :
  CmdParamSearch IntOfString SizeTypeOfString BoolOfString FloatOfString
    ToLower (mkCommand [name]) s
  = (inl (Failure "need 0 or 2 arguments"), s).
Proof. reflexivity. Qed.

Lemma CmdParamPlayer_one_argument name (p : GoUctPlayer) :
  ∃ e, CmdParamPlayer SizeTypeOfString BoolOfString FloatOfString ToLower
         (mkCommand [name]) p = (inl e, p) ∧
       (name ∈ player_keys → Arg 1 (mkCommand [name]) = inl e) ∧
       (name ∉ player_keys → e = Failure ("unknown parameter: " +:+ name)).
Proof.
  unfold CmdParamPlayer. simpl.
  unfold BoolArg, FloatArg, SizeTypeArg, PriorKnowledgeArg, SearchModeArg,
    ArgToLower, read, Arg. simpl.
  repeat (let Hkey := fresh "Hkey" in
    case_decide as Hkey;
    [eexists; split; [reflexivity|]; split; [done|];
     intros Hnot; exfalso; apply Hnot; rewrite Hkey;
     repeat first [apply list_elem_of_here | apply list_elem_of_further]|]).
  eexists. split; [reflexivity|]. split; [|done].
  intros Hin. unfold player_keys in Hin.
  repeat (apply elem_of_cons in Hin as [->|Hin]; [done|]).
  by apply elem_of_nil in Hin.
Qed.

Section Printed.
Hypothesis lower_fixed : ∀ str, str ∈ enum_strings → ToLower str = str.

Ltac printed_value :=
  let m := fresh "m" in
  intros m; simpl;
  unfold set, LiveGfxArg, MoveSelectArg, PriorKnowledgeArg, SearchModeArg,
    ArgToLower, Arg; simpl;
  rewrite lower_fixed
    by (destruct m; simpl;
        repeat first [apply list_elem_of_here | apply list_elem_of_further]);
  by destruct m.

Lemma printed_values_accepted (s : GoUctSearch) (p : GoUctPlayer) :
  (∀ m, CmdParamSearch IntOfString SizeTypeOfString BoolOfString
          FloatOfString ToLower
          (mkCommand ["live_gfx"; LiveGfxToString m]) s
        = (inr [], SetLiveGfx m s)) ∧
  (∀ m, CmdParamSearch IntOfString SizeTypeOfString BoolOfString
          FloatOfString ToLower
          (mkCommand ["move_select"; MoveSelectToString m]) s
        = (inr [], SetMoveSelect m s)) ∧
  (∀ m, CmdParamPlayer SizeTypeOfString BoolOfString FloatOfString ToLower
          (mkCommand ["prior_knowledge"; PriorKnowledgeToString m]) p
        = (inr [], SetPriorKnowledge m p)) ∧
  (∀ m, CmdParamPlayer SizeTypeOfString BoolOfString FloatOfString ToLower
          (mkCommand ["search_mode"; SearchModeToString m]) p
        = (inr [], SetSearchMode m p)).
Proof.
  unfold CmdParamSearch, CmdParamPlayer. split_and!; printed_value.
Qed.

End Printed.

End Params.

(** A parameter that has been set is what a listing shows. However the
    argument strings are read: when [uct_param_search name arg] or
    [uct_param_player name arg] succeeds, the response is empty, [name]
    is one of the keys of the command, a following listing (the command
    without arguments) shows on the line of that key a value read from
    [arg], and every other line of the listing is as it was before. *)
Theorem parameter_set_then_listed
    (IntOfString : string → option Z) (SizeTypeOfString : string → option N)
    (BoolOfString : string → option bool) (FloatOfString : string → option Q)
    (ToLower : string → string) (name arg : string)
    (s s' : GoUctCommands.GoUctSearch) (p p' : GoUctCommands.GoUctPlayer)
    (r : GoUctCommands.Response) :
  (GoUctCommands.CmdParamSearch IntOfString SizeTypeOfString BoolOfString
     FloatOfString ToLower (GoUctCommands.mkCommand [name; arg]) s
   = (inr r, s') →
   r = [] ∧
   ∃ i label item,
     GoUctCommands.search_keys !! i = Some name ∧
     search_lines s' !! i = Some (label, item) ∧
     reads IntOfString SizeTypeOfString BoolOfString FloatOfString ToLower
       arg item ∧
     ∀ j, j ≠ i → search_lines s' !! j = search_lines s !! j)
  ∧ (GoUctCommands.CmdParamPlayer SizeTypeOfString BoolOfString
       FloatOfString ToLower (GoUctCommands.mkCommand [name; arg]) p
     = (inr r, p') →
     r = [] ∧
     ∃ i label item,
       GoUctCommands.player_keys !! i = Some name ∧
       player_lines p' !! i = Some (label, item) ∧
       reads IntOfString SizeTypeOfString BoolOfString FloatOfString ToLower
         arg item ∧
       ∀ j, j ≠ i → player_lines p' !! j = player_lines p !! j).
Proof.
  split.
  - apply CmdParamSearch_sets.
  - apply CmdParamPlayer_sets.
Qed.

Lemma parameter_set_then_listed_witness :
  ∃ i label item,
    GoUctCommands.search_keys !! i = Some "number_threads" ∧
    search_lines (GoUctCommands.SetNumberThreads 8 example_search) !! i
    = Some (label, item) ∧
    reads decimal_int decimal_size zero_one decimal_float lower_case
      "8" item ∧
    ∀ j, j ≠ i →
         search_lines (GoUctCommands.SetNumberThreads 8 example_search) !! j
         = search_lines example_search !! j.
Proof.
  pose proof (parameter_set_then_listed decimal_int decimal_size zero_one
                decimal_float lower_case "number_threads" "8"
                example_search
                (GoUctCommands.SetNumberThreads 8 example_search)
                example_player example_player []) as [Hsearch _].
  apply Hsearch. reflexivity.
Defined.

(** One argument. [uct_param_search] with exactly one argument throws
    "need 0 or 2 arguments", whatever the argument is. [uct_param_player]
    with exactly one argument takes the branch for setting a parameter:
    for a key of the command it throws when it reads the second argument,
    which is missing, and for any other name it throws "unknown
    parameter"; both commands leave the parameters as they were. *)
Theorem single_argument
    (IntOfString : string → option Z) (SizeTypeOfString : string → option N)
    (BoolOfString : string → option bool) (FloatOfString : string → option Q)
    (ToLower : string → string) (name : string)
    (s : GoUctCommands.GoUctSearch) (p : GoUctCommands.GoUctPlayer) :
  GoUctCommands.CmdParamSearch IntOfString SizeTypeOfString BoolOfString
    FloatOfString ToLower (GoUctCommands.mkCommand [name]) s
  = (inl (GoUctCommands.Failure "need 0 or 2 arguments"), s)
  ∧ ∃ e, GoUctCommands.CmdParamPlayer SizeTypeOfString BoolOfString
           FloatOfString ToLower (GoUctCommands.mkCommand [name]) p
         = (inl e, p) ∧
         (name ∈ GoUctCommands.player_keys →
          GoUctCommands.Arg 1 (GoUctCommands.mkCommand [name]) = inl e) ∧
         (name ∉ GoUctCommands.player_keys →
          e = GoUctCommands.Failure ("unknown parameter: " +:+ name)).
Proof.
  split.
  - apply CmdParamSearch_one_argument.
  - apply CmdParamPlayer_one_argument.
Qed.

(** The values a listing prints for the enumerations are accepted back.
    If lower-casing leaves the printed strings as they are, then for every
    value of an enumeration, setting live_gfx, move_select,
    prior_knowledge or search_mode to the string the listing prints for
    that value succeeds and stores that value. *)
Theorem printed_values_round_trip
    (IntOfString : string → option Z) (SizeTypeOfString : string → option N)
    (BoolOfString : string → option bool) (FloatOfString : string → option Q)
    (ToLower : string → string)
    (s : GoUctCommands.GoUctSearch) (p : GoUctCommands.GoUctPlayer) :
  (∀ str, str ∈ enum_strings → ToLower str = str) →
  (∀ m, GoUctCommands.CmdParamSearch IntOfString SizeTypeOfString
          BoolOfString FloatOfString ToLower
          (GoUctCommands.mkCommand
             ["live_gfx"; GoUctCommands.LiveGfxToString m]) s
        = (inr [], GoUctCommands.SetLiveGfx m s)) ∧
  (∀ m, GoUctCommands.CmdParamSearch IntOfString SizeTypeOfString
          BoolOfString FloatOfString ToLower
          (GoUctCommands.mkCommand
             ["move_select"; GoUctCommands.MoveSelectToString m]) s
        = (inr [], GoUctCommands.SetMoveSelect m s)) ∧
  (∀ m, GoUctCommands.CmdParamPlayer SizeTypeOfString BoolOfString
          FloatOfString ToLower
          (GoUctCommands.mkCommand
             ["prior_knowledge"; GoUctCommands.PriorKnowledgeToString m]) p
        = (inr [], GoUctCommands.SetPriorKnowledge m p)) ∧
  (∀ m, GoUctCommands.CmdParamPlayer SizeTypeOfString BoolOfString
          FloatOfString ToLower
          (GoUctCommands.mkCommand
             ["search_mode"; GoUctCommands.SearchModeToString m]) p
        = (inr [], GoUctCommands.SetSearchMode m p)).
Proof.
  intros Hlower. by apply printed_values_accepted.
Qed.

Lemma printed_values_round_trip_witness :
  (∀ m, GoUctCommands.CmdParamSearch decimal_int decimal_size zero_one
          decimal_float lower_case
          (GoUctCommands.mkCommand
             ["live_gfx"; GoUctCommands.LiveGfxToString m]) example_search
        = (inr [], GoUctCommands.SetLiveGfx m example_search)) ∧
  (∀ m, GoUctCommands.CmdParamSearch decimal_int decimal_size zero_one
          decimal_float lower_case
          (GoUctCommands.mkCommand
             ["move_select"; GoUctCommands.MoveSelectToString m])
          example_search
        = (inr [], GoUctCommands.SetMoveSelect m example_search)) ∧
  (∀ m, GoUctCommands.CmdParamPlayer decimal_size zero_one decimal_float
          lower_case
          (GoUctCommands.mkCommand
             ["prior_knowledge"; GoUctCommands.PriorKnowledgeToString m])
          example_player
        = (inr [], GoUctCommands.SetPriorKnowledge m example_player)) ∧
  (∀ m, GoUctCommands.CmdParamPlayer decimal_size zero_one decimal_float
          lower_case
          (GoUctCommands.mkCommand
             ["search_mode"; GoUctCommands.SearchModeToString m])
          example_player
        = (inr [], GoUctCommands.SetSearchMode m example_player)).
Proof.
  apply (printed_values_round_trip decimal_int decimal_size zero_one
           decimal_float lower_case example_search example_player).
  intros str Hstr. unfold enum_strings in Hstr.
  repeat (apply elem_of_cons in Hstr as [->|Hstr]; [reflexivity|]).
  by apply elem_of_nil in Hstr.
Defined.

(** ** The extracted tree under the iterator and the consistency check *)

(** An extracted tree is compact and consistent. After any extraction,
    truncated or not, the loop over a tree iterator of the target ends
    after [NuNodes] steps; the nodes it visited are nodes of the target,
    no node is visited twice, and there are as many of them as the target
    has nodes: every allocated node is reachable from the root.
    [CheckConsistency] returns on the target without an exception. *)
Theorem extracted_tree_walk (fuel : nat) (env : Env)
    (src target0 : SgUctTree.t) (node : NodeRef) (warn : bool) (maxTime : Q)
    (T : RTree) :
  unfold fuel src node = Some T →
  0 < NuAllocators target0 →
  ∃ r visited,
    ExtractSubtree fuel env src target0 node warn maxTime = Some r ∧
    SgUctTreeIterator.visit (NuNodes (target r)) (target r)
      SgUctTreeIterator.make = Some visited ∧
    length visited = NuNodes (target r) ∧
    NoDup visited ∧
    (∀ x, x ∈ visited → is_Some (node_at (target r) x)) ∧
    CheckConsistency (NuNodes (target r)) (target r) = Some (inr ()).
Proof.
  intros HT Hpos. rewrite ExtractSubtree_unfold.
  destruct (CopySubtree_total env maxTime src fuel RootRef node
              (mkCopyState (Clear target0) 0 warn 0 []) T HT)
    as (r & Hr & _); [by eauto|simpl; by rewrite NuAllocators_Clear|].
  destruct (CopySubtree_prunes env maxTime src fuel RootRef node _ r T
              (SgUctNode.make SG_NULLMOVE) Hr HT)
    as (T' & HT' & _ & _ & Hnu & _ & Hnd); [done|done|].
  simpl in Hnu. rewrite NuNodes_Clear in Hnu.
  assert (NuNodes (target r) = length (refs T') + 0) as Hn by lia.
  pose proof (visit_from_root (target r) fuel T' 0 HT') as Hv.
  rewrite <- Hn in Hv.
  exists r, (refs T'). split_and!; try done.
  - lia.
  - by eapply unfold_refs_exist.
  - unfold CheckConsistency. by eapply visit_CheckConsistency.
Qed.

Lemma extracted_tree_walk_witness :
  ∃ r visited,
    ExtractSubtree 3 abort_env extract_example roomy_target RootRef true 1
    = Some r ∧
    SgUctTreeIterator.visit (NuNodes (target r)) (target r)
      SgUctTreeIterator.make = Some visited ∧
    length visited = NuNodes (target r) ∧
    NoDup visited ∧
    (∀ x, x ∈ visited → is_Some (node_at (target r) x)) ∧
    CheckConsistency (NuNodes (target r)) (target r) = Some (inr ()).
Proof.
  apply (extracted_tree_walk 3 abort_env extract_example roomy_target RootRef
           true 1 extract_example_unfolded).
  - reflexivity.
  - vm_compute. lia.
Defined.

(** ** Where AddCutoff is defined *)

(** AddCutoff checks no bound. After the cutoffs [cs] have been added to
    a new object, adding one more cutoff [c] stays inside the arrays
    exactly when its depth is one of 0 .. MAX_PROBCUT and fewer than
    MAX_PROBCUT + 1 cutoffs have been added for that depth. *)
Theorem AddCutoff_room (cs : list SgProbCut.Cutoff) (c : SgProbCut.Cutoff) :
  Forall (λ c, 0 ≤ SgProbCut.deep c ≤ SgProbCut.MAX_PROBCUT)%Z cs →
  (∀ d, length (at_depth d cs) ≤ 21) →
  ∃ p, SgProbCut.AddAll cs SgProbCut.make = Some p ∧
       (is_Some (SgProbCut.AddCutoff c p) ↔
        (0 ≤ SgProbCut.deep c ≤ SgProbCut.MAX_PROBCUT)%Z ∧
        length (at_depth (SgProbCut.deep c) cs) < 21).
Proof.
  intros Hd Hroom.
  destruct (Holds_AddAll cs [] SgProbCut.make Holds_make Hd Hroom)
    as (p & Hp & HI).
  rewrite app_nil_l in HI. exists p. split; [done|]. split.
  - intros [p' Hp']. destruct HI as (Hl1 & Hl2 & Hall).
    unfold SgProbCut.AddCutoff, SgProbCut.at_, SgProbCut.set_at in Hp'.
    destruct (decide (0 ≤ SgProbCut.deep c)%Z) as [H0|H0]; [|by simpl in Hp'].
    destruct (SgProbCut.m_cutoff_sizes p !! Z.to_nat (SgProbCut.deep c))
      as [i|] eqn:Hi; [|by simpl in Hp'].
    apply lookup_lt_Some in Hi as Hlt. rewrite Hl1 in Hlt.
    destruct (Hall (Z.to_nat (SgProbCut.deep c)) Hlt)
      as (Hsz & row & Hrow & Hlr & _).
    rewrite Z2Nat.id in Hsz by lia.
    rewrite Hi in Hsz. injection Hsz as ->.
    simpl in Hp'. rewrite Hrow in Hp'. simpl in Hp'. rewrite Hlr in Hp'.
    destruct (decide (0 ≤ Z.of_nat (length (at_depth (SgProbCut.deep c) cs))
                      < Z.of_nat 21)%Z) as [Hin|Hin]; [|by simpl in Hp'].
    unfold SgProbCut.MAX_PROBCUT. lia.
  - intros [Hc Hlen].
    destruct (Holds_AddCutoff p cs c HI Hc) as (p' & Hp' & _); [|by eauto].
    rewrite at_depth_app, at_depth_singleton, decide_True, length_app by done.
    simpl. lia.
Qed.

Lemma AddCutoff_room_witness :
  ∃ p, SgProbCut.AddAll [SgProbCut.mkCutoff 1 0 1 1 3] SgProbCut.make = Some p ∧
       (is_Some (SgProbCut.AddCutoff (SgProbCut.mkCutoff 2 0 1 1 21) p) ↔
        (0 ≤ SgProbCut.deep (SgProbCut.mkCutoff 2 0 1 1 21)
         ≤ SgProbCut.MAX_PROBCUT)%Z ∧
        (length (at_depth (SgProbCut.deep (SgProbCut.mkCutoff 2 0 1 1 21))
                   [SgProbCut.mkCutoff 1 0 1 1 3]) < 21)).
Proof.
  apply (AddCutoff_room [SgProbCut.mkCutoff 1 0 1 1 3]
           (SgProbCut.mkCutoff 2 0 1 1 21)).
  - repeat constructor; vm_compute; congruence.
  - intros d. unfold at_depth. rewrite filter_cons, filter_nil.
    case_decide; simpl; lia.
Defined.

(** ** A statistics object constructed with a value and a count *)

Section Constructed.
Local Open Scope Q_scope.

Lemma Qsum_replicate (n : nat) (v : Q) :
  Qsum (replicate n v) == v * inject_Z (Z.of_nat n).
Proof.
  induction n as [|n IH].
  - simpl. change (inject_Z (Z.of_nat 0)) with 0. ring.
  - change (Qsum (replicate (S n) v)) with (v + Qsum (replicate n v)).
    rewrite IH, Nat2Z.inj_succ. unfold Z.succ. rewrite inject_Z_plus.
    change (inject_Z 1) with 1. ring.
Qed.

Lemma Qsquares_app (l k : list Q) :
  Qsquares (l ++ k) = Qsquares l ++ Qsquares k.
Proof. apply fmap_app. Qed.

Lemma Qsquares_replicate (n : nat) (v : Q) :
  Qsquares (replicate n v) = replicate n (v * v).
Proof. unfold Qsquares. by rewrite fmap_replicate. Qed.

End Constructed.

(** The constructor [SgStatistics(val, count)] stands for [count] values
    [val]: adding values to the constructed object gives the same count,
    mean and variance as adding [count] times [val] and then the same
    values to a cleared object. *)
Theorem constructed_as_adds (val : Q) (count : nat) (vals : list Q) :
  0 < count →
  (Z.of_nat (count + length vals) < SgStatisticsBase.COUNT_MODULUS)%Z →
  ∃ s s',
    SgStatistics.AddAll vals (SgStatistics.make val (Z.of_nat count)) = Some s ∧
    SgStatistics.AddAll (replicate count val ++ vals) SgStatistics.Clear
    = Some s' ∧
    SgStatistics.Count s = SgStatistics.Count s' ∧
    (SgStatistics.Mean s == SgStatistics.Mean s')%Q ∧
    (SgStatistics.Variance s == SgStatistics.Variance s')%Q.
Proof.
  intros Hpos HM.
  assert (Moments (SgStatistics.make val (Z.of_nat count)) (Z.of_nat count)
            (val * inject_Z (Z.of_nat count))%Q
            (val * val * inject_Z (Z.of_nat count))%Q) as H0.
  { cbv [Moments SgStatistics.Count SgStatistics.Mean SgStatistics.Variance
         SgStatisticsBase.Count SgStatisticsBase.Mean SgStatistics.make
         SgStatisticsBase.Initialize SgStatistics.base SgStatistics.m_variance
         SgStatisticsBase.m_count SgStatisticsBase.m_mean].
    split_and!; [done|lia|lia|reflexivity|ring]. }
  destruct (Moments_AddAll vals _ _ _ _ H0) as (s & Hs & HI); [lia|].
  destruct (Moments_AddAll (replicate count val ++ vals) _ _ _ _ Moments_Clear)
    as (s' & Hs' & HI').
  { rewrite length_app, length_replicate. lia. }
  exists s, s'. split; [done|]. split; [done|].
  destruct HI as (Hc & _ & _ & Hm & Hv).
  destruct HI' as (Hc' & _ & _ & Hm' & Hv').
  rewrite length_app, length_replicate in Hc', Hm', Hv'.
  rewrite Qsum_app, Qsum_replicate in Hm'.
  rewrite Qsquares_app, Qsquares_replicate, Qsum_app, Qsum_replicate in Hv'.
  replace (0 + Z.of_nat (count + length vals))%Z
    with (Z.of_nat count + Z.of_nat (length vals))%Z in * by lia.
  set (C := inject_Z (Z.of_nat count + Z.of_nat (length vals))) in *.
  assert (¬ (C == 0)%Q) as HC.
  { unfold C. change 0%Q with (inject_Z 0). rewrite inject_Z_injective. lia. }
  assert (SgStatistics.Mean s == SgStatistics.Mean s')%Q as Hmean.
  { apply (Qmult_inj_r _ _ C HC). rewrite Hm, Hm'. ring. }
  split; [congruence|]. split; [done|].
  apply (Qmult_inj_r _ _ C HC).
  assert ((SgStatistics.Variance s + SgStatistics.Mean s * SgStatistics.Mean s)
          * C
          == (SgStatistics.Variance s'
              + SgStatistics.Mean s' * SgStatistics.Mean s') * C)%Q as Heq.
  { rewrite Hv, Hv'. ring. }
  rewrite Hmean in Heq.
  generalize dependent (SgStatistics.Variance s).
  generalize dependent (SgStatistics.Variance s').
  generalize dependent (SgStatistics.Mean s').
  intros. lra.
Qed.

Lemma constructed_as_adds_witness :
  ∃ s s',
    SgStatistics.AddAll [1; 4]%Q (SgStatistics.make 2%Q (Z.of_nat 3)) = Some s ∧
    SgStatistics.AddAll (replicate 3 2%Q ++ [1; 4]%Q) SgStatistics.Clear
    = Some s' ∧
    SgStatistics.Count s = SgStatistics.Count s' ∧
    (SgStatistics.Mean s == SgStatistics.Mean s')%Q ∧
    (SgStatistics.Variance s == SgStatistics.Variance s')%Q.
Proof.
  apply (constructed_as_adds 2%Q 3 [1; 4]%Q).
  - lia.
  - vm_compute. reflexivity.
Defined.

(** ** The two stores that publish a child block *)

Section Publishing.
Implicit Types (tree : SgUctTree.t) (r : NodeRef) (n : SgUctNode.t)
  (p : NodePtr).

Lemma modify_keeps r f tree tree' x :
  modify r f tree = Some tree' →
  is_Some (node_at tree x) → is_Some (node_at tree' x).
Proof.
  intros H [y Hy]. rewrite (node_at_modify _ _ _ _ x H).
  case_decide; rewrite Hy; simpl; eauto.
Qed.

Lemma Pushed_keeps allocatorId (ns : list SgUctNode.t) tree tree' x :
  Pushed allocatorId ns tree tree' →
  is_Some (node_at tree x) → is_Some (node_at tree' x).
Proof. intros Hp [y Hy]. exists y. by eapply Pushed_old. Qed.

(** A block is pushed, then [m_firstChild] is set to its first node, then
    [m_nuChildren]: a reader of the node is safe when the block is not
    empty and the node was safe to read before. *)
Lemma publish_reader_safe allocatorId node tree tree1 tree2 tree3 n
    (ns : list SgUctNode.t) s k :
  node_at tree node = Some n →
  first_child_safe tree n →
  Pushed allocatorId ns tree tree1 →
  sizes tree !! allocatorId = Some s →
  ns ≠ [] →
  modify node (SgUctNode.SetFirstChild (Some (mkPtr allocatorId s))) tree1
  = Some tree2 →
  modify node (SgUctNode.SetNuChildren k) tree2 = Some tree3 →
  published_in_order node n (mkPtr allocatorId s) k [tree; tree1; tree2; tree3]
  ∧ reader_safe node [tree; tree1; tree2; tree3].
Proof.
  intros Hn Hsafe Hp Hs Hne H2 H3.
  assert (node_at tree1 node = Some n) as Hn1 by (by eapply Pushed_old).
  assert (node_at tree2 node
          = Some (SgUctNode.SetFirstChild (Some (mkPtr allocatorId s)) n))
    as Hn2 by (by rewrite (node_at_modify_eq _ _ _ _ H2), Hn1).
  assert (node_at tree3 node
          = Some (SgUctNode.SetNuChildren k
                    (SgUctNode.SetFirstChild (Some (mkPtr allocatorId s)) n)))
    as Hn3 by (by rewrite (node_at_modify_eq _ _ _ _ H3), Hn2).
  split; [by exists tree, tree1, tree2, tree3|].
  assert (is_Some (node_at tree1 (AllocRef (mkPtr allocatorId s)))) as Hnew1.
  { pose proof (Pushed_new _ _ _ _ s 0 Hp Hs) as Hnew.
    rewrite Nat.add_0_r in Hnew. rewrite Hnew.
    destruct ns; [done|]. simpl. eauto. }
  pose proof (modify_keeps _ _ _ _ _ H2 Hnew1) as Hnew2.
  pose proof (modify_keeps _ _ _ _ _ H3 Hnew2) as Hnew3.
  assert (∀ x, is_Some (node_at tree x) → is_Some (node_at tree1 x)) as K1
    by (intros x; by eapply Pushed_keeps).
  assert (∀ x, is_Some (node_at tree x) → is_Some (node_at tree2 x)) as K2
    by (intros x Hx; eapply modify_keeps; eauto).
  assert (∀ x, is_Some (node_at tree x) → is_Some (node_at tree3 x)) as K3
    by (intros x Hx; eapply modify_keeps; eauto).
  intros i j k' ti tj tk ni nj Hij Hjk Hi Hj Hk Hni Hnj Hc.
  assert (j < 2 → SgUctNode.HasChildren n = true) as Hold.
  { intros Hlt. destruct i as [|[|i]]; [| |lia]; simpl in Hi;
      injection Hi as <-; congruence. }
  assert (is_Some (node_at tk (AllocRef (mkPtr allocatorId s))) ∨ k' < 2)
    as Hnewk.
  { destruct k' as [|[|[|[|k']]]]; simpl in Hk; try (right; lia);
      [injection Hk as <-; by left..|done]. }
  assert (∀ x, is_Some (node_at tree x) → is_Some (node_at tk x)) as Kk.
  { destruct k' as [|[|[|[|k']]]]; simpl in Hk; [..|done];
      injection Hk as <-; done. }
  destruct j as [|[|[|[|j]]]]; simpl in Hj; [..|done]; injection Hj as <-.
  - rewrite Hn in Hnj. injection Hnj as <-.
    destruct (Hsafe (Hold ltac:(lia))) as (first & Hf & Hex). eauto.
  - rewrite Hn1 in Hnj. injection Hnj as <-.
    destruct (Hsafe (Hold ltac:(lia))) as (first & Hf & Hex). eauto.
  - rewrite Hn2 in Hnj. injection Hnj as <-.
    exists (mkPtr allocatorId s). split; [done|].
    destruct Hnewk as [?|?]; [done|lia].
  - rewrite Hn3 in Hnj. injection Hnj as <-.
    exists (mkPtr allocatorId s). split; [done|].
    destruct Hnewk as [?|?]; [done|lia].
Qed.

Lemma ApplyFilter_states_last allocatorId node rootFilter tree :
  ApplyFilter allocatorId node rootFilter tree
  = ApplyFilter_states allocatorId node rootFilter tree ≫= last.
Proof.
  unfold ApplyFilter, ApplyFilter_states.
  destruct (node_at tree node) as [n|]; [|done]. simpl.
  destruct (negb _); [done|].
  destruct (Allocator _ _); [|done]. simpl.
  destruct (SgUctNode.ChildPtrs n); [|done]. simpl.
  destruct (ApplyFilter_loop _ _ _ _ _) as [[t1 nu]|]; [|done]. simpl.
  destruct (modify _ _ t1) as [t2|]; [|done]. simpl.
  by destruct (modify _ _ t2).
Qed.

Lemma CreateChildren_states_last allocatorId node moves tree :
  CreateChildren allocatorId node moves tree
  = CreateChildren_states allocatorId node moves tree ≫= last.
Proof.
  unfold CreateChildren, CreateChildren_states.
  destruct (Allocator _ _); [|done]. simpl.
  destruct (CreateChildren_loop _ _ _) as [t1|]; [|done]. simpl.
  destruct (modify _ _ t1) as [t2|]; [|done]. simpl.
  by destruct (modify _ _ t2).
Qed.

Lemma CreateChildren_publishes allocatorId node moves tree n :
  node_at tree node = Some n →
  moves ≠ [] →
  HasRoom allocatorId (length moves) tree →
  first_child_safe tree n →
  ∃ states first,
    CreateChildren_states allocatorId node moves tree = Some states ∧
    CreateChildren allocatorId node moves tree = last states ∧
    published_in_order node n first (length moves) states ∧
    reader_safe node states.
Proof.
  intros Hn Hne Hroom Hsafe.
  apply HasRoom_sizes in Hroom as (s & c & Hs & Hc & Hle).
  rewrite CreateChildren_states_last. unfold CreateChildren_states.
  destruct (sizes_Allocator _ _ _ Hs) as (a & Ha & Hsa). rewrite Ha. simpl.
  destruct (CreateChildren_loop_Pushed allocatorId moves tree s c)
    as (tree1 & -> & Hp); [done..|]. simpl. rewrite Hsa.
  destruct (modify_is_Some node
              (SgUctNode.SetFirstChild (Some (mkPtr allocatorId s))) tree1)
    as [tree2 H2]; [exists n; by eapply Pushed_old|].
  destruct (modify_is_Some node
              (SgUctNode.SetNuChildren (length moves)) tree2)
    as [tree3 H3]; [by eapply modify_keeps, modify_Some_inv|].
  rewrite H2. simpl. rewrite H3. simpl.
  eexists _, (mkPtr allocatorId s). split; [done|]. split; [done|].
  eapply publish_reader_safe; try done.
  by destruct moves.
Qed.

Lemma ApplyFilter_publishes allocatorId node rootFilter tree n cs :
  node_at tree node = Some n →
  Children tree node = Some cs →
  HasRoom allocatorId (SgUctNode.NuChildren n) tree →
  SgUctNode.HasChildren n = true →
  surviving rootFilter cs ≠ [] →
  ∃ states first,
    ApplyFilter_states allocatorId node rootFilter tree = Some states ∧
    ApplyFilter allocatorId node rootFilter tree = last states ∧
    published_in_order node n first (length (surviving rootFilter cs)) states ∧
    reader_safe node states.
Proof.
  intros Hn Hcs Hroom Hch Hsurv.
  pose proof (Children_length _ _ _ _ Hn Hcs) as Hlen.
  apply HasRoom_sizes in Hroom as (s & c & Hs & Hc & Hle).
  assert (length (surviving rootFilter cs) ≤ length cs) as Hkept
    by apply length_filter.
  rewrite ApplyFilter_states_last. unfold ApplyFilter_states.
  rewrite Hn. simpl. rewrite Hch. simpl.
  destruct (sizes_Allocator _ _ _ Hs) as (a & Ha & Hsa). rewrite Ha. simpl.
  assert (first_child_safe tree n) as Hsafe.
  { intros _. pose proof Hcs as Hcs'. unfold Children in Hcs'.
    apply bind_Some in Hcs' as (n0 & Hn0 & Hcs').
    rewrite Hn in Hn0. injection Hn0 as <-.
    apply bind_Some in Hcs' as (its & Hits & Hm).
    unfold SgUctNode.ChildPtrs in Hits. rewrite Hch in Hits.
    apply bind_Some in Hits as (first & Hf & Hits). injection Hits as <-.
    exists first. split; [done|].
    apply bool_decide_eq_true in Hch. unfold SgUctNode.NuChildren in Hm.
    destruct (SgUctNode.m_nuChildren n) as [|m]; [lia|].
    apply mapM_Some in Hm. cbn [seq fmap list_fmap] in Hm.
    apply Forall2_cons_inv_l in Hm as (y & cs' & Hy & _ & _).
    assert (ptr_offset first 0 = first) as Hoff.
    { destruct first. unfold ptr_offset. simpl. f_equal. lia. }
    rewrite Hoff in Hy. eauto. }
  unfold Children in Hcs. rewrite Hn in Hcs. simpl in Hcs.
  destruct (SgUctNode.ChildPtrs n) as [its|]; [|done]. simpl in Hcs |- *.
  destruct (ApplyFilter_loop_Pushed allocatorId rootFilter its tree 0 cs s c)
    as (tree1 & -> & Hp); [done|done|done|unfold surviving in *; lia|]. simpl.
  rewrite Hsa.
  destruct (modify_is_Some node
              (SgUctNode.SetFirstChild (Some (mkPtr allocatorId s))) tree1)
    as [tree2 H2]; [exists n; by eapply Pushed_old|].
  destruct (modify_is_Some node
              (SgUctNode.SetNuChildren
                 (length (filter (λ n0, SgUctNode.Move n0 ∉ rootFilter) cs)))
              tree2)
    as [tree3 H3]; [by eapply modify_keeps, modify_Some_inv|].
  rewrite H2. simpl. rewrite H3. simpl.
  eexists _, (mkPtr allocatorId s). split; [done|]. split; [done|].
  eapply publish_reader_safe; try done.
  unfold surviving in Hsurv. intros Hnil. apply fmap_nil_inv in Hnil. done.
Qed.

End Publishing.

(** Publishing a child block that is not empty is safe for a reader.
    [CreateChildren], called as it asserts on a node of the tree with at
    least one move and room in the allocator, and [ApplyFilter], called as
    it asserts on a node with a readable child block and room in the
    allocator, when at least one child survives the filter: the call
    returns; the node is written twice, first [m_firstChild], then
    [m_nuChildren]; and a reader of the node is safe in the states before
    the call, after the loop, between the two stores and after them: if it
    observes [m_nuChildren > 0] and reads [m_firstChild] in the same state
    or a later one, what it read is the address of a node of the tree from
    then on. For [CreateChildren] the node must have been safe to read
    before the call: a first child that is a node if the node has
    children. *)
Theorem first_child_published_safely :
  (∀ allocatorId node moves tree n,
     node_at tree node = Some n →
     moves ≠ [] →
     HasRoom allocatorId (length moves) tree →
     first_child_safe tree n →
     ∃ states first,
       CreateChildren_states allocatorId node moves tree = Some states ∧
       CreateChildren allocatorId node moves tree = last states ∧
       published_in_order node n first (length moves) states ∧
       reader_safe node states) ∧
  (∀ allocatorId node rootFilter tree n cs,
     node_at tree node = Some n →
     Children tree node = Some cs →
     HasRoom allocatorId (SgUctNode.NuChildren n) tree →
     SgUctNode.HasChildren n = true →
     surviving rootFilter cs ≠ [] →
     ∃ states first,
       ApplyFilter_states allocatorId node rootFilter tree = Some states ∧
       ApplyFilter allocatorId node rootFilter tree = last states ∧
       published_in_order node n first (length (surviving rootFilter cs))
         states ∧
       reader_safe node states).
Proof.
  split.
  - apply CreateChildren_publishes.
  - apply ApplyFilter_publishes.
Qed.

Lemma first_child_published_safely_witness :
  (∃ states first,
     CreateChildren_states 0 RootRef [3; 4]%Z example_tree = Some states ∧
     CreateChildren 0 RootRef [3; 4]%Z example_tree = last states ∧
     published_in_order RootRef (m_root example_tree) first 2 states ∧
     reader_safe RootRef states) ∧
  (∃ states first,
     ApplyFilter_states 1 RootRef [1%Z] filter_example = Some states ∧
     ApplyFilter 1 RootRef [1%Z] filter_example = last states ∧
     published_in_order RootRef (m_root filter_example) first 1 states ∧
     reader_safe RootRef states).
Proof.
  split.
  - apply (proj1 first_child_published_safely 0 RootRef [3; 4]%Z example_tree
             (m_root example_tree)).
    + reflexivity.
    + discriminate.
    + eexists. split; reflexivity.
    + intros H. discriminate H.
  - apply (proj2 first_child_published_safely 1 RootRef [1%Z] filter_example
             (m_root filter_example)
             [SgUctNode.make 1%Z; filter_example_child]).
    + reflexivity.
    + reflexivity.
    + eexists. split; reflexivity.
    + reflexivity.
    + discriminate.
Defined.

(** C5 (the code does not do this in ApplyFilter). The root of
    [filter_example] has the children 1 and 2, and the call satisfies the
    assertions of [ApplyFilter]. With the filter [1; 2] no child
    survives. Before the call the root has two children and its first
    child is a node. [m_firstChild] is stored before [m_nuChildren], as
    the comment in the code demands; but between the two stores the root
    still has [m_nuChildren = 2], and its [m_firstChild] is the end of
    allocator 1, where no node is: a reader that observes
    [m_nuChildren > 0] there cannot dereference [m_firstChild]. The
    second store sets [m_nuChildren] to 0. *)
Theorem ApplyFilter_stale_count :
  HasRoom 1 (SgUctNode.NuChildren (m_root filter_example)) filter_example ∧
  ∃ tree1 tree2 tree3 n first,
    ApplyFilter_states 1 RootRef [1; 2]%Z filter_example
    = Some [filter_example; tree1; tree2; tree3] ∧
    ApplyFilter 1 RootRef [1; 2]%Z filter_example = Some tree3 ∧
    first_child_safe filter_example (m_root filter_example) ∧
    SgUctNode.NuChildren (m_root filter_example) = 2 ∧
    node_at tree2 RootRef = Some n ∧
    SgUctNode.NuChildren n = 2 ∧
    SgUctNode.HasChildren n = true ∧
    SgUctNode.FirstChild n = Some first ∧
    first = mkPtr 1 1 ∧
    sizes tree2 = [2; 1] ∧
    node_at tree2 (AllocRef first) = None ∧
    ¬ first_child_safe tree2 n ∧
    SgUctNode.NuChildren (m_root tree3) = 0.
Proof.
  split; [eexists; split; reflexivity|].
  do 5 eexists. split_and!; try reflexivity.
  - intros _. eexists. split; [reflexivity|]. by eexists.
  - intros H. destruct (H eq_refl) as (first & Hf & [x Hx]).
    injection Hf as <-. discriminate Hx.
Qed.
